(** * MULTIAGENTES_SP: the traffic visualisation client

    A shallow embedding of the snapshot client
    ([libs/api_connection_traffic.js]), of the reconciliation and
    interpolation code of the city scene (the visualisation script that
    declares [updateCars], [interpolateCars] and [lerpAngle]) and of the
    asset cache ([libs/obj_loader.js]).

    Conventions of the embedding.
    - A JavaScript number is a real number of [R].  Comparisons, angles and
      the bookkeeping of the collections read the arithmetic of the source
      exactly.  The interpolation of positions and the clock of the frame
      loop, where a property speaks of a value that is reached exactly,
      round: each operation there is followed by [fl], the rounding of a
      real number to a number of the program (class [Rounding]); and
      [Binary64] runs the same lines on the binary64 numbers of the
      kernel.
    - A JavaScript object that is shared between arrays (a car is held by
      [cars] and by [scene.objects] at once) lives in a store, [heap], and
      the arrays hold references (indices) into it.  [new Object3D] appends
      to the store, a field assignment overwrites the cell.
    - Entity identities are strings, as the server reports them
      ([{"id": "agent_1", ...}]); on strings [==], [===] and [Set.has]
      agree, and the only falsy identity is the empty string.
    - [fetch] is a value of [response]: the promise rejects, or it resolves
      with [ok] false, or it resolves with [ok] true and a parsed body. *)

From Stdlib Require Import Reals Lra Lia ZArith.
From Stdlib Require PrimFloat.
From stdpp Require Import gmap strings list.
From Equations Require Import Equations.

(** ** Numbers, vectors and angles *)

(** The arithmetic of the program.  The result of an operation on two
    numbers is the exact result, rounded to the nearest binary64 number.
    [fl] is that rounding; what is proved with it holds for every rounding
    that fixes 0 and 1, fixes its own results and is monotone, as the
    rounding to nearest does (overflow is not modelled). *)
Class Rounding : Type := {
  fl : R → R;
  fl_0 : fl 0%R = 0%R;
  fl_1 : fl 1%R = 1%R;
  fl_idem : ∀ x, fl (fl x) = fl x;
  fl_mono : ∀ x y, (x <= y)%R → (fl x <= fl y)%R
}.

(** Arithmetic without rounding: every real number is a number. *)
Definition exact_arithmetic : Rounding :=
  {| fl := λ x, x; fl_0 := eq_refl; fl_1 := eq_refl;
     fl_idem := λ x, eq_refl; fl_mono := λ x y H, H |}.

(** Arithmetic on whole numbers, every result rounded down: a rounding
    that loses digits. *)
Definition whole_arithmetic : Rounding.
Proof.
  refine {| fl := λ x, IZR (Int_part x) |}.
  - f_equal. symmetry. apply Int_part_spec. lra.
  - f_equal. symmetry. apply Int_part_spec. lra.
  - intros x. f_equal. symmetry. apply Int_part_spec. lra.
  - intros x y Hxy. apply IZR_le.
    destruct (base_Int_part x) as [Hx _].
    destruct (base_Int_part y) as [_ Hy].
    assert (IZR (Int_part x) < IZR (Int_part y) + 1)%R as Hlt by lra.
    rewrite <- plus_IZR in Hlt. apply lt_IZR in Hlt. lia.
Defined.

Definition vec3 : Type := R * R * R.
Definition vec4 : Type := R * R * R * R.

Definition vx (v : vec3) : R := fst (fst v).
Definition vy (v : vec3) : R := snd (fst v).
Definition vz (v : vec3) : R := snd v.

Section Angles.
Local Open Scope R_scope.

(** [function lerp(start, end, t)]: [start + (end - start) * t], a
    subtraction, a product and a sum, each rounded. *)
Definition lerp `{!Rounding} (start end_ t : R) : R :=
  fl (start + fl (fl (end_ - start) * t)).

(** [while (diff > Math.PI) diff -= 2 * Math.PI;]  The loop ends because
    the integer part of [diff / 2π] drops by one at each turn. *)
Equations? wrap_down (d : R) : R by wf (Z.to_nat (up (d / (2 * PI)))) lt :=
  wrap_down d with Rgt_dec d PI => {
    | left _ => wrap_down (d - 2 * PI);
    | right _ => d }.
Proof.
  pose proof PI_RGT_0 as Hpi.
  set (q := d / (2 * PI)).
  replace ((d - 2 * PI) / (2 * PI)) with (q - 1) by (unfold q; field; lra).
  assert (0 < q) as Hq by (apply Rdiv_lt_0_compat; lra).
  destruct (archimed q) as [Hu Hl].
  assert (up (q - 1) = (up q - 1)%Z) as ->
    by (symmetry; apply tech_up; rewrite minus_IZR; simpl; lra).
  assert (0 < IZR (up q)) as Hz by lra.
  apply lt_IZR in Hz. lia.
Qed.

(** [while (diff < -Math.PI) diff += 2 * Math.PI;] *)
Equations? wrap_up (d : R) : R by wf (Z.to_nat (up (- d / (2 * PI)))) lt :=
  wrap_up d with Rlt_dec d (- PI) => {
    | left _ => wrap_up (d + 2 * PI);
    | right _ => d }.
Proof.
  pose proof PI_RGT_0 as Hpi.
  set (q := - d / (2 * PI)).
  replace (- (d + 2 * PI) / (2 * PI)) with (q - 1) by (unfold q; field; lra).
  assert (0 < q) as Hq by (apply Rdiv_lt_0_compat; lra).
  destruct (archimed q) as [Hu Hl].
  assert (up (q - 1) = (up q - 1)%Z) as ->
    by (symmetry; apply tech_up; rewrite minus_IZR; simpl; lra).
  assert (0 < IZR (up q)) as Hz by lra.
  apply lt_IZR in Hz. lia.
Qed.

(** The two loops of [lerpAngle], one after the other. *)
Definition normalize_delta (diff : R) : R := wrap_up (wrap_down diff).

(** [function lerpAngle(start, end, t)] *)
Definition lerpAngle (start end_ t : R) : R :=
  start + normalize_delta (end_ - start) * t.

(** [Math.atan2(y, x)] on finite arguments, from the arc tangent. *)
Definition atan2 (y x : R) : R :=
  if Rlt_dec 0 x then atan (y / x)
  else if Rlt_dec x 0 then
         (if Rle_dec 0 y then atan (y / x) + PI else atan (y / x) - PI)
  else if Rlt_dec 0 y then PI / 2
  else if Rlt_dec y 0 then - (PI / 2)
  else 0.

(** [const DIRECTION_ROTATIONS = {'Up': .., 'Down': .., 'Left': .., 'Right': ..}];
    [None] stands for [hasOwnProperty] answering false. *)
Definition DIRECTION_ROTATIONS (dir : string) : option R :=
  if decide (dir = "Up") then Some PI
  else if decide (dir = "Down") then Some 0
  else if decide (dir = "Left") then Some (PI / 2)
  else if decide (dir = "Right") then Some (- (PI / 2))
  else None.

Definition GLOBAL_SCALE : R := 1.5.
Definition CAR_Y_OFFSET : R := 0.30.
Definition CAR_Z_OFFSET : R := -0.15.

(** [const duration = 500] and, in [drawScene],
    [let fract = Math.min(1.0, elapsed / duration)]. *)
Definition duration : R := 500.
Definition fract_of `{!Rounding} (elapsed : R) : R :=
  Rmin 1 (fl (elapsed / duration)).

End Angles.

(** The same lines on binary64 numbers, to run them.  A decimal literal
    stands for the nearest binary64 number, as it does in the source. *)
Set Warnings "-inexact-float".

Module Binary64.
Import PrimFloat.

(** [function lerp(start, end, t)] *)
Definition lerp (start end_ t : float) : float :=
  (start + (end_ - start) * t)%float.

(** [Math.min(1.0, x)] on numbers that are not [NaN]. *)
Definition min_1 (x : float) : float := if (x <? 1)%float then x else 1%float.

(** [let fract = Math.min(1.0, elapsed / duration)] with
    [duration = 500]. *)
Definition fract_of (elapsed : float) : float := min_1 (elapsed / 500)%float.

(** The three coordinates of [car.renderPos] in [interpolateCars], with
    [CAR_Y_OFFSET = 0.30] and [CAR_Z_OFFSET = -0.15]. *)
Definition renderPos (oldPos currentPos : float * float * float)
    (fract : float) : float * float * float :=
  let interpX := lerp (fst (fst oldPos)) (fst (fst currentPos)) fract in
  let interpZ := lerp (snd oldPos) (snd currentPos) fract in
  let interpY := snd (fst currentPos) in
  (interpX, interpY + 0.30, interpZ + -0.15)%float.

End Binary64.

(** ** Entities *)

(** Modelled from the spec: [class Object3D] ([libs/object3d.js]) is not
    among the sources.  An entity has an identity, a position, a rotation
    in radians and a scale of three scalars each, a reference to shared
    mesh data and material overrides; a dynamic entity also carries its
    previous position sample, its previous and target yaw and a render
    position.  The fields and their names are those the scripts read and
    assign ([oldPosArray], [direction], [futurePos], [state], [renderPos],
    [currentRotY], [targetRotY], the material colours); a field that may
    be [undefined] is an [option].  [posArray] is the array made of
    [position.x], [position.y] and [position.z]: it is [position] here.
    [arrays], [bufferInfo] and [vao] are always assigned together from one
    model, the embedding keeps [vao]. *)

Record Object3D : Type := mkObject3D {
  id : string;
  position : vec3;
  rotRad : vec3;
  scale : vec3;
  color : vec4;
  vao : option nat;
  oldPosArray : option vec3;
  direction : option string;
  futurePos : option vec3;
  state : option bool;
  renderPos : option vec3;
  currentRotY : option R;
  targetRotY : option R;
  diffuseColor : option vec4;
  ambientColor : option vec4;
  specularColor : option vec4;
  shininess : option R;
  useVertexColor : option bool
}.

Definition set_position (v : vec3) (o : Object3D) : Object3D :=
  {| id := id o; position := v; rotRad := rotRad o; scale := scale o; color :=
     color o; vao := vao o; oldPosArray := oldPosArray o; direction :=
     direction o; futurePos := futurePos o; state := state o; renderPos :=
     renderPos o; currentRotY := currentRotY o; targetRotY := targetRotY o;
     diffuseColor := diffuseColor o; ambientColor := ambientColor o;
     specularColor := specularColor o; shininess := shininess o;
     useVertexColor := useVertexColor o |}.

Definition set_rotRad (v : vec3) (o : Object3D) : Object3D :=
  {| id := id o; position := position o; rotRad := v; scale := scale o; color
     := color o; vao := vao o; oldPosArray := oldPosArray o; direction :=
     direction o; futurePos := futurePos o; state := state o; renderPos :=
     renderPos o; currentRotY := currentRotY o; targetRotY := targetRotY o;
     diffuseColor := diffuseColor o; ambientColor := ambientColor o;
     specularColor := specularColor o; shininess := shininess o;
     useVertexColor := useVertexColor o |}.

Definition set_scale (v : vec3) (o : Object3D) : Object3D :=
  {| id := id o; position := position o; rotRad := rotRad o; scale := v; color
     := color o; vao := vao o; oldPosArray := oldPosArray o; direction :=
     direction o; futurePos := futurePos o; state := state o; renderPos :=
     renderPos o; currentRotY := currentRotY o; targetRotY := targetRotY o;
     diffuseColor := diffuseColor o; ambientColor := ambientColor o;
     specularColor := specularColor o; shininess := shininess o;
     useVertexColor := useVertexColor o |}.

Definition set_color (v : vec4) (o : Object3D) : Object3D :=
  {| id := id o; position := position o; rotRad := rotRad o; scale := scale o;
     color := v; vao := vao o; oldPosArray := oldPosArray o; direction :=
     direction o; futurePos := futurePos o; state := state o; renderPos :=
     renderPos o; currentRotY := currentRotY o; targetRotY := targetRotY o;
     diffuseColor := diffuseColor o; ambientColor := ambientColor o;
     specularColor := specularColor o; shininess := shininess o;
     useVertexColor := useVertexColor o |}.

Definition set_vao (v : option nat) (o : Object3D) : Object3D :=
  {| id := id o; position := position o; rotRad := rotRad o; scale := scale o;
     color := color o; vao := v; oldPosArray := oldPosArray o; direction :=
     direction o; futurePos := futurePos o; state := state o; renderPos :=
     renderPos o; currentRotY := currentRotY o; targetRotY := targetRotY o;
     diffuseColor := diffuseColor o; ambientColor := ambientColor o;
     specularColor := specularColor o; shininess := shininess o;
     useVertexColor := useVertexColor o |}.

Definition set_oldPosArray (v : option vec3) (o : Object3D) : Object3D :=
  {| id := id o; position := position o; rotRad := rotRad o; scale := scale o;
     color := color o; vao := vao o; oldPosArray := v; direction := direction
     o; futurePos := futurePos o; state := state o; renderPos := renderPos o;
     currentRotY := currentRotY o; targetRotY := targetRotY o; diffuseColor :=
     diffuseColor o; ambientColor := ambientColor o; specularColor :=
     specularColor o; shininess := shininess o; useVertexColor :=
     useVertexColor o |}.

Definition set_direction (v : option string) (o : Object3D) : Object3D :=
  {| id := id o; position := position o; rotRad := rotRad o; scale := scale o;
     color := color o; vao := vao o; oldPosArray := oldPosArray o; direction
     := v; futurePos := futurePos o; state := state o; renderPos := renderPos
     o; currentRotY := currentRotY o; targetRotY := targetRotY o; diffuseColor
     := diffuseColor o; ambientColor := ambientColor o; specularColor :=
     specularColor o; shininess := shininess o; useVertexColor :=
     useVertexColor o |}.

Definition set_futurePos (v : option vec3) (o : Object3D) : Object3D :=
  {| id := id o; position := position o; rotRad := rotRad o; scale := scale o;
     color := color o; vao := vao o; oldPosArray := oldPosArray o; direction
     := direction o; futurePos := v; state := state o; renderPos := renderPos
     o; currentRotY := currentRotY o; targetRotY := targetRotY o; diffuseColor
     := diffuseColor o; ambientColor := ambientColor o; specularColor :=
     specularColor o; shininess := shininess o; useVertexColor :=
     useVertexColor o |}.

Definition set_state (v : option bool) (o : Object3D) : Object3D :=
  {| id := id o; position := position o; rotRad := rotRad o; scale := scale o;
     color := color o; vao := vao o; oldPosArray := oldPosArray o; direction
     := direction o; futurePos := futurePos o; state := v; renderPos :=
     renderPos o; currentRotY := currentRotY o; targetRotY := targetRotY o;
     diffuseColor := diffuseColor o; ambientColor := ambientColor o;
     specularColor := specularColor o; shininess := shininess o;
     useVertexColor := useVertexColor o |}.

Definition set_renderPos (v : option vec3) (o : Object3D) : Object3D :=
  {| id := id o; position := position o; rotRad := rotRad o; scale := scale o;
     color := color o; vao := vao o; oldPosArray := oldPosArray o; direction
     := direction o; futurePos := futurePos o; state := state o; renderPos :=
     v; currentRotY := currentRotY o; targetRotY := targetRotY o; diffuseColor
     := diffuseColor o; ambientColor := ambientColor o; specularColor :=
     specularColor o; shininess := shininess o; useVertexColor :=
     useVertexColor o |}.

Definition set_currentRotY (v : option R) (o : Object3D) : Object3D :=
  {| id := id o; position := position o; rotRad := rotRad o; scale := scale o;
     color := color o; vao := vao o; oldPosArray := oldPosArray o; direction
     := direction o; futurePos := futurePos o; state := state o; renderPos :=
     renderPos o; currentRotY := v; targetRotY := targetRotY o; diffuseColor
     := diffuseColor o; ambientColor := ambientColor o; specularColor :=
     specularColor o; shininess := shininess o; useVertexColor :=
     useVertexColor o |}.

Definition set_targetRotY (v : option R) (o : Object3D) : Object3D :=
  {| id := id o; position := position o; rotRad := rotRad o; scale := scale o;
     color := color o; vao := vao o; oldPosArray := oldPosArray o; direction
     := direction o; futurePos := futurePos o; state := state o; renderPos :=
     renderPos o; currentRotY := currentRotY o; targetRotY := v; diffuseColor
     := diffuseColor o; ambientColor := ambientColor o; specularColor :=
     specularColor o; shininess := shininess o; useVertexColor :=
     useVertexColor o |}.

Definition set_diffuseColor (v : option vec4) (o : Object3D) : Object3D :=
  {| id := id o; position := position o; rotRad := rotRad o; scale := scale o;
     color := color o; vao := vao o; oldPosArray := oldPosArray o; direction
     := direction o; futurePos := futurePos o; state := state o; renderPos :=
     renderPos o; currentRotY := currentRotY o; targetRotY := targetRotY o;
     diffuseColor := v; ambientColor := ambientColor o; specularColor :=
     specularColor o; shininess := shininess o; useVertexColor :=
     useVertexColor o |}.

Definition set_ambientColor (v : option vec4) (o : Object3D) : Object3D :=
  {| id := id o; position := position o; rotRad := rotRad o; scale := scale o;
     color := color o; vao := vao o; oldPosArray := oldPosArray o; direction
     := direction o; futurePos := futurePos o; state := state o; renderPos :=
     renderPos o; currentRotY := currentRotY o; targetRotY := targetRotY o;
     diffuseColor := diffuseColor o; ambientColor := v; specularColor :=
     specularColor o; shininess := shininess o; useVertexColor :=
     useVertexColor o |}.

Definition set_specularColor (v : option vec4) (o : Object3D) : Object3D :=
  {| id := id o; position := position o; rotRad := rotRad o; scale := scale o;
     color := color o; vao := vao o; oldPosArray := oldPosArray o; direction
     := direction o; futurePos := futurePos o; state := state o; renderPos :=
     renderPos o; currentRotY := currentRotY o; targetRotY := targetRotY o;
     diffuseColor := diffuseColor o; ambientColor := ambientColor o;
     specularColor := v; shininess := shininess o; useVertexColor :=
     useVertexColor o |}.

Definition set_shininess (v : option R) (o : Object3D) : Object3D :=
  {| id := id o; position := position o; rotRad := rotRad o; scale := scale o;
     color := color o; vao := vao o; oldPosArray := oldPosArray o; direction
     := direction o; futurePos := futurePos o; state := state o; renderPos :=
     renderPos o; currentRotY := currentRotY o; targetRotY := targetRotY o;
     diffuseColor := diffuseColor o; ambientColor := ambientColor o;
     specularColor := specularColor o; shininess := v; useVertexColor :=
     useVertexColor o |}.

Definition set_useVertexColor (v : option bool) (o : Object3D) : Object3D :=
  {| id := id o; position := position o; rotRad := rotRad o; scale := scale o;
     color := color o; vao := vao o; oldPosArray := oldPosArray o; direction
     := direction o; futurePos := futurePos o; state := state o; renderPos :=
     renderPos o; currentRotY := currentRotY o; targetRotY := targetRotY o;
     diffuseColor := diffuseColor o; ambientColor := ambientColor o;
     specularColor := specularColor o; shininess := shininess o;
     useVertexColor := v |}.

(** Modelled from the spec: the constructor of [Object3D], of which the
    sources show the signature
    [constructor(id, position, rotation, scale, color)] only.  The fields
    the scripts add later start [undefined].  The default colour of the
    constructor is random; every caller embedded here assigns [color]
    before the object is used, so that colour is passed. *)
Definition new_Object3D (i : string) (pos rot sca : vec3) (col : vec4) : Object3D :=
  {| id := i; position := pos; rotRad := rot; scale := sca; color := col;
     vao := None; oldPosArray := None; direction := None; futurePos := None;
     state := None; renderPos := None; currentRotY := None;
     targetRotY := None; diffuseColor := None; ambientColor := None;
     specularColor := None; shininess := None; useVertexColor := None |}.

Definition zero3 : vec3 := (0, 0, 0)%R.
Definition one3 : vec3 := (1, 1, 1)%R.

(** ** The snapshot client: [api_connection_traffic.js] *)

(** One element of [result.positions], per endpoint. *)
Record CarJson : Type := mkCarJson {
  car_id : string;
  car_x : R; car_y : R; car_z : R;
  car_direction : option string;
  car_futureX : R; car_futureZ : R
}.

Record LightJson : Type := mkLightJson {
  light_id : string;
  light_x : R; light_y : R; light_z : R;
  light_state : bool
}.

Record CellJson : Type := mkCellJson {
  cell_id : string;
  cell_x : R; cell_y : R; cell_z : R;
  cell_direction : option string
}.

(** What [await fetch(..)] does. *)
Inductive response (A : Type) : Type :=
| Rejected
| NotOk
| Ok (body : A).
Arguments Rejected {A}.
Arguments NotOk {A}.
Arguments Ok {A} body.

(** Lines written to the console. *)
Inductive log_entry : Type :=
| LogMessage (text : string)
| LogError (error : string).

Record World : Type := mkWorld {
  heap : list Object3D;
  cars : list nat;
  obstacles : list nat;
  trafficLights : list nat;
  roads : list nat;
  destinations : list nat;
  console : list log_entry;
  scene_objects : list nat;
  trafficLightSpheres : gmap string nat;
  draws : nat
}.

Definition set_heap (v : list Object3D) (w : World) : World :=
  {| heap := v; cars := cars w; obstacles := obstacles w; trafficLights :=
     trafficLights w; roads := roads w; destinations := destinations w;
     console := console w; scene_objects := scene_objects w;
     trafficLightSpheres := trafficLightSpheres w; draws := draws w |}.

Definition set_cars (v : list nat) (w : World) : World :=
  {| heap := heap w; cars := v; obstacles := obstacles w; trafficLights :=
     trafficLights w; roads := roads w; destinations := destinations w;
     console := console w; scene_objects := scene_objects w;
     trafficLightSpheres := trafficLightSpheres w; draws := draws w |}.

Definition set_obstacles (v : list nat) (w : World) : World :=
  {| heap := heap w; cars := cars w; obstacles := v; trafficLights :=
     trafficLights w; roads := roads w; destinations := destinations w;
     console := console w; scene_objects := scene_objects w;
     trafficLightSpheres := trafficLightSpheres w; draws := draws w |}.

Definition set_trafficLights (v : list nat) (w : World) : World :=
  {| heap := heap w; cars := cars w; obstacles := obstacles w; trafficLights
     := v; roads := roads w; destinations := destinations w; console :=
     console w; scene_objects := scene_objects w; trafficLightSpheres :=
     trafficLightSpheres w; draws := draws w |}.

Definition set_roads (v : list nat) (w : World) : World :=
  {| heap := heap w; cars := cars w; obstacles := obstacles w; trafficLights
     := trafficLights w; roads := v; destinations := destinations w; console
     := console w; scene_objects := scene_objects w; trafficLightSpheres :=
     trafficLightSpheres w; draws := draws w |}.

Definition set_destinations (v : list nat) (w : World) : World :=
  {| heap := heap w; cars := cars w; obstacles := obstacles w; trafficLights
     := trafficLights w; roads := roads w; destinations := v; console :=
     console w; scene_objects := scene_objects w; trafficLightSpheres :=
     trafficLightSpheres w; draws := draws w |}.

Definition set_console (v : list log_entry) (w : World) : World :=
  {| heap := heap w; cars := cars w; obstacles := obstacles w; trafficLights
     := trafficLights w; roads := roads w; destinations := destinations w;
     console := v; scene_objects := scene_objects w; trafficLightSpheres :=
     trafficLightSpheres w; draws := draws w |}.

Definition set_scene_objects (v : list nat) (w : World) : World :=
  {| heap := heap w; cars := cars w; obstacles := obstacles w; trafficLights
     := trafficLights w; roads := roads w; destinations := destinations w;
     console := console w; scene_objects := v; trafficLightSpheres :=
     trafficLightSpheres w; draws := draws w |}.

Definition set_trafficLightSpheres (v : gmap string nat) (w : World) : World :=
  {| heap := heap w; cars := cars w; obstacles := obstacles w; trafficLights
     := trafficLights w; roads := roads w; destinations := destinations w;
     console := console w; scene_objects := scene_objects w;
     trafficLightSpheres := v; draws := draws w |}.

Definition set_draws (v : nat) (w : World) : World :=
  {| heap := heap w; cars := cars w; obstacles := obstacles w; trafficLights
     := trafficLights w; roads := roads w; destinations := destinations w;
     console := console w; scene_objects := scene_objects w;
     trafficLightSpheres := trafficLightSpheres w; draws := v |}.

Definition empty_world : World :=
  {| heap := []; cars := []; obstacles := []; trafficLights := [];
     roads := []; destinations := []; console := []; scene_objects := [];
     trafficLightSpheres := ∅; draws := 0 |}.

(** A small state-and-exception monad for the [async] functions: the
    store is threaded, a rejected promise is [Thrown]. *)
Inductive outcome (A : Type) : Type :=
| Normal (a : A)
| Thrown (e : string).
Arguments Normal {A} a.
Arguments Thrown {A} e.

Definition js (A : Type) : Type := World → World * outcome A.

#[global] Instance js_ret : MRet js := λ A a w, (w, Normal a).

#[global] Instance js_bind : MBind js := λ A B k m w,
  match m w with
  | (w', Normal a) => k a w'
  | (w', Thrown e) => (w', Thrown e)
  end.

(** [try { body } catch (error) { handler }] *)
Definition try_catch (body : js unit) (handler : string → js unit) : js unit :=
  λ w, match body w with
       | (w', Normal a) => (w', Normal a)
       | (w', Thrown e) => handler e w'
       end.

Definition console_log (l : log_entry) : js unit :=
  λ w, (set_console (console w ++ [l]) w, Normal tt).

Definition modify (f : World → World) : js unit := λ w, (f w, Normal tt).

(** [await fetch(uri)]: a rejection is an exception at the [await]. *)
Definition fetch {A} (r : response A) : js (response A) :=
  λ w, match r with
       | Rejected => (w, Thrown "TypeError: Failed to fetch")
       | _ => (w, Normal r)
       end.

(** [if (response.ok) { let result = await response.json(); block }] *)
Definition when_ok {A} (r : response A) (block : A → js unit) : js unit :=
  match r with
  | Ok body => block body
  | _ => mret tt
  end.

(** The state an [async] function leaves behind. *)
Definition run (m : js unit) (w : World) : World := fst (m w).

(** [async function initTrafficModel()] *)
Definition initTrafficModel (r : response string) : js unit :=
  try_catch
    (resp ← fetch r ;
     when_ok resp (λ message, console_log (LogMessage message)))
    (λ error, console_log (LogError error)).

(** The identity of the object a reference points to. *)
Definition obj_id (h : list Object3D) (r : nat) : option string :=
  id <$> h !! r.

(** [cars.find((object3d) => object3d.id == id)] *)
Fixpoint find_by_id (h : list Object3D) (refs : list nat) (i : string)
  : option nat :=
  match refs with
  | [] => None
  | r :: rest =>
      if bool_decide (obj_id h r = Some i) then Some r
      else find_by_id h rest i
  end.

Definition red : vec4 := (1, 0, 0, 1)%R.
Definition green : vec4 := (0, 1, 0, 1)%R.

(** [for (let i = cars.length - 1; i >= 0; i--)
       if (!serverCarIds.has(cars[i].id)) { console.log(..); cars.splice(i, 1); }]
    with [i] the number of indices still to visit.  A reference outside
    the store does not occur in a run of the program; it is dropped. *)
Fixpoint retire_loop (serverCarIds : list string) (h : list Object3D)
    (i : nat) (cs : list nat) (out : list log_entry)
  : list nat * list log_entry :=
  match i with
  | O => (cs, out)
  | S j =>
      match cs !! j with
      | None => retire_loop serverCarIds h j cs out
      | Some r =>
          match obj_id h r with
          | Some ident =>
              if bool_decide (ident ∈ serverCarIds)
              then retire_loop serverCarIds h j cs out
              else retire_loop serverCarIds h j (delete j cs)
                     (out ++ [LogMessage
                        ("Car " +:+ ident +:+
                         " reached destination - removing from array")])
          | None => retire_loop serverCarIds h j (delete j cs) out
          end
      end
  end.

(** The branch [current_car != undefined] of [getCars]. *)
Definition refresh_car (car : CarJson) (current_car : Object3D) : Object3D :=
  set_futurePos (Some (car_futureX car, car_y car, car_futureZ car))
    (set_direction (car_direction car)
       (set_position (car_x car, car_y car, car_z car)
          (set_oldPosArray (Some (position current_car)) current_car))).

(** The branch that builds [newCar]. *)
Definition fresh_car (car : CarJson) : Object3D :=
  set_futurePos (Some (car_futureX car, car_y car, car_futureZ car))
    (set_direction (car_direction car)
       (set_oldPosArray (Some (car_x car, car_y car, car_z car))
          (new_Object3D (car_id car) (car_x car, car_y car, car_z car)
             zero3 one3 red))).

(** One turn of [for (const car of result.positions)]. *)
Definition car_step (w : World) (car : CarJson) : World :=
  match find_by_id (heap w) (cars w) (car_id car) with
  | Some r =>
      match heap w !! r with
      | Some current_car =>
          set_heap (<[r := refresh_car car current_car]> (heap w)) w
      | None => w
      end
  | None =>
      set_cars (cars w ++ [length (heap w)])
        (set_heap (heap w ++ [fresh_car car]) w)
  end.

(** The block of [getCars] under [if (response.ok)]. *)
Definition getCars_ok (positions : list CarJson) (w : World) : World :=
  let serverCarIds := car_id <$> positions in
  let '(cs, out) :=
    retire_loop serverCarIds (heap w) (length (cars w)) (cars w) (console w) in
  foldl car_step (set_console out (set_cars cs w)) positions.

(** [async function getCars()] *)
Definition getCars (r : response (list CarJson)) : js unit :=
  try_catch
    (resp ← fetch r ;
     when_ok resp (λ positions, modify (getCars_ok positions)))
    (λ error, console_log (LogError error)).

(** [new Object3D(..)] followed by a [push] on one of the collections. *)
Definition cell_object (col : vec4) (c : CellJson) : Object3D :=
  new_Object3D (cell_id c) (cell_x c, cell_y c, cell_z c) zero3 one3 col.

(** [async function getObstacles()] *)
Definition getObstacles_ok (positions : list CellJson) (w : World) : World :=
  foldl (λ w obstacle,
           set_obstacles (obstacles w ++ [length (heap w)])
             (set_heap (heap w ++ [cell_object (0.3, 0.3, 0.3, 1)%R obstacle]) w))
    w positions.

Definition getObstacles (r : response (list CellJson)) : js unit :=
  try_catch
    (resp ← fetch r ;
     when_ok resp (λ positions, modify (getObstacles_ok positions)))
    (λ error, console_log (LogError error)).

(** [light.state ? [0.0, 1.0, 0.0, 1.0] : [1.0, 0.0, 0.0, 1.0]] *)
Definition light_color (st : bool) : vec4 := if st then green else red.

Definition fresh_light (light : LightJson) : Object3D :=
  set_state (Some (light_state light))
    (new_Object3D (light_id light)
       (light_x light, light_y light, light_z light) zero3 one3
       (light_color (light_state light))).

Definition refresh_light (light : LightJson) (current_light : Object3D)
  : Object3D :=
  set_color (light_color (light_state light))
    (set_state (Some (light_state light)) current_light).

(** One turn of the loop of the [else] branch of [getTrafficLights]. *)
Definition light_step (w : World) (light : LightJson) : World :=
  match find_by_id (heap w) (trafficLights w) (light_id light) with
  | Some r =>
      match heap w !! r with
      | Some current_light =>
          set_heap (<[r := refresh_light light current_light]> (heap w)) w
      | None => w
      end
  | None => w
  end.

(** The block of [getTrafficLights] under [if (response.ok)]. *)
Definition getTrafficLights_ok (positions : list LightJson) (w : World)
  : World :=
  if bool_decide (length (trafficLights w) = 0) then
    foldl (λ w light,
             set_trafficLights (trafficLights w ++ [length (heap w)])
               (set_heap (heap w ++ [fresh_light light]) w))
      w positions
  else foldl light_step w positions.

(** [async function getTrafficLights()] *)
Definition getTrafficLights (r : response (list LightJson)) : js unit :=
  try_catch
    (resp ← fetch r ;
     when_ok resp (λ positions, modify (getTrafficLights_ok positions)))
    (λ error, console_log (LogError error)).

(** [async function getRoads()] *)
Definition getRoads_ok (positions : list CellJson) (w : World) : World :=
  foldl (λ w road,
           set_roads (roads w ++ [length (heap w)])
             (set_heap
                (heap w ++ [set_direction (cell_direction road)
                              (cell_object (0.6, 0.6, 0.6, 1)%R road)]) w))
    w positions.

Definition getRoads (r : response (list CellJson)) : js unit :=
  try_catch
    (resp ← fetch r ;
     when_ok resp (λ positions, modify (getRoads_ok positions)))
    (λ error, console_log (LogError error)).

(** [async function getDestinations()] *)
Definition getDestinations_ok (positions : list CellJson) (w : World)
  : World :=
  foldl (λ w dest,
           set_destinations (destinations w ++ [length (heap w)])
             (set_heap (heap w ++ [cell_object green dest]) w))
    w positions.

Definition getDestinations (r : response (list CellJson)) : js unit :=
  try_catch
    (resp ← fetch r ;
     when_ok resp (λ positions, modify (getDestinations_ok positions)))
    (λ error, console_log (LogError error)).

(** [async function update()]: the call of the [update] endpoint, then the
    two snapshot calls, each with its own exchange with the server. *)
Definition update (r : response unit) (rc : response (list CarJson))
    (rl : response (list LightJson)) : js unit :=
  try_catch
    (resp ← fetch r ;
     when_ok resp (λ _, _ ← getCars rc ; getTrafficLights rl))
    (λ error, console_log (LogError error)).

(** ** The scene graph: [libs/scene3d.js] *)

(** Modelled from the spec: [Scene3D.addObject] is not among the sources.
    "[addObject(entity)] appends if identity not already present
    (idempotent no-op on duplicate)". *)
Definition addObject (h : list Object3D) (objects : list nat) (r : nat)
  : list nat :=
  match obj_id h r with
  | Some i =>
      if bool_decide (Exists (λ r', obj_id h r' = Some i) objects)
      then objects else objects ++ [r]
  | None => objects
  end.

(** Modelled from the spec: [Scene3D.removeObject] is not among the
    sources.  "[removeObject(entity)] removes by identity match, no-op if
    absent". *)
Definition removeObject (h : list Object3D) (objects : list nat) (r : nat)
  : list nat :=
  match obj_id h r with
  | Some i => filter (λ r', obj_id h r' ≠ Some i) objects
  | None => objects
  end.

(** ** The city scene: reconciliation and interpolation *)

(** What [preloadModel] hands back, named as in [carModels]. *)
Record Model : Type := mkModel {
  m_name : string;
  m_arrays : nat;
  m_bufferInfo : nat;
  m_vao : nat
}.

(** The module variables filled by [preloadAllModels], and the cube that
    [setupObjects] prepares. *)
Record Assets : Type := mkAssets {
  carModels : list Model;
  trafficLightModel : option Model;
  baseCube : Model
}.

(** The truth value of [obj.id]. *)
Definition truthy_id (i : string) : bool := negb (String.eqb i "").

(** [function updateCarRotation(car)].  The function assigns
    [car.targetRotY] under conditions: the field receives the new angle
    where the source assigns, and its own value where it does not. *)
Definition updateCarRotation (car : Object3D) : Object3D :=
  set_targetRotY
    (match oldPosArray car with
     | Some old =>
         let dx := (vx (position car) - vx old)%R in
         let dz := (vz (position car) - vz old)%R in
         if Rgt_dec (Rabs dx) 0.01 then Some (atan2 dx dz)
         else if Rgt_dec (Rabs dz) 0.01 then Some (atan2 dx dz)
         else targetRotY car
     | None =>
         match direction car with
         | Some d =>
             match DIRECTION_ROTATIONS d with
             | Some angle => Some angle
             | None => targetRotY car
             end
         | None => targetRotY car
         end
     end) car.

Definition car_scale : vec3 :=
  (0.002 * GLOBAL_SCALE, 0.002 * GLOBAL_SCALE, 0.0015 * GLOBAL_SCALE)%R.

(** [obj.id && carVAOs.has(obj.vao)] *)
Definition is_car_in_scene (A : Assets) (h : list Object3D) (r : nat) : bool :=
  match h !! r with
  | Some obj =>
      truthy_id (id obj) &&
      match vao obj with
      | Some v => bool_decide (v ∈ m_vao <$> carModels A)
      | None => false
      end
  | None => false
  end.

(** One turn of [for (const carInScene of carsInScene)]. *)
Definition retire_from_scene (currentCarIds : list string) (w : World)
    (carInScene : nat) : World :=
  match obj_id (heap w) carInScene with
  | Some i =>
      if bool_decide (i ∈ currentCarIds) then w
      else set_scene_objects
             (removeObject (heap w) (scene_objects w) carInScene) w
  | None => w
  end.

Section Random.

(** [Math.floor(Math.random() * n)] at the [k]-th draw is [rnd k mod n]. *)
Variable rnd : nat → nat.

Definition random_model (A : Assets) (k : nat) : option Model :=
  carModels A !! (rnd k mod length (carModels A)).

(** The body of [if (!car.vao && carModels.length > 0)] in [updateCars]. *)
Definition dress_car (A : Assets) (w : World) (r : nat) (car : Object3D)
  : World :=
  match random_model A (draws w) with
  | Some randomCarModel =>
      let car' :=
        set_targetRotY (Some 0%R)
          (set_currentRotY (Some 0%R)
             (set_scale car_scale
                (set_vao (Some (m_vao randomCarModel)) car))) in
      let h := <[r := car']> (heap w) in
      set_scene_objects (addObject h (scene_objects w) r)
        (set_draws (S (draws w)) (set_heap h w))
  | None => w
  end.

(** One turn of [for (const car of cars)] in [updateCars]. *)
Definition car_setup_step (A : Assets) (w : World) (r : nat) : World :=
  match heap w !! r with
  | Some car =>
      let w1 :=
        if bool_decide (vao car = None ∧ 0 < length (carModels A))
        then dress_car A w r car else w in
      match heap w1 !! r with
      | Some car1 => set_heap (<[r := updateCarRotation car1]> (heap w1)) w1
      | None => w1
      end
  | None => w
  end.

(** [function updateCars()] *)
Definition updateCars (A : Assets) (w : World) : World :=
  let currentCarIds := omap (obj_id (heap w)) (cars w) in
  let carsInScene := filter (λ r, is_car_in_scene A (heap w) r = true)
                       (scene_objects w) in
  let w1 := foldl (retire_from_scene currentCarIds) w carsInScene in
  foldl (car_setup_step A) w1 (cars w1).

(** The loop [for (const car of cars)] that ends [setupObjects]. *)
Definition setup_car_step (A : Assets) (w : World) (r : nat) : World :=
  match heap w !! r with
  | Some car =>
      let w1 :=
        if bool_decide (0 < length (carModels A)) then
          match random_model A (draws w) with
          | Some randomCarModel =>
              let car' :=
                updateCarRotation
                  (set_targetRotY (Some 0%R)
                     (set_currentRotY (Some 0%R)
                        (set_renderPos
                           (Some (vx (position car),
                                  vy (position car) + CAR_Y_OFFSET,
                                  vz (position car) + CAR_Z_OFFSET)%R)
                           (set_scale car_scale
                              (set_vao (Some (m_vao randomCarModel)) car)))))
              in
              set_draws (S (draws w)) (set_heap (<[r := car']> (heap w)) w)
          | None => w
          end
        else
          set_heap
            (<[r := set_scale (0.4 * GLOBAL_SCALE, 0.4 * GLOBAL_SCALE,
                               0.4 * GLOBAL_SCALE)%R
                      (set_vao (Some (m_vao (baseCube A))) car)]> (heap w)) w
      in
      set_scene_objects (addObject (heap w1) (scene_objects w1) r) w1
  | None => w
  end.

Definition setupObjects_cars (A : Assets) (w : World) : World :=
  foldl (setup_car_step A) w (cars w).

End Random.

(** One turn of [for (const car of cars)] in [interpolateCars].  The two
    offsets are the numbers their decimal literals stand for. *)
Definition interpolate_step `{!Rounding} (fract : R) (w : World) (r : nat)
  : World :=
  match heap w !! r with
  | Some car =>
      match oldPosArray car with
      | None => w
      | Some oldPos =>
          let currentPos := position car in
          let interpX := lerp (vx oldPos) (vx currentPos) fract in
          let interpZ := lerp (vz oldPos) (vz currentPos) fract in
          let interpY := vy currentPos in
          let car1 :=
            set_renderPos
              (Some (interpX, fl (interpY + fl CAR_Y_OFFSET),
                     fl (interpZ + fl CAR_Z_OFFSET))%R)
              car in
          let car2 :=
            match targetRotY car1 with
            | Some target =>
                let rot :=
                  lerpAngle (default 0%R (currentRotY car1)) target
                    (Rmin (fract * 2) 1) in
                set_rotRad (vx (rotRad car1), rot, vz (rotRad car1))
                  (set_currentRotY (Some rot) car1)
            | None => car1
            end in
          set_heap (<[r := car2]> (heap w)) w
      end
  | None => w
  end.

(** [function interpolateCars(fract)] *)
Definition interpolateCars `{!Rounding} (fract : R) (w : World) : World :=
  foldl (interpolate_step fract) w (cars w).

(** The three material colours of a signal cube, by [light.state]. *)
Definition sphere_color (st : bool) : vec4 :=
  if st then (0.2, 1.0, 0.2, 1.0)%R else (1.0, 0.2, 0.1, 1.0)%R.
Definition sphere_diffuseColor (st : bool) : vec4 :=
  if st then (0.3, 1.2, 0.3, 1.0)%R else (1.2, 0.3, 0.15, 1.0)%R.
Definition sphere_ambientColor (st : bool) : vec4 :=
  if st then (0.1, 0.5, 0.1, 1.0)%R else (0.5, 0.1, 0.05, 1.0)%R.

(** The truth value of [light.state]. *)
Definition truthy_state (o : Object3D) : bool := default false (state o).

Definition paint_sphere (st : bool) (sphere : Object3D) : Object3D :=
  set_ambientColor (Some (sphere_ambientColor st))
    (set_diffuseColor (Some (sphere_diffuseColor st))
       (set_color (sphere_color st) sphere)).

(** One turn of [for (const light of trafficLights)] in
    [updateTrafficLightSpheres]. *)
Definition sphere_step (w : World) (r : nat) : World :=
  match heap w !! r with
  | Some light =>
      match trafficLightSpheres w !! id light with
      | Some s =>
          match heap w !! s with
          | Some sphere =>
              set_heap
                (<[s := paint_sphere (truthy_state light) sphere]> (heap w)) w
          | None => w
          end
      | None => w
      end
  | None => w
  end.

(** [function updateTrafficLightSpheres()] *)
Definition updateTrafficLightSpheres (w : World) : World :=
  foldl sphere_step w (trafficLights w).

(** One turn of [for (const light of trafficLights)] in [setupObjects]:
    the road tile under the light, the light itself, and its signal cube,
    registered in [trafficLightSpheres]. *)
Definition setup_light_step (A : Assets) (w : World) (r : nat) : World :=
  match heap w !! r with
  | Some light =>
      let tile_scale :=
        (0.5 * GLOBAL_SCALE, 0.1 * GLOBAL_SCALE, 0.5 * GLOBAL_SCALE)%R in
      let roadUnderLight :=
        set_useVertexColor (Some false)
          (set_scale tile_scale
             (set_vao (Some (m_vao (baseCube A)))
                (new_Object3D ("road_light_" +:+ id light) (position light)
                   zero3 one3 (0.4, 0.4, 0.4, 1.0)%R))) in
      let road_ref := length (heap w) in
      let h1 := heap w ++ [roadUnderLight] in
      let s1 := addObject h1 (scene_objects w) road_ref in
      let light' :=
        match trafficLightModel A with
        | Some model =>
            set_position (vx (position light), 2.5, vz (position light))%R
              (set_scale (0.005 * GLOBAL_SCALE, 0.005 * GLOBAL_SCALE,
                          0.005 * GLOBAL_SCALE)%R
                 (set_vao (Some (m_vao model)) light))
        | None =>
            set_scale (0.3 * GLOBAL_SCALE, 0.6 * GLOBAL_SCALE,
                       0.3 * GLOBAL_SCALE)%R
              (set_vao (Some (m_vao (baseCube A))) light)
        end in
      let h2 := <[r := light']> h1 in
      let s2 := addObject h2 s1 r in
      let st := truthy_state light' in
      let lightSphere :=
        set_useVertexColor (Some false)
          (set_ambientColor (Some (sphere_ambientColor st))
             (set_shininess (Some 64%R)
                (set_specularColor (Some (1.0, 1.0, 1.0, 1.0)%R)
                   (set_diffuseColor (Some (sphere_diffuseColor st))
                      (set_scale (0.18 * GLOBAL_SCALE, 0.18 * GLOBAL_SCALE,
                                  0.18 * GLOBAL_SCALE)%R
                         (set_vao (Some (m_vao (baseCube A)))
                            (new_Object3D ("light_sphere_" +:+ id light)
                               (vx (position light'),
                                vy (position light') + 0.8,
                                vz (position light'))%R
                               zero3 one3 (sphere_color st)))))))) in
      let sphere_ref := length h2 in
      let h3 := h2 ++ [lightSphere] in
      let s3 := addObject h3 s2 sphere_ref in
      set_trafficLightSpheres
        (<[id light := sphere_ref]> (trafficLightSpheres w))
        (set_scene_objects s3 (set_heap h3 w))
  | None => w
  end.

Definition setupObjects_lights (A : Assets) (w : World) : World :=
  foldl (setup_light_step A) w (trafficLights w).

(** ** The asset cache: [libs/obj_loader.js]

    The text of a file is taken after [split('\n')], [split(/\s+/)] and
    [Number]: a line is its keyword with its numeric or name arguments.
    A colour line of a material carries three numbers. *)

Inductive mtl_line : Type :=
| MNewmtl (name : string)
| MNs (n : R)
| MKa (c : vec3)
| MKd (c : vec3)
| MKs (c : vec3)
| MOther.

Record Material : Type := mkMaterial {
  Ns : option R;
  Ka : option vec3;
  Kd : option vec3;
  Ks : option vec3
}.

Definition empty_material : Material :=
  {| Ns := None; Ka := None; Kd := None; Ks := None |}.

(** One line of [loadMtl].  [currentMtl] aliases [materials[name]] of the
    last [newmtl]; before the first one it is an object of its own, and
    what is stored in it is lost. *)
Definition mtl_step (st : gmap string Material * option string)
    (line : mtl_line) : gmap string Material * option string :=
  let '(materials, currentMtl) := st in
  let store (f : Material → Material) :=
    match currentMtl with
    | Some name => (alter f name materials, currentMtl)
    | None => st
    end in
  match line with
  | MNewmtl name => (<[name := empty_material]> materials, Some name)
  | MNs n =>
      store (λ m, {| Ns := Some n; Ka := Ka m; Kd := Kd m; Ks := Ks m |})
  | MKa c =>
      store (λ m, {| Ns := Ns m; Ka := Some c; Kd := Kd m; Ks := Ks m |})
  | MKd c =>
      store (λ m, {| Ns := Ns m; Ka := Ka m; Kd := Some c; Ks := Ks m |})
  | MKs c =>
      store (λ m, {| Ns := Ns m; Ka := Ka m; Kd := Kd m; Ks := Some c |})
  | MOther => st
  end.

(** [function loadMtl(mtlString, targetMaterials)] *)
Definition loadMtl (mtl : list mtl_line) (targetMaterials : gmap string Material)
  : gmap string Material :=
  fst (foldl mtl_step (targetMaterials, None) mtl).

(** One vertex of a face, [v/t/n]: an absent or empty part is [None]. *)
Record FaceVert : Type := mkFaceVert {
  fv : option nat;
  ft : option nat;
  fn : option nat
}.

Inductive obj_line : Type :=
| OV (coords : list R)
| OVn (coords : list R)
| OVt (coords : list R)
| OF (verts : list FaceVert)
| OUsemtl (name : string)
| OOther.

(** The [arrays] object: the [data] of the four attributes. *)
Record Arrays : Type := mkArrays {
  a_position : list R;
  a_color : list R;
  a_normal : list R;
  a_texCoord : list R
}.

Record ObjState : Type := mkObjState {
  vertices : list (list R);
  normals : list (list R);
  textures : list (list R);
  arrays : Arrays;
  activeMaterial : option Material
}.

(** The colour pushed for one face vertex. *)
Definition vertex_color (activeMaterial : option Material)
    (brightnessMultiplier : R) : list R :=
  match activeMaterial ≫= Kd with
  | Some kd =>
      [Rmin 1 (vx kd * brightnessMultiplier);
       Rmin 1 (vy kd * brightnessMultiplier);
       Rmin 1 (vz kd * brightnessMultiplier); 1%R]
  | None => [0.6; 0.6; 0.6; 1]%R
  end.

(** The spread [...table[index]], a [TypeError] when the entry is
    [undefined]; a part that is absent spreads nothing. *)
Definition spread (table : list (list R)) (index : option nat)
  : option (list R) :=
  match index with
  | Some i => table !! i
  | None => Some []
  end.

(** The body of [faceVerts.forEach(vert => ..)]; [None] is the
    [TypeError] of a spread of [undefined]. *)
Definition face_vert_step (brightnessMultiplier : R) (st : option ObjState)
    (vert : FaceVert) : option ObjState :=
  s ← st;
  match fv vert with
  | None => Some s
  | Some v =>
      p ← vertices s !! v;
      t ← spread (textures s) (ft vert);
      n ← spread (normals s) (fn vert);
      Some {| vertices := vertices s; normals := normals s;
              textures := textures s;
              arrays :=
                {| a_position := a_position (arrays s) ++ p;
                   a_color := a_color (arrays s) ++
                     vertex_color (activeMaterial s) brightnessMultiplier;
                   a_normal := a_normal (arrays s) ++ n;
                   a_texCoord := a_texCoord (arrays s) ++ t |};
              activeMaterial := activeMaterial s |}
  end.

(** The body of [lines.forEach(line => ..)] in [loadObjWithMtl]. *)
Definition obj_step (modelMaterials : gmap string Material)
    (brightnessMultiplier : R) (st : option ObjState) (line : obj_line)
  : option ObjState :=
  s ← st;
  match line with
  | OV c =>
      Some {| vertices := vertices s ++ [c]; normals := normals s;
              textures := textures s; arrays := arrays s;
              activeMaterial := activeMaterial s |}
  | OVn c =>
      Some {| vertices := vertices s; normals := normals s ++ [c];
              textures := textures s; arrays := arrays s;
              activeMaterial := activeMaterial s |}
  | OVt c =>
      Some {| vertices := vertices s; normals := normals s;
              textures := textures s ++ [c]; arrays := arrays s;
              activeMaterial := activeMaterial s |}
  | OF verts => foldl (face_vert_step brightnessMultiplier) (Some s) verts
  | OUsemtl name =>
      match modelMaterials !! name with
      | Some m =>
          Some {| vertices := vertices s; normals := normals s;
                  textures := textures s; arrays := arrays s;
                  activeMaterial := Some m |}
      | None => Some s
      end
  | OOther => Some s
  end.

Definition dummy : list R := [0; 0; 0]%R.

(** [function loadObjWithMtl(objString, mtlString, brightnessMultiplier)] *)
Definition loadObjWithMtl (obj : list obj_line) (mtl : option (list mtl_line))
    (brightnessMultiplier : R) : option Arrays :=
  let modelMaterials :=
    match mtl with
    | Some text => loadMtl text ∅
    | None => ∅
    end in
  arrays <$>
    foldl (obj_step modelMaterials brightnessMultiplier)
      (Some {| vertices := [dummy]; normals := [dummy]; textures := [dummy];
               arrays := {| a_position := []; a_color := [];
                            a_normal := []; a_texCoord := [] |};
               activeMaterial := None |})
      obj.

(** [const cachedModel = { arrays, bufferInfo, vao }] *)
Record CachedModel : Type := mkCachedModel {
  cm_arrays : Arrays;
  cm_bufferInfo : nat;
  cm_vao : nat
}.

#[global] Instance R_eq_dec : EqDecision R := Req_dec_T.

(** The state of the module: the objects built so far (a handle is the
    index of its object), [modelCache], the next free GPU name and the
    console.  The key [`${modelName}_${brightnessBoost}`] is the pair: the
    text of a number holds no underscore, and two numbers that differ print
    differently. *)
Record Loader : Type := mkLoader {
  models : list CachedModel;
  modelCache : list (string * R * nat);
  gpu : nat;
  loader_console : list log_entry
}.

Definition empty_loader : Loader :=
  {| models := []; modelCache := []; gpu := 0; loader_console := [] |}.

(** [modelCache.get(cacheKey)] *)
Fixpoint cache_get (cache : list (string * R * nat)) (modelName : string)
    (brightnessBoost : R) : option nat :=
  match cache with
  | [] => None
  | (name, b, handle) :: rest =>
      if bool_decide (name = modelName ∧ b = brightnessBoost)
      then Some handle else cache_get rest modelName brightnessBoost
  end.

Definition loader_log (l : log_entry) (L : Loader) : Loader :=
  {| models := models L; modelCache := modelCache L; gpu := gpu L;
     loader_console := loader_console L ++ [l] |}.

(** [async function preloadModel(gl, programInfo, basePath, modelName,
    brightnessBoost)], with the answers the two [fetch] calls get when
    they are made.  The result is the handle, [None] for [null]. *)
Definition preloadModel (modelName : string) (brightnessBoost : R)
    (objResponse : response (list obj_line))
    (mtlResponse : response (list mtl_line)) (L : Loader)
  : Loader * option nat :=
  match cache_get (modelCache L) modelName brightnessBoost with
  | Some handle => (L, Some handle)
  | None =>
      match objResponse with
      | Rejected =>
          (loader_log (LogError ("Error preloading " +:+ modelName)) L, None)
      | NotOk =>
          (loader_log (LogError ("Error loading " +:+ modelName +:+ ".obj")) L,
           None)
      | Ok objText =>
          let '(mtlText, L1) :=
            match mtlResponse with
            | Rejected =>
                (None,
                 loader_log (LogMessage ("No MTL file for " +:+ modelName)) L)
            | NotOk => (None, L)
            | Ok text => (Some text, L)
            end in
          match loadObjWithMtl objText mtlText brightnessBoost with
          | None =>
              (loader_log (LogError ("Error preloading " +:+ modelName)) L1,
               None)
          | Some arrays =>
              let cachedModel :=
                {| cm_arrays := arrays; cm_bufferInfo := gpu L1;
                   cm_vao := S (gpu L1) |} in
              let handle := length (models L1) in
              ({| models := models L1 ++ [cachedModel];
                  modelCache :=
                    modelCache L1 ++ [(modelName, brightnessBoost, handle)];
                  gpu := S (S (gpu L1));
                  loader_console :=
                    loader_console L1 ++
                    [LogMessage ("Model preloaded: " +:+ modelName)] |},
               Some handle)
          end
      end
  end.

(** [function getCachedModel(modelName, brightnessBoost)] *)
Definition getCachedModel (modelName : string) (brightnessBoost : R)
    (L : Loader) : option nat :=
  cache_get (modelCache L) modelName brightnessBoost.

(** ** Vocabulary of the properties

    Predicates on states, and the states and inputs the examples run on. *)

(** The position [interpolateCars] writes into [renderPos]. *)
Definition render_target `{!Rounding} (fract : R) (car : Object3D)
    (oldPos : vec3) : vec3 :=
  (lerp (vx oldPos) (vx (position car)) fract,
   fl (vy (position car) + fl CAR_Y_OFFSET),
   fl (lerp (vz oldPos) (vz (position car)) fract + fl CAR_Z_OFFSET))%R.

(** The car [c1] as the server reports it at [(x, 0, z)]. *)
Definition car_at (x z : R) (dir : option string) : CarJson :=
  {| car_id := "c1"; car_x := x; car_y := 0; car_z := z;
     car_direction := dir; car_futureX := x; car_futureZ := z |}.

(** The car seen at the origin, then one unit further along [x]. *)
Definition moved_world : World :=
  run (getCars (Ok [car_at 1 0 None]))
    (run (getCars (Ok [car_at 0 0 (Some "Up")])) empty_world).

(** The car of the first snapshot after a move of one unit along [x]. *)
Definition moved_car : Object3D :=
  refresh_car (car_at 1 0 (Some "Up")) (fresh_car (car_at 0 0 (Some "Up"))).

(** The same car, reported again at the place it has reached, heading
    [Up], with the target yaw its move gave it. *)
Definition stopped_car : Object3D :=
  refresh_car (car_at 1 0 (Some "Up"))
    (set_targetRotY (Some (PI / 2)%R) moved_car).

(** What the [catch] block of every function of the client does. *)
Definition logged_failure (w : World) : World :=
  set_console (console w ++ [LogError "TypeError: Failed to fetch"]) w.

(** Two objects that differ at most in [state] and [color]. *)
Definition same_but_signal (o o' : Object3D) : Prop :=
  ∃ st c, o' = set_color c (set_state st o).

(** The light [i] as the server reports it, at the origin. *)
Definition light_at (i : string) (st : bool) : LightJson :=
  {| light_id := i; light_x := 0; light_y := 0; light_z := 0;
     light_state := st |}.


(** The three colours [updateTrafficLightSpheres] gives a signal cube. *)
Definition painted (st : bool) (sphere : Object3D) : Prop :=
  color sphere = sphere_color st ∧
  diffuseColor sphere = Some (sphere_diffuseColor st) ∧
  ambientColor sphere = Some (sphere_ambientColor st).

(** The light behind [r] is registered with the signal cube [s]. *)
Definition paints (w : World) (r s : nat) : Prop :=
  ∃ light, heap w !! r = Some light ∧
           trafficLightSpheres w !! id light = Some s.




(** No model could be loaded: the scene runs on the cube. *)
Definition cube_only : Assets :=
  {| carModels := []; trafficLightModel := None;
     baseCube := {| m_name := "cube"; m_arrays := 0; m_bufferInfo := 0;
                    m_vao := 0 |} |}.

(** Two lights tracked and set up in the scene, each with its cube. *)
Definition signal_world : World :=
  setupObjects_lights cube_only
    (run (getTrafficLights (Ok [light_at "l1" true; light_at "l2" false]))
       empty_world).

(** The test of the retiring loop: the identity behind [r] is reported. *)
Definition on_server (serverCarIds : list string) (h : list Object3D)
    (r : nat) : bool :=
  match obj_id h r with
  | Some i => bool_decide (i ∈ serverCarIds)
  | None => false
  end.

(** Tracked references point into the store and carry distinct
    identities. *)
Definition cars_wf (w : World) : Prop :=
  (∀ r, r ∈ cars w → r < length (heap w)) ∧
  NoDup (omap (obj_id (heap w)) (cars w)).

(** The entry of a snapshot that is the last one of its identity. *)
Definition last_car_report (positions : list CarJson) (car : CarJson)
  : Prop :=
  ∃ before after,
    positions = before ++ car :: after ∧
    car_id car ∉ car_id <$> after.

(** The state between the two loops of [getCars]. *)
Definition after_retire (positions : list CarJson) (w : World) : World :=
  set_console
    (snd (retire_loop (car_id <$> positions) (heap w) (length (cars w))
            (cars w) (console w)))
    (set_cars
       (filter (λ r, on_server (car_id <$> positions) (heap w) r = true)
          (cars w)) w).

(** Some tracked car carries the identity [i]. *)
Definition tracked (w : World) (i : string) : Prop :=
  ∃ r, r ∈ cars w ∧ obj_id (heap w) r = Some i.

(** After [getCars]: every tracked car is reported, every reported
    identity is tracked. *)
Definition in_step (positions : list CarJson) (w : World) : Prop :=
  (∀ r, r ∈ cars w → on_server (car_id <$> positions) (heap w) r = true) ∧
  (∀ car, car ∈ positions → tracked w (car_id car)).

(** Two states with the same collections, the same scene and, object by
    object, the same identity and mesh. *)
Definition same_shape (w w' : World) : Prop :=
  cars w' = cars w ∧
  scene_objects w' = scene_objects w ∧
  console w' = console w ∧
  draws w' = draws w ∧
  length (heap w') = length (heap w) ∧
  ∀ r o, heap w !! r = Some o →
         ∃ o', heap w' !! r = Some o' ∧ id o' = id o ∧ vao o' = vao o.

(** After [updateCars]: a car of the scene (an object with a truthy
    identity and the mesh of a car model) carries a tracked identity, and
    when a car model is loaded every tracked car has a mesh. *)
Definition settled (A : Assets) (w : World) : Prop :=
  (∀ r, r ∈ scene_objects w → is_car_in_scene A (heap w) r = true →
        ∃ i, obj_id (heap w) r = Some i ∧ tracked w i) ∧
  (0 < length (carModels A) →
   ∀ r o, r ∈ cars w → heap w !! r = Some o → vao o ≠ None).

(** The collections that are loaded once. *)
Definition statics (w : World) : list nat * list nat * list nat :=
  (obstacles w, roads w, destinations w).

(** The first frame without car model: the car of the first snapshot,
    set up by [setupObjects]. *)
Definition first_draw (rnd : nat → nat) : World :=
  setupObjects_cars rnd cube_only
    (run (getCars (Ok [car_at 0 0 (Some "Up")])) empty_world).

(** One car model loaded. *)
Definition one_model : Assets :=
  {| carModels := [{| m_name := "redCarBlendobj"; m_arrays := 1;
                      m_bufferInfo := 1; m_vao := 1 |}];
     trafficLightModel := None;
     baseCube := {| m_name := "cube"; m_arrays := 0; m_bufferInfo := 0;
                    m_vao := 0 |} |}.

(** Handles of the cache point at built objects, and two keys never share
    a handle. *)
Definition loader_wf (L : Loader) : Prop :=
  (∀ name b h, cache_get (modelCache L) name b = Some h →
               h < length (models L)) ∧
  (∀ name1 b1 name2 b2 h,
     cache_get (modelCache L) name1 b1 = Some h →
     cache_get (modelCache L) name2 b2 = Some h →
     name1 = name2 ∧ b1 = b2).

(** The text of the companion material file, when the server has it. *)
Definition mtl_text (mtlResponse : response (list mtl_line))
  : option (list mtl_line) :=
  match mtlResponse with
  | Ok text => Some text
  | _ => None
  end.

(** A mesh of one triangle corner, without material file. *)
Definition plain_obj : list obj_line :=
  [OV [1; 2; 3]%R; OF [{| fv := Some 1; ft := None; fn := None |}]].

(** The same mesh with a white material. *)
Definition white_obj : list obj_line :=
  [OV [1; 2; 3]%R; OUsemtl "white";
   OF [{| fv := Some 1; ft := None; fn := None |}]].

Definition white_mtl : list mtl_line :=
  [MNewmtl "white"; MKd (1, 1, 1)%R].

(** The module after one request, and after a second one with another
    brightness. *)
Definition loaded_once : Loader :=
  fst (preloadModel "car" 1 (Ok plain_obj) NotOk empty_loader).

Definition loaded_twice : Loader :=
  fst (preloadModel "car" 1.5 (Ok plain_obj) NotOk loaded_once).

(** ** The frame loop of the city scene *)

(** The module variables [elapsed] and [then] of the city scene. *)
Record Clock : Type := mkClock {
  elapsed : R;
  then_ : R
}.

Definition initial_clock : Clock := {| elapsed := 0; then_ := 0 |}.

(** What the server answers to the three requests of one poll. *)
Record Answers : Type := mkAnswers {
  update_answer : response unit;
  cars_answer : response (list CarJson);
  lights_answer : response (list LightJson)
}.

(** [elapsed += deltaTime] with [deltaTime = now - then].  [Date.now()]
    counts whole milliseconds. *)
Definition frame_elapsed `{!Rounding} (now : R) (c : Clock) : R :=
  fl (elapsed c + fl (now - then_ c))%R.

(** The fraction a frame hands to [interpolateCars]:
    [Math.min(1.0, elapsed / duration)]. *)
Definition frame_fract `{!Rounding} (now : R) (c : Clock) : R :=
  fract_of (frame_elapsed now c).

(** [async function drawScene()] at the time [now = Date.now()].  The
    calls that only talk to the GPU ([gl.clear], [drawObject], the
    camera) leave the collections alone and are not part of the state;
    [window.updateMetricsUI] belongs to the panel. *)
Definition drawScene `{!Rounding} (rnd : nat → nat) (A : Assets) (now : R)
    (answers : Answers) (cw : Clock * World) : Clock * World :=
  let deltaTime := fl (now - then_ (fst cw))%R in
  let elapsed1 := fl (elapsed (fst cw) + deltaTime)%R in
  let fract := fract_of elapsed1 in
  let w1 := interpolateCars fract (snd cw) in
  if Rge_dec elapsed1 duration then
    ({| elapsed := 0; then_ := now |},
     updateTrafficLightSpheres
       (updateCars rnd A
          (run (update (update_answer answers) (cars_answer answers)
                  (lights_answer answers)) w1)))
  else ({| elapsed := elapsed1; then_ := now |}, w1).

(** ** Destinations of the city scene *)

(** One turn of [for (const road of roads)] in the loop over the
    destinations of [setupObjects]: [minDist] (absent for [Infinity]) and
    [closestRoad]. *)
Definition closest_road_step (originalX originalZ : R)
    (acc : option (R * (R * R))) (road : Object3D) : option (R * (R * R)) :=
  let dx := (vx (position road) - originalX)%R in
  let dz := (vz (position road) - originalZ)%R in
  let dist := (Rabs dx + Rabs dz)%R in
  if Rlt_dec dist 1.5 then
    match acc with
    | None => Some (dist, (dx, dz))
    | Some (minDist, _) =>
        if Rlt_dec dist minDist then Some (dist, (dx, dz)) else acc
    end
  else acc.

Definition closest_road (originalX originalZ : R) (roads : list Object3D)
  : option (R * (R * R)) :=
  foldl (closest_road_step originalX originalZ) None roads.

(** The yaw that turns a destination towards its closest road. *)
Definition destination_rotation (closestRoad : option (R * (R * R))) : R :=
  match closestRoad with
  | Some (_, (dx, dz)) =>
      if Rgt_dec (Rabs dx) (Rabs dz)
      then (if Rgt_dec dx 0 then - (PI / 2) else PI / 2)%R
      else (if Rgt_dec dz 0 then PI else 0%R)
  | None => 0%R
  end.

(** One turn of [for (const dest of destinations)] in [setupObjects]. *)
Definition setup_destination_step (destinationModel : option Model)
    (A : Assets) (w : World) (r : nat) : World :=
  match heap w !! r with
  | Some dest =>
      let dest' :=
        match destinationModel with
        | Some model =>
            let roadObjects := omap (λ road, heap w !! road) (roads w) in
            let closest :=
              closest_road (vx (position dest)) (vz (position dest))
                roadObjects in
            set_rotRad (0, destination_rotation closest, 0)%R
              (set_position
                 (vx (position dest), vy (position dest) + 0.3,
                  vz (position dest))%R
                 (set_scale (0.002 * GLOBAL_SCALE, 0.002 * GLOBAL_SCALE,
                             0.002 * GLOBAL_SCALE)%R
                    (set_vao (Some (m_vao model)) dest)))
        | None =>
            set_scale (0.5 * GLOBAL_SCALE, 0.3 * GLOBAL_SCALE,
                       0.5 * GLOBAL_SCALE)%R
              (set_vao (Some (m_vao (baseCube A))) dest)
        end in
      let h := <[r := dest']> (heap w) in
      set_scene_objects (addObject h (scene_objects w) r) (set_heap h w)
  | None => w
  end.

Definition setupObjects_destinations (destinationModel : option Model)
    (A : Assets) (w : World) : World :=
  foldl (setup_destination_step destinationModel A) w (destinations w).


(** The line the retiring loop of [getCars] writes for the car behind
    [r], when it writes one. *)
Definition retire_line (serverCarIds : list string) (h : list Object3D)
    (r : nat) : option log_entry :=
  match obj_id h r with
  | Some ident =>
      if bool_decide (ident ∈ serverCarIds) then None
      else Some (LogMessage
                   ("Car " +:+ ident +:+
                    " reached destination - removing from array"))
  | None => None
  end.

(** The entry of a snapshot that is the only one of its identity. *)
Definition sole_report (positions : list CarJson) (car : CarJson) : Prop :=
  ∃ before after,
    positions = before ++ car :: after ∧
    (car_id car ∉ car_id <$> before) ∧
    (car_id car ∉ car_id <$> after).

(** Every tracked reference points into the store. *)
Definition valid_refs (w : World) : Prop :=
  ∀ r, r ∈ cars w → r < length (heap w).

(** A cell of the map as the server reports it. *)
Definition cell_at (i : string) (x z : R) : CellJson :=
  {| cell_id := i; cell_x := x; cell_y := 0; cell_z := z;
     cell_direction := None |}.

(** What the polling functions never write: the static collections, the
    scene, the register of signal cubes and the count of random draws. *)
Definition scene_side (w : World)
  : list nat * list nat * list nat * list nat * gmap string nat * nat :=
  (obstacles w, roads w, destinations w, scene_objects w,
   trafficLightSpheres w, draws w).

(** Two lights of one identity in the first answer of the server. *)
Definition twin_lights : World :=
  run (getTrafficLights (Ok [light_at "l1" true; light_at "l1" true]))
    empty_world.

(** What one turn of [interpolateCars] makes of the car it visits. *)
Definition animate `{!Rounding} (fract : R) (car : Object3D) : Object3D :=
  match oldPosArray car with
  | None => car
  | Some oldPos =>
      let car1 := set_renderPos (Some (render_target fract car oldPos)) car in
      match targetRotY car1 with
      | Some target =>
          let rot :=
            lerpAngle (default 0%R (currentRotY car1)) target
              (Rmin (fract * 2) 1) in
          set_rotRad (vx (rotRad car1), rot, vz (rotRad car1))
            (set_currentRotY (Some rot) car1)
      | None => car1
      end
  end.

(** Two objects that differ at most in the fields of the animation:
    [renderPos], [currentRotY] and the yaw [rotRad.y]. *)
Definition same_but_pose (o o' : Object3D) : Prop :=
  ∃ rp cr yaw,
    o' = set_rotRad (vx (rotRad o), yaw, vz (rotRad o))
           (set_currentRotY cr (set_renderPos rp o)).

(** Two objects with the same position samples and render position. *)
Definition same_motion (o o' : Object3D) : Prop :=
  id o' = id o ∧ position o' = position o ∧
  oldPosArray o' = oldPosArray o ∧ renderPos o' = renderPos o.

(** Every cell of [w] is still there in [w'], up to [rel]. *)
Definition cells_upto (rel : Object3D → Object3D → Prop) (w w' : World)
  : Prop :=
  ∀ r o, heap w !! r = Some o → ∃ o', heap w' !! r = Some o' ∧ rel o o'.

(** A poll in which every request is answered. *)
Definition answered (positions : list CarJson)
    (lights : response (list LightJson)) : Answers :=
  {| update_answer := Ok tt; cars_answer := Ok positions;
     lights_answer := lights |}.

(** The distance [Math.abs(dx) + Math.abs(dz)] from [(x, z)] to a road. *)
Definition road_distance (x z : R) (road : Object3D) : R :=
  (Rabs (vx (position road) - x) + Rabs (vz (position road) - z))%R.

(** What the search for the closest road has found among [seen]. *)
Definition closest_among (x z : R) (seen : list Object3D)
    (acc : option (R * (R * R))) : Prop :=
  match acc with
  | Some (d, (dx, dz)) =>
      (d < 1.5)%R ∧
      (∃ road, road ∈ seen ∧ d = road_distance x z road ∧
               dx = (vx (position road) - x)%R ∧
               dz = (vz (position road) - z)%R) ∧
      (∀ road, road ∈ seen → (d <= road_distance x z road)%R)
  | None => ∀ road, road ∈ seen → (1.5 <= road_distance x z road)%R
  end.

(** A road tile at [(x, 0, z)]. *)
Definition road_at (x z : R) : Object3D :=
  new_Object3D "road" (x, 0, z)%R zero3 one3 (0.6, 0.6, 0.6, 1)%R.

(** ** Blocks of obstacles: [groupContiguousObstacles] *)

(** [Math.round(x)]: the integer part of [x + 1/2]. *)
Definition js_round (x : R) : Z := (up (x + 1 / 2) - 1)%Z.

(** The key [`${Math.round(x)},${Math.round(z)}`] of a cell of the grid.
    The text of two integers with a comma between them determines both,
    so the key is the pair. *)
Definition cell : Type := Z * Z.

Definition obstacle_key (obs : Object3D) : cell :=
  (js_round (vx (position obs)), js_round (vz (position obs))).

(** [for (const obs of obstacles) posMap.set(key, obs)] *)
Definition build_posMap (obstacles : list Object3D) : gmap cell Object3D :=
  foldl (λ posMap obs, <[obstacle_key obs := obs]> posMap) ∅ obstacles.

Definition directions : list (Z * Z) := [(1, 0); (-1, 0); (0, 1); (0, -1)]%Z.

Definition shift (k : cell) (d : Z * Z) : cell :=
  (fst k + fst d, snd k + snd d)%Z.

(** [function getNeighbors(obs)], with the [visited] of the moment of the
    call. *)
Definition getNeighbors (posMap : gmap cell Object3D) (visited : gset cell)
    (obs : Object3D) : list Object3D :=
  omap (λ d, let key := shift (obstacle_key obs) d in
             if bool_decide (key ∈ visited) then None else posMap !! key)
    directions.

(** [while (stack.length > 0) { .. }].  The list holds the stack with its
    top first: [stack.pop()] takes the head, [stack.push(...neighbors)]
    puts the neighbours before it, the last one on top.  [fuel] bounds
    the number of turns; [None] stands for a loop that is cut short. *)
Fixpoint flood (fuel : nat) (posMap : gmap cell Object3D)
    (visited : gset cell) (group stack : list Object3D)
  : option (gset cell * list Object3D) :=
  match stack with
  | [] => Some (visited, group)
  | current :: rest =>
      match fuel with
      | O => None
      | S fuel' =>
          let currentKey := obstacle_key current in
          if bool_decide (currentKey ∈ visited)
          then flood fuel' posMap visited group rest
          else
            let visited' := {[currentKey]} ∪ visited in
            flood fuel' posMap visited' (group ++ [current])
              (reverse (getNeighbors posMap visited' current) ++ rest)
      end
  end.

(** One turn of the outer loop [for (const obs of obstacles)]. *)
Definition group_step (posMap : gmap cell Object3D) (fuel : nat)
    (acc : option (gset cell * list (list Object3D))) (obs : Object3D)
  : option (gset cell * list (list Object3D)) :=
  match acc with
  | Some (visited, groups) =>
      if bool_decide (obstacle_key obs ∈ visited) then acc
      else
        match flood fuel posMap visited [] [obs] with
        | Some (visited', group) =>
            Some (visited',
                  if bool_decide (0 < length group) then groups ++ [group]
                  else groups)
        | None => None
        end
  | None => None
  end.

(** [function groupContiguousObstacles(obstacles)].  Each obstacle is
    pushed at most once as a seed and at most four times as a neighbour
    of a cell that is visited: [4 * n + 1] turns are enough for any one
    run of the inner loop. *)
Definition groupContiguousObstacles (obstacles : list Object3D)
  : option (list (list Object3D)) :=
  snd <$> foldl (group_step (build_posMap obstacles)
                   (4 * length obstacles + 1))
            (Some (∅, [])) obstacles.

(** Two cells that share a side. *)
Definition adjacent (k k' : cell) : Prop :=
  ∃ d, d ∈ directions ∧ k' = shift k d.

(** The cells of a list of obstacles. *)
Definition cells_of (group : list Object3D) : list cell :=
  obstacle_key <$> group.

(** An obstacle at [(x, 0, z)]. *)
Definition obstacle_at (i : string) (x z : R) : Object3D :=
  new_Object3D i (x, 0, z)%R zero3 one3 (0.3, 0.3, 0.3, 1)%R.

(** Every neighbour, in the map, of a visited cell is visited or waits on
    the stack. *)
Definition closed_upto (posMap : gmap cell Object3D) (visited : gset cell)
    (stack : list Object3D) : Prop :=
  ∀ k k', k ∈ visited → adjacent k k' → k' ∈ dom posMap →
          k' ∈ visited ∨ k' ∈ cells_of stack.

(** A walk from one cell to another, side by side, inside [cells]. *)
Inductive connected_in (cells : list cell) : cell → cell → Prop :=
| connected_here k : k ∈ cells → connected_in cells k k
| connected_step k k' k'' :
    connected_in cells k k' → adjacent k' k'' → k'' ∈ cells →
    connected_in cells k k''.

(** What the outer loop has built when the obstacles [seen] are done. *)
Definition grouped (posMap : gmap cell Object3D)
    (obstacles seen : list Object3D) (visited : gset cell)
    (groups : list (list Object3D)) : Prop :=
  (∀ k, k ∈ visited ↔ k ∈ cells_of (concat groups)) ∧
  NoDup (cells_of (concat groups)) ∧
  closed_upto posMap visited [] ∧
  (∀ obs, obs ∈ seen → obstacle_key obs ∈ visited) ∧
  (∀ g, g ∈ groups → g ≠ []) ∧
  (∀ g o, g ∈ groups → o ∈ g → o ∈ obstacles) ∧
  (∀ g k k', g ∈ groups → k ∈ cells_of g → adjacent k k' →
             k' ∈ dom posMap → k' ∈ cells_of g) ∧
  (∀ g, g ∈ groups →
        ∃ seed, seed ∈ g ∧
                ∀ o, o ∈ g →
                     connected_in (cells_of g) (obstacle_key seed)
                       (obstacle_key o)).

(** ** More of the asset loader *)

(** The face corners of a file that name a vertex, in the order of the
    file: each one adds a vertex to the streams. *)
Definition face_corners (obj : list obj_line) : list FaceVert :=
  flat_map (λ line, match line with
                    | OF verts => filter (λ v, fv v ≠ None) verts
                    | _ => []
                    end) obj.

(** The [v] lines of a file. *)
Definition declared_vertices (obj : list obj_line) : list (list R) :=
  flat_map (λ line, match line with OV c => [c] | _ => [] end) obj.

(** What the streams hold after [k] corners.  Under [three] (every [v]
    line has three coordinates) the positions come three to a corner. *)
Definition streams_ok (three : Prop) (s : ObjState) (k : nat) : Prop :=
  length (a_color (arrays s)) = 4 * k ∧
  (∀ c, c ∈ a_color (arrays s) → (c <= 1)%R) ∧
  (three → (∀ c, c ∈ vertices s → length c = 3) ∧
           length (a_position (arrays s)) = 3 * k).

(** The material a name stands for while [loadMtl] runs does not depend
    on the other names. *)
Definition mtl_entry (st : gmap string Material * option string)
    (name : string) : option Material := fst st !! name.

(** A face whose only corner names the vertex [i]. *)
Definition corner (i : nat) : obj_line :=
  OF [{| fv := Some i; ft := None; fn := None |}].

(** ** The second scene: lights and interpolation

    The other visualisation script of the repository: it interpolates in
    [drawObject] and hands the sun and the traffic lights to the
    shader. *)
Module Scene2.

(** [lightingConfig.sun] and [lightingConfig.trafficLightIntensity] *)
Definition sun_position : list R := [15; 30; 15]%R.
Definition sun_color : list R := [1.0; 1.0; 0.9; 1.0]%R.
Definition sun_intensity : R := 1.1%R.
Definition trafficLightIntensity : R := 0.05%R.

Record Lights : Type := mkLights {
  count : nat;
  positions : list R;
  colors : list R;
  intensities : list R
}.

(** The three pushes of one turn of [for (const light of trafficLights)]
    in [buildLightsArray], on [positions], [colors] and [intensities]. *)
Definition push_light (acc : list R * list R * list R) (light : Object3D)
  : list R * list R * list R :=
  let '(positions, colors, intensities) := acc in
  (positions ++ [vx (position light); vy (position light) + 0.5;
                 vz (position light)]%R,
   colors ++ (if truthy_state light then [0.0; 1.0; 0.0; 1.0]%R
              else [1.0; 0.0; 0.0; 1.0]%R),
   intensities ++ [trafficLightIntensity]).

(** [function buildLightsArray()] on the [trafficLights] of the
    moment. *)
Definition buildLightsArray (trafficLights : list Object3D) : Lights :=
  let '(positions, colors, intensities) :=
    foldl push_light (sun_position, sun_color, [sun_intensity])
      trafficLights in
  {| count := 1 + length trafficLights; positions := positions;
     colors := colors; intensities := intensities |}.

(** [function getInterpolatedPosition(object, fract)] *)
Definition getInterpolatedPosition `{!Rounding} (object : Object3D)
    (fract : R) : vec3 :=
  match oldPosArray object with
  | Some old =>
      (lerp (vx old) (vx (position object)) fract,
       lerp (vy old) (vy (position object)) fract,
       lerp (vz old) (vz (position object)) fract)
  | None => position object
  end.

End Scene2.

(** Two objects that differ at most in the target yaw. *)
Definition same_but_target (o o' : Object3D) : Prop :=
  ∃ t, o' = set_targetRotY t o.

(** The mesh [setupObjects] gives a car: that of a loaded car model, or
    that of the cube when none is loaded. *)
Definition first_mesh (A : Assets) (car : Object3D) : Prop :=
  (0 < length (carModels A) →
   ∃ m, m ∈ carModels A ∧ vao car = Some (m_vao m)) ∧
  (carModels A = [] → vao car = Some (m_vao (baseCube A))).

(** Some object of the scene carries the identity [i]. *)
Definition in_scene (w : World) (i : string) : Prop :=
  ∃ r, r ∈ scene_objects w ∧ obj_id (heap w) r = Some i.

(** ** Preloading the models of the city scene *)

Definition CAR_MODELS : list string := ["redCarBlendobj"; "ClassicCarBlend"].
Definition BUILDING_MODELS : list string := ["Building1"; "PuestoJochos"].
Definition TRAFFIC_LIGHT_MODEL : string := "Semaforo".
Definition DESTINATION_MODEL : string := "EstacionamientoObjetivo".
Definition TREE_MODEL : string := "ArbolBlend".

(** What the file server answers for the [.obj] and for the [.mtl] of a
    model. *)
Definition FileServer : Type :=
  string → response (list obj_line) * response (list mtl_line).

(** The module variables [preloadAllModels] assigns. *)
Record ModelStore : Type := mkModelStore {
  store_carModels : list Model;
  store_trafficLightModel : option Model;
  store_destinationModel : option Model;
  store_treeModel : option Model;
  store_buildingModels : list Model
}.

(** [{ name: carName, ...model }] for the object behind a handle. *)
Definition named_model (L : Loader) (name : string) (handle : nat)
  : option Model :=
  cm ← models L !! handle;
  Some {| m_name := name; m_arrays := handle;
          m_bufferInfo := cm_bufferInfo cm; m_vao := cm_vao cm |}.

(** [await preloadModel(gl, programInfo, MODELS_PATH, name, b)] *)
Definition preload (files : FileServer) (b : R) (name : string) (L : Loader)
  : Loader * option Model :=
  let '(L', handle) :=
    preloadModel name b (fst (files name)) (snd (files name)) L in
  (L', handle ≫= named_model L' name).

(** One turn of [for (const carName of CAR_MODELS)], and of the loop
    over [BUILDING_MODELS]. *)
Definition preload_into (files : FileServer) (b : R)
    (acc : Loader * list Model) (name : string) : Loader * list Model :=
  let '(L', model) := preload files b name (fst acc) in
  (L', match model with
       | Some m => snd acc ++ [m]
       | None => snd acc
       end).

(** [async function preloadAllModels(gl, programInfo)] *)
Definition preloadAllModels (files : FileServer) (L : Loader)
  : Loader * ModelStore :=
  let '(L1, cars) := foldl (preload_into files 1.5) (L, []) CAR_MODELS in
  let '(L2, light) := preload files 1.0 TRAFFIC_LIGHT_MODEL L1 in
  let '(L3, dest) := preload files 1.0 DESTINATION_MODEL L2 in
  let '(L4, tree) := preload files 1.0 TREE_MODEL L3 in
  let '(L5, buildings) :=
    foldl (preload_into files 1.0) (L4, []) BUILDING_MODELS in
  (L5, {| store_carModels := cars; store_trafficLightModel := light;
          store_destinationModel := dest; store_treeModel := tree;
          store_buildingModels := buildings |}).

(** The files of a model are served and its mesh loads. *)
Definition loads (files : FileServer) (b : R) (name : string) : bool :=
  match fst (files name) with
  | Ok obj =>
      bool_decide
        (is_Some (loadObjWithMtl obj (mtl_text (snd (files name))) b))
  | _ => false
  end.

(** The names under which the cache holds a model. *)
Definition cached_names (L : Loader) : list string :=
  (λ e, fst (fst e)) <$> modelCache L.

(** A server that has no file at all. *)
Definition no_files : FileServer := λ _, (NotOk, NotOk).
(** ** Signals *)

(** The tracked lights point into the store and carry distinct
    identities; a registered signal cube is an object of the store that
    is not a tracked light, and no two identities share a cube. *)
Definition signals_wf (w : World) : Prop :=
  (∀ r, r ∈ trafficLights w → r < length (heap w)) ∧
  NoDup (omap (obj_id (heap w)) (trafficLights w)) ∧
  (∀ i s, trafficLightSpheres w !! i = Some s →
          s < length (heap w) ∧ s ∉ trafficLights w) ∧
  (∀ i j s, trafficLightSpheres w !! i = Some s →
            trafficLightSpheres w !! j = Some s → i = j).


(** The three colours of a signal cube for a state, as [setupObjects] and
    [updateTrafficLightSpheres] write them. *)
Definition shows (st : bool) (cube : Object3D) : Prop :=
  color cube
  = (if st then (0.2, 1.0, 0.2, 1.0) else (1.0, 0.2, 0.1, 1.0))%R ∧
  diffuseColor cube
  = Some (if st then (0.3, 1.2, 0.3, 1.0) else (1.2, 0.3, 0.15, 1.0))%R ∧
  ambientColor cube
  = Some (if st then (0.1, 0.5, 0.1, 1.0) else (0.5, 0.1, 0.05, 1.0))%R.

(** The light behind [r] has a registered cube, and the cube shows the
    state of the light. *)
Definition signal_shown (w : World) (r : nat) : Prop :=
  ∃ light s cube,
    heap w !! r = Some light ∧
    trafficLightSpheres w !! id light = Some s ∧
    heap w !! s = Some cube ∧
    shows (truthy_state light) cube.



(** What every step of the program other than the setting up of the
    lights does to the signals: the tracked lights and the register are
    kept, the store does not shrink, and an object of the store keeps
    its identity. *)
Definition lights_kept (w w' : World) : Prop :=
  trafficLights w' = trafficLights w ∧
  trafficLightSpheres w' = trafficLightSpheres w ∧
  length (heap w) ≤ length (heap w') ∧
  ∀ r, r < length (heap w) → obj_id (heap w') r = obj_id (heap w) r.

(** ** Requests to the asset cache *)

(** One call of [preloadModel]: the name, the brightness, and what the
    server would answer to the two [fetch] calls if they were made. *)
Record Request : Type := mkRequest {
  rq_name : string;
  rq_brightness : R;
  rq_obj : response (list obj_line);
  rq_mtl : response (list mtl_line)
}.

(** The module after the call. *)
Definition serve (L : Loader) (q : Request) : Loader :=
  fst (preloadModel (rq_name q) (rq_brightness q) (rq_obj q) (rq_mtl q) L).

(** [modelMaterials] in [loadObjWithMtl]: the materials of the companion
    file, none without it. *)
Definition model_materials (mtl : option (list mtl_line))
  : gmap string Material :=
  match mtl with
  | Some text => loadMtl text ∅
  | None => ∅
  end.

(** The material that is active at each face vertex of a mesh, in the
    order of the text: a [usemtl] line of a known name changes it, a
    face vertex without vertex index does not count. *)
Fixpoint face_materials (modelMaterials : gmap string Material)
    (active : option Material) (obj : list obj_line)
  : list (option Material) :=
  match obj with
  | [] => []
  | OF verts :: rest =>
      ((λ _, active) <$> omap fv verts)
      ++ face_materials modelMaterials active rest
  | OUsemtl name :: rest =>
      face_materials modelMaterials
        (match modelMaterials !! name with
         | Some m => Some m
         | None => active
         end) rest
  | _ :: rest => face_materials modelMaterials active rest
  end.

(** * Properties *)

(** ** Angle interpolation *)

Section AngleFacts.
Local Open Scope R_scope.

Lemma wrap_down_stop (d : R) : d <= PI → wrap_down d = d.
Proof.
  intros Hd. rewrite wrap_down_equation_1.
  destruct (Rgt_dec d PI) as [Hgt | Hle]; simpl; [lra | reflexivity].
Qed.

Lemma wrap_down_turn (d : R) : d > PI → wrap_down d = wrap_down (d - 2 * PI).
Proof.
  intros Hd. rewrite wrap_down_equation_1.
  destruct (Rgt_dec d PI) as [Hgt | Hle]; simpl; [reflexivity | lra].
Qed.

Lemma wrap_up_stop (d : R) : - PI <= d → wrap_up d = d.
Proof.
  intros Hd. rewrite wrap_up_equation_1.
  destruct (Rlt_dec d (- PI)) as [Hlt | Hge]; simpl; [lra | reflexivity].
Qed.

Lemma wrap_up_turn (d : R) : d < - PI → wrap_up d = wrap_up (d + 2 * PI).
Proof.
  intros Hd. rewrite wrap_up_equation_1.
  destruct (Rlt_dec d (- PI)) as [Hlt | Hge]; simpl; [reflexivity | lra].
Qed.

(** What the first loop leaves: at most [π], the input itself or a value
    above [-π], and a whole number of turns away from the input. *)
Lemma wrap_down_spec (d : R) :
  wrap_down d <= PI ∧
  (wrap_down d = d ∨ - PI < wrap_down d) ∧
  ∃ k : Z, wrap_down d = d + 2 * IZR k * PI.
Proof.
  funelim (wrap_down d).
  - destruct H as (Hle & Hcase & k & Hk).
    split; [exact Hle |]. split.
    + right. destruct Hcase as [Hsame | Hgt]; [rewrite Hsame |]; lra.
    + exists (k - 1)%Z. rewrite Hk, minus_IZR. lra.
  - split; [lra |]. split; [by left |].
    exists 0%Z. lra.
Qed.

Lemma wrap_up_spec (d : R) :
  - PI <= wrap_up d ∧
  (d <= PI → wrap_up d <= PI) ∧
  ∃ k : Z, wrap_up d = d + 2 * IZR k * PI.
Proof.
  funelim (wrap_up d).
  - destruct H as (Hge & Hle & k & Hk).
    split; [exact Hge |]. split.
    + intros _. apply Hle. pose proof PI_RGT_0. lra.
    + exists (k + 1)%Z. rewrite Hk, plus_IZR. lra.
  - split; [lra |]. split; [done |].
    exists 0%Z. lra.
Qed.

Lemma normalize_delta_range (d : R) :
  - PI <= normalize_delta d <= PI ∧
  ∃ k : Z, normalize_delta d = d + 2 * IZR k * PI.
Proof.
  unfold normalize_delta.
  destruct (wrap_down_spec d) as (Hle & _ & k1 & Hk1).
  destruct (wrap_up_spec (wrap_down d)) as (Hge & Hup & k2 & Hk2).
  split; [split; [exact Hge | exact (Hup Hle)] |].
  exists (k1 + k2)%Z. rewrite Hk2, Hk1, plus_IZR. lra.
Qed.

(** Among the angles that differ from [n] by whole turns, one that lies in
    [[-π, π]] has the least absolute value. *)
Lemma shortest_representative (n : R) (m : Z) :
  - PI <= n <= PI → Rabs n <= Rabs (n + 2 * IZR m * PI).
Proof.
  intros Hn. pose proof PI_RGT_0 as Hpi.
  destruct (Z.eq_dec m 0%Z) as [-> | Hm].
  - replace (n + 2 * 0 * PI) with n by lra. lra.
  - assert (Rabs n <= PI) as Hb by (apply Rabs_le; lra).
    assert (m <= -1 ∨ 1 <= m)%Z as [Hneg | Hpos] by lia.
    + apply IZR_le in Hneg.
      assert (2 * IZR m * PI <= - 2 * PI) by nra.
      rewrite (Rabs_left (n + 2 * IZR m * PI)); lra.
    + apply IZR_le in Hpos.
      assert (2 * PI <= 2 * IZR m * PI) by nra.
      rewrite (Rabs_right (n + 2 * IZR m * PI)); lra.
Qed.

End AngleFacts.

(** C3, as the code has it: the delta is brought into the closed interval
    [[-π, π]] by whole turns, the step is the start plus the scaled delta,
    it stays within [π] of the start, no other representative of the delta
    is shorter, and from 3.0 towards -3.0 the angle grows from 3 towards
    [2π - 3], across the wrap and away from 0. *)
Theorem lerpAngle_short_path (start end_ t : R) :
  (0 <= t <= 1)%R →
  (- PI <= normalize_delta (end_ - start) <= PI)%R ∧
  (∃ k : Z, normalize_delta (end_ - start)
            = end_ - start + 2 * IZR k * PI)%R ∧
  lerpAngle start end_ t = (start + normalize_delta (end_ - start) * t)%R ∧
  (Rabs (lerpAngle start end_ t - start) <= PI)%R ∧
  (∀ k : Z, Rabs (normalize_delta (end_ - start))
            <= Rabs (end_ - start + 2 * IZR k * PI))%R ∧
  (3 <= lerpAngle 3 (-3) t <= 2 * PI - 3)%R.
Proof.
  intros Ht. pose proof PI_RGT_0 as Hpi.
  destruct (normalize_delta_range (end_ - start)) as (Hr & k & Hk).
  split; [exact Hr |]. split; [by exists k |]. split; [reflexivity |].
  split; [| split].
  - unfold lerpAngle.
    replace (start + normalize_delta (end_ - start) * t - start)%R
      with (normalize_delta (end_ - start) * t)%R by lra.
    apply Rabs_le. split; nra.
  - intros k'.
    replace (end_ - start + 2 * IZR k' * PI)%R
      with (normalize_delta (end_ - start) + 2 * IZR (k' - k) * PI)%R
      by (rewrite Hk, minus_IZR; lra).
    by apply shortest_representative.
  - pose proof PI2_3_2 as Hlow. pose proof PI_4 as Hhigh.
    unfold lerpAngle, normalize_delta.
    rewrite (wrap_down_stop (-3 - 3)) by lra.
    rewrite (wrap_up_turn (-3 - 3)) by lra.
    rewrite (wrap_up_stop (-3 - 3 + 2 * PI)) by lra.
    split; nra.
Qed.

Lemma lerpAngle_short_path_witness :
  (0 <= 1 / 2 <= 1)%R ∧ (3 <= lerpAngle 3 (-3) (1 / 2) <= 2 * PI - 3)%R.
Proof.
  assert (0 <= 1 / 2 <= 1)%R as Ht by lra.
  split; [exact Ht |].
  exact (proj2 (proj2 (proj2 (proj2 (proj2
           (lerpAngle_short_path 3 (-3) (1 / 2) Ht)))))).
Defined.

(** C3 as stated fails at the lower end: from [π] towards [0] the delta is
    [-π], the second loop leaves it, and [-π] is outside [(-π, π]]. *)
Lemma normalize_delta_keeps_minus_pi :
  ¬ (- PI < normalize_delta (0 - PI) <= PI)%R.
Proof.
  pose proof PI_RGT_0 as Hpi.
  unfold normalize_delta.
  rewrite (wrap_down_stop (0 - PI)%R) by lra.
  rewrite (wrap_up_stop (0 - PI)%R) by lra.
  lra.
Qed.

(** ** Position interpolation *)

Section Interpolation.
Context `{!Rounding}.

Lemma interpolate_step_cars fract w r :
  cars (interpolate_step fract w r) = cars w.
Proof.
  unfold interpolate_step.
  destruct (heap w !! r) as [car |]; [| done].
  destruct (oldPosArray car); done.
Qed.

(** One turn keeps both position samples of every object; the object it
    visits gets its render position, the others are untouched. *)
Lemma interpolate_step_frame fract w r0 r o :
  heap w !! r = Some o →
  ∃ o', heap (interpolate_step fract w r0) !! r = Some o' ∧
        position o' = position o ∧ oldPosArray o' = oldPosArray o ∧
        (r ≠ r0 → o' = o) ∧
        (∀ oldPos, oldPosArray o = Some oldPos →
           renderPos o' = renderPos o ∨
           renderPos o' = Some (render_target fract o oldPos)) ∧
        (r = r0 → ∀ oldPos, oldPosArray o = Some oldPos →
           renderPos o' = Some (render_target fract o oldPos)).
Proof.
  intros Ho. unfold interpolate_step.
  destruct (decide (r = r0)) as [-> | Hne].
  - rewrite Ho. destruct (oldPosArray o) as [oldPos |] eqn:Hold.
    + simpl. rewrite list_lookup_insert_eq by (by eapply lookup_lt_Some).
      eexists. split; [reflexivity |].
      destruct (targetRotY o); simpl; split_and!; try done; intros;
        match goal with H : Some _ = Some _ |- _ => injection H as <- end;
        auto.
    + exists o. split_and!; done.
  - assert (∃ o', o' = o ∧ heap w !! r = Some o') as (o' & -> & Ho')
      by (by exists o).
    destruct (heap w !! r0) as [car |] eqn:Hcar;
      [destruct (oldPosArray car) as [oldPos |] |];
      simpl; rewrite ?list_lookup_insert_ne by done;
      exists o; split_and!; auto; done.
Qed.

Lemma interpolate_loop_frame fract (l : list nat) :
  ∀ w r o,
    heap w !! r = Some o →
    ∃ o', heap (foldl (interpolate_step fract) w l) !! r = Some o' ∧
          position o' = position o ∧ oldPosArray o' = oldPosArray o ∧
          (∀ oldPos, oldPosArray o = Some oldPos →
             renderPos o' = renderPos o ∨
             renderPos o' = Some (render_target fract o oldPos)) ∧
          (r ∈ l → ∀ oldPos, oldPosArray o = Some oldPos →
             renderPos o' = Some (render_target fract o oldPos)).
Proof.
  induction l as [| r0 l IH]; intros w r o Ho; simpl.
  - exists o. repeat split; auto. intros Hin. by apply elem_of_nil in Hin.
  - destruct (interpolate_step_frame fract w r0 r o Ho)
      as (o1 & Ho1 & Hp1 & Hq1 & _ & Hkeep1 & Hset1).
    destruct (IH _ r o1 Ho1) as (o2 & Ho2 & Hp2 & Hq2 & Hkeep2 & Hset2).
    exists o2. split; [exact Ho2 |].
    split; [congruence |]. split; [congruence |].
    assert (∀ oldPos, render_target fract o1 oldPos
                      = render_target fract o oldPos) as Hsame
      by (intros; unfold render_target; by rewrite Hp1).
    split.
    + intros oldPos Hold.
      destruct (Hkeep2 oldPos ltac:(congruence)) as [E | E];
        rewrite E, ?Hsame; [exact (Hkeep1 oldPos Hold) | by right].
    + intros Hin oldPos Hold.
      apply elem_of_cons in Hin as [-> | Hin].
      * destruct (Hkeep2 oldPos ltac:(congruence)) as [E | E];
          rewrite E, ?Hsame; [by apply Hset1 | done].
      * rewrite (Hset2 Hin oldPos ltac:(congruence)). by rewrite Hsame.
Qed.

Lemma interpolateCars_renderPos fract w r car oldPos :
  r ∈ cars w → heap w !! r = Some car → oldPosArray car = Some oldPos →
  renderPos <$> heap (interpolateCars fract w) !! r
  = Some (Some (render_target fract car oldPos)).
Proof.
  intros Hin Hcar Hold. unfold interpolateCars.
  destruct (interpolate_loop_frame fract (cars w) w r car Hcar)
    as (o' & Ho' & _ & _ & _ & Hset).
  rewrite Ho'. simpl. by rewrite (Hset Hin oldPos Hold).
Qed.

(** At fraction 0 the two inner operations give 0, and the sum is the
    start, which rounding leaves as it is when it is a number of the
    program. *)
Lemma lerp_start (a b : R) : lerp a b 0 = fl a.
Proof. unfold lerp. by rewrite Rmult_0_r, fl_0, Rplus_0_r. Qed.

Lemma lerp_0 (a b : R) : fl a = a → lerp a b 0 = a.
Proof. intros Ha. by rewrite lerp_start. Qed.

(** At fraction 1 the difference of the two samples is rounded before it
    is added back. *)
Lemma lerp_1 (a b : R) : lerp a b 1 = fl (a + fl (b - a)).
Proof. unfold lerp. by rewrite Rmult_1_r, fl_idem. Qed.

Lemma lerp_1_exact (a b : R) :
  fl (b - a) = (b - a)%R → fl b = b → lerp a b 1 = b.
Proof.
  intros Hd Hb. rewrite lerp_1, Hd.
  replace (a + (b - a))%R with b by lra. exact Hb.
Qed.



End Interpolation.

(** The laws of [Rounding] admit arithmetic that loses digits: on whole
    numbers half of the way from 0 to 1 is 0, and the way from 0 to 1 is
    not a straight line. *)
Lemma lerp_rounds : @lerp whole_arithmetic 0 1 (1 / 2) = 0%R.
Proof.
  unfold lerp. simpl.
  assert (∀ x z, (x - 1 < IZR z <= x)%R → IZR (Int_part x) = IZR z) as Hfloor
    by (intros x z Hz; f_equal; symmetry; by apply Int_part_spec).
  rewrite (Hfloor (1 - 0)%R 1%Z) by lra.
  rewrite (Hfloor (1 * (1 / 2))%R 0%Z) by lra.
  rewrite (Hfloor (0 + 0)%R 0%Z) by lra.
  done.
Qed.



Section Binary64Facts.
Import PrimFloat.


End Binary64Facts.
(** ** Target yaw *)

Lemma set_targetRotY_same car : set_targetRotY (targetRotY car) car = car.
Proof. by destruct car. Qed.

(** A displacement along [+x] alone points at a quarter turn. *)
Lemma atan2_plus_x (dx : R) : (0 < dx)%R → atan2 dx 0 = (PI / 2)%R.
Proof.
  intros Hdx. unfold atan2.
  destruct (Rlt_dec 0 0); [lra |].
  destruct (Rlt_dec 0 dx); [reflexivity | lra].
Qed.

Lemma DIRECTION_ROTATIONS_table :
  DIRECTION_ROTATIONS "Up" = Some PI ∧
  DIRECTION_ROTATIONS "Down" = Some 0%R ∧
  DIRECTION_ROTATIONS "Left" = Some (PI / 2)%R ∧
  DIRECTION_ROTATIONS "Right" = Some (- (PI / 2))%R.
Proof. repeat split; reflexivity. Qed.

(** C5, as the code has it.  With a previous sample: a move of more than
    0.01 along [x] or along [z] sets the target yaw to [atan2(dx, dz)],
    a smaller move leaves the car as it is.  Without a previous sample:
    a heading of the table sets the target yaw to its angle. *)
Theorem updateCarRotation_cases (car : Object3D) :
  (∀ old,
     oldPosArray car = Some old →
     let dx := (vx (position car) - vx old)%R in
     let dz := (vz (position car) - vz old)%R in
     ((Rabs dx > 0.01 ∨ Rabs dz > 0.01)%R →
      targetRotY (updateCarRotation car) = Some (atan2 dx dz)) ∧
     ((Rabs dx <= 0.01)%R → (Rabs dz <= 0.01)%R →
      updateCarRotation car = car)) ∧
  (oldPosArray car = None →
   ∀ d angle,
     direction car = Some d → DIRECTION_ROTATIONS d = Some angle →
     targetRotY (updateCarRotation car) = Some angle) ∧
  DIRECTION_ROTATIONS "Up" = Some PI ∧
  DIRECTION_ROTATIONS "Down" = Some 0%R ∧
  DIRECTION_ROTATIONS "Left" = Some (PI / 2)%R ∧
  DIRECTION_ROTATIONS "Right" = Some (- (PI / 2))%R.
Proof.
  split; [| split; [| exact DIRECTION_ROTATIONS_table]].
  - intros old Hold dx dz. unfold updateCarRotation. rewrite Hold.
    fold dx dz. split.
    + intros Hmove.
      destruct (Rgt_dec (Rabs dx) 0.01); [reflexivity |].
      destruct (Rgt_dec (Rabs dz) 0.01); [reflexivity |].
      destruct Hmove; contradiction.
    + intros Hx Hz.
      destruct (Rgt_dec (Rabs dx) 0.01); [lra |].
      destruct (Rgt_dec (Rabs dz) 0.01); [lra |].
      apply set_targetRotY_same.
  - intros Hold d angle Hd Hangle. unfold updateCarRotation.
    by rewrite Hold, Hd, Hangle.
Qed.

Lemma updateCarRotation_cases_witness :
  targetRotY (updateCarRotation moved_car) = Some (atan2 (1 - 0) (0 - 0)).
Proof.
  apply (proj1 (proj1 (updateCarRotation_cases moved_car) (0, 0, 0)%R
                  eq_refl)).
  left. unfold vx; simpl. rewrite Rabs_right; lra.
Defined.

(** C5 as stated fails: a car that did not move between its two samples
    keeps its target yaw; the heading [Up] it reports is not looked up. *)
Lemma stationary_car_keeps_yaw :
  direction stopped_car = Some "Up" ∧
  oldPosArray stopped_car = Some (position stopped_car) ∧
  targetRotY (updateCarRotation stopped_car) = Some (PI / 2)%R ∧
  targetRotY (updateCarRotation stopped_car) ≠ DIRECTION_ROTATIONS "Up".
Proof.
  assert (updateCarRotation stopped_car = stopped_car) as E.
  { unfold updateCarRotation, vx, vz. simpl.
    replace (1 - 1)%R with 0%R by lra. replace (0 - 0)%R with 0%R by lra.
    rewrite Rabs_R0.
    destruct (Rgt_dec 0 0.01); [lra | reflexivity]. }
  rewrite E. repeat split.
  simpl. intros H. injection H. pose proof PI_RGT_0. lra.
Qed.

(** ** Failed network calls *)

Lemma logged_failure_collections (w : World) :
  cars (logged_failure w) = cars w ∧
  obstacles (logged_failure w) = obstacles w ∧
  trafficLights (logged_failure w) = trafficLights w ∧
  roads (logged_failure w) = roads w ∧
  destinations (logged_failure w) = destinations w ∧
  heap (logged_failure w) = heap w ∧
  scene_objects (logged_failure w) = scene_objects w.
Proof. repeat split; reflexivity. Qed.

(** No function of the client lets an exception out, whatever the answer
    of the server. *)
Lemma client_never_throws (w : World) :
  (∀ r, snd (initTrafficModel r w) = Normal tt) ∧
  (∀ r, snd (getCars r w) = Normal tt) ∧
  (∀ r, snd (getObstacles r w) = Normal tt) ∧
  (∀ r, snd (getTrafficLights r w) = Normal tt) ∧
  (∀ r, snd (getRoads r w) = Normal tt) ∧
  (∀ r, snd (getDestinations r w) = Normal tt) ∧
  (∀ r rc rl, snd (update r rc rl w) = Normal tt).
Proof.
  repeat split; try (intros [| |?]; reflexivity).
  intros [| |[]] [| |?] [| |?]; reflexivity.
Qed.

(** C8, as the code has it: a rejected [fetch] is caught and logged, an
    answer that is not [ok] is skipped without a line on the console; in
    both cases the function returns normally and the five collections,
    the store and the scene are what they were.  When [update] itself is
    answered but one of its two snapshot calls fails, that call alone is
    skipped. *)
Theorem failed_call_keeps_state (w : World) :
  (∀ r, snd (initTrafficModel r w) = Normal tt) ∧
  (∀ r, snd (getCars r w) = Normal tt) ∧
  (∀ r, snd (getObstacles r w) = Normal tt) ∧
  (∀ r, snd (getTrafficLights r w) = Normal tt) ∧
  (∀ r, snd (getRoads r w) = Normal tt) ∧
  (∀ r, snd (getDestinations r w) = Normal tt) ∧
  (∀ r rc rl, snd (update r rc rl w) = Normal tt) ∧
  run (initTrafficModel Rejected) w = logged_failure w ∧
  run (getCars Rejected) w = logged_failure w ∧
  run (getObstacles Rejected) w = logged_failure w ∧
  run (getTrafficLights Rejected) w = logged_failure w ∧
  run (getRoads Rejected) w = logged_failure w ∧
  run (getDestinations Rejected) w = logged_failure w ∧
  (∀ rc rl, run (update Rejected rc rl) w = logged_failure w) ∧
  run (initTrafficModel NotOk) w = w ∧
  run (getCars NotOk) w = w ∧
  run (getObstacles NotOk) w = w ∧
  run (getTrafficLights NotOk) w = w ∧
  run (getRoads NotOk) w = w ∧
  run (getDestinations NotOk) w = w ∧
  (∀ rc rl, run (update NotOk rc rl) w = w) ∧
  (∀ rl, run (update (Ok tt) Rejected rl) w
         = run (getTrafficLights rl) (logged_failure w)) ∧
  (∀ rl, run (update (Ok tt) NotOk rl) w = run (getTrafficLights rl) w) ∧
  cars (logged_failure w) = cars w ∧
  obstacles (logged_failure w) = obstacles w ∧
  trafficLights (logged_failure w) = trafficLights w ∧
  roads (logged_failure w) = roads w ∧
  destinations (logged_failure w) = destinations w ∧
  heap (logged_failure w) = heap w ∧
  scene_objects (logged_failure w) = scene_objects w.
Proof.
  destruct (client_never_throws w) as (H1 & H2 & H3 & H4 & H5 & H6 & H7).
  split_and!; try done.
  - intros [| |?]; reflexivity.
  - intros [| |?]; reflexivity.
Qed.

(** C8 as stated fails: when the server answers [getCars] with a status
    that is not [ok], nothing is written to the console. *)
Lemma not_ok_is_not_logged :
  ¬ ∃ line, console (run (getCars NotOk) empty_world)
            = console empty_world ++ [line].
Proof. intros [line H]. discriminate H. Qed.

(** ** Traffic lights *)

Lemma same_but_signal_refl o : same_but_signal o o.
Proof. exists (state o), (color o). by destruct o. Qed.

Lemma same_but_signal_trans o1 o2 o3 :
  same_but_signal o1 o2 → same_but_signal o2 o3 → same_but_signal o1 o3.
Proof. intros (st & c & ->) (st' & c' & ->). by exists st', c'. Qed.

Lemma same_but_signal_id o o' : same_but_signal o o' → id o' = id o.
Proof. by intros (st & c & ->). Qed.

Lemma find_by_id_elem h refs i r :
  find_by_id h refs i = Some r → r ∈ refs ∧ obj_id h r = Some i.
Proof.
  induction refs as [| r0 refs IH]; simpl; [done |].
  case_bool_decide as Hid.
  - intros [= <-]. split; [by apply elem_of_cons; left | done].
  - intros H. destruct (IH H) as [Hin Hr].
    split; [by apply elem_of_cons; right | done].
Qed.

Lemma find_by_id_ext h h' refs i :
  (∀ r, obj_id h' r = obj_id h r) →
  find_by_id h' refs i = find_by_id h refs i.
Proof.
  intros Hids. induction refs as [| r0 refs IH]; simpl; [done |].
  by rewrite Hids, IH.
Qed.

Lemma find_by_id_none h refs i :
  find_by_id h refs i = None → ∀ r, r ∈ refs → obj_id h r ≠ Some i.
Proof.
  induction refs as [| r0 refs IH]; simpl; intros Hnone r Hin.
  - by apply elem_of_nil in Hin.
  - case_bool_decide as Hid; [done |].
    apply elem_of_cons in Hin as [-> | Hin]; [done | by apply IH].
Qed.

Lemma find_by_id_some h refs i r :
  r ∈ refs → obj_id h r = Some i → is_Some (find_by_id h refs i).
Proof.
  intros Hin Hid. destruct (find_by_id h refs i) eqn:E; [done |].
  by destruct (find_by_id_none h refs i E r Hin).
Qed.

(** What one turn of the update loop leaves alone. *)
Lemma light_step_frame w light :
  trafficLights (light_step w light) = trafficLights w ∧
  cars (light_step w light) = cars w ∧
  obstacles (light_step w light) = obstacles w ∧
  roads (light_step w light) = roads w ∧
  destinations (light_step w light) = destinations w ∧
  scene_objects (light_step w light) = scene_objects w ∧
  trafficLightSpheres (light_step w light) = trafficLightSpheres w ∧
  console (light_step w light) = console w ∧
  length (heap (light_step w light)) = length (heap w).
Proof.
  unfold light_step.
  destruct (find_by_id _ _ _) as [r |]; [| done].
  destruct (heap w !! r); [| done].
  simpl. by rewrite length_insert.
Qed.

(** One turn rewrites the tracked light of that identity, and only it. *)
Lemma light_step_heap w light r o :
  heap w !! r = Some o →
  ∃ o', heap (light_step w light) !! r = Some o' ∧
        same_but_signal o o' ∧
        (find_by_id (heap w) (trafficLights w) (light_id light) = Some r →
         o' = refresh_light light o) ∧
        (find_by_id (heap w) (trafficLights w) (light_id light) ≠ Some r →
         o' = o).
Proof.
  intros Ho. unfold light_step.
  destruct (find_by_id _ _ _) as [r0 |] eqn:Hfind.
  - destruct (decide (r0 = r)) as [-> | Hne].
    + rewrite Ho. simpl.
      rewrite list_lookup_insert_eq by (by eapply lookup_lt_Some).
      eexists. split; [done |]. split; [by eexists _, _ |]. done.
    + destruct (heap w !! r0); simpl;
        rewrite ?list_lookup_insert_ne by done;
        exists o; (split; [done |]); (split; [apply same_but_signal_refl |]);
        (split; [intros [= ?]; done | done]).
  - exists o. split; [done |]. split; [apply same_but_signal_refl |]. done.
Qed.

Lemma light_step_ids w light r :
  obj_id (heap (light_step w light)) r = obj_id (heap w) r.
Proof.
  unfold obj_id. destruct (heap w !! r) as [o |] eqn:Ho.
  - destruct (light_step_heap w light r o Ho) as (o' & -> & Hs & _).
    simpl. f_equal. by apply same_but_signal_id.
  - apply lookup_ge_None in Ho.
    destruct (light_step_frame w light) as (_ & _ & _ & _ & _ & _ & _ & _ & Hlen).
    rewrite (proj2 (lookup_ge_None _ _)); [done | lia].
Qed.

Lemma light_loop_frame (positions : list LightJson) :
  ∀ w,
    trafficLights (foldl light_step w positions) = trafficLights w ∧
    cars (foldl light_step w positions) = cars w ∧
    obstacles (foldl light_step w positions) = obstacles w ∧
    roads (foldl light_step w positions) = roads w ∧
    destinations (foldl light_step w positions) = destinations w ∧
    scene_objects (foldl light_step w positions) = scene_objects w ∧
    trafficLightSpheres (foldl light_step w positions)
    = trafficLightSpheres w ∧
    console (foldl light_step w positions) = console w ∧
    length (heap (foldl light_step w positions)) = length (heap w) ∧
    (∀ r, obj_id (heap (foldl light_step w positions)) r
          = obj_id (heap w) r) ∧
    (∀ r o, heap w !! r = Some o →
            ∃ o', heap (foldl light_step w positions) !! r = Some o' ∧
                  same_but_signal o o') ∧
    (∀ r o, heap w !! r = Some o →
            (∀ light, light ∈ positions →
               find_by_id (heap w) (trafficLights w) (light_id light)
               ≠ Some r) →
            heap (foldl light_step w positions) !! r = Some o).
Proof.
  induction positions as [| light positions IH]; intros w; simpl.
  - split_and!; try done.
    intros r o Ho. exists o. split; [done | apply same_but_signal_refl].
  - destruct (light_step_frame w light)
      as (F1 & F2 & F3 & F4 & F5 & F6 & F7 & F8 & F9).
    destruct (IH (light_step w light))
      as (G1 & G2 & G3 & G4 & G5 & G6 & G7 & G8 & G9 & Gid & Gsig & Gkeep).
    split_and!; try congruence.
    + intros r. rewrite Gid. apply light_step_ids.
    + intros r o Ho.
      destruct (light_step_heap w light r o Ho) as (o1 & Ho1 & Hs1 & _).
      destruct (Gsig r o1 Ho1) as (o2 & Ho2 & Hs2).
      exists o2. split; [done |]. by eapply same_but_signal_trans.
    + intros r o Ho Hother.
      destruct (light_step_heap w light r o Ho) as (o1 & Ho1 & _ & _ & Hsame).
      rewrite (Hsame (Hother light ltac:(by apply elem_of_cons; left)))
        in Ho1.
      apply Gkeep; [done |].
      intros light' Hin. rewrite F1.
      rewrite (find_by_id_ext (heap w)) by apply light_step_ids.
      apply Hother. by apply elem_of_cons; right.
Qed.

(** A call of [getTrafficLights] on a populated collection, whatever the
    server answers. *)
Lemma getTrafficLights_populated w r :
  trafficLights w ≠ [] →
  trafficLights (run (getTrafficLights r) w) = trafficLights w ∧
  scene_objects (run (getTrafficLights r) w) = scene_objects w ∧
  trafficLightSpheres (run (getTrafficLights r) w) = trafficLightSpheres w ∧
  length (heap (run (getTrafficLights r) w)) = length (heap w) ∧
  (∀ ref o, heap w !! ref = Some o →
            ∃ o', heap (run (getTrafficLights r) w) !! ref = Some o' ∧
                  same_but_signal o o') ∧
  (∀ ref o positions,
     r = Ok positions → heap w !! ref = Some o →
     id o ∉ light_id <$> positions →
     heap (run (getTrafficLights r) w) !! ref = Some o).
Proof.
  intros Hne. destruct r as [| | positions]; simpl.
  1,2: split_and!; try done;
       intros ref o Ho; exists o; (split; [done | apply same_but_signal_refl]).
  unfold run; simpl. unfold getTrafficLights_ok.
  rewrite bool_decide_eq_false_2 by (by destruct (trafficLights w)).
  destruct (light_loop_frame positions w)
    as (G1 & _ & _ & _ & _ & G6 & G7 & _ & G9 & _ & Gsig & Gkeep).
  split_and!; try done.
  intros ref o ps [= <-] Ho Hnotin. apply Gkeep; [done |].
  intros light Hin Hfind.
  destruct (find_by_id_elem _ _ _ _ Hfind) as [_ Hid].
  unfold obj_id in Hid. rewrite Ho in Hid. simpl in Hid.
  injection Hid as Hid. apply Hnotin. rewrite Hid.
  by apply list_elem_of_fmap_2.
Qed.



Lemma paints_dec w r s : paints w r s ∨ ¬ paints w r s.
Proof.
  unfold paints. destruct (heap w !! r) as [light |] eqn:Hl.
  - destruct (decide (trafficLightSpheres w !! id light = Some s)) as [E | E].
    + left. by exists light.
    + right. intros (l & [= <-] & Hs). done.
  - right. intros (l & Hl' & _). done.
Qed.

Lemma sphere_step_frame w r0 :
  trafficLights (sphere_step w r0) = trafficLights w ∧
  scene_objects (sphere_step w r0) = scene_objects w ∧
  trafficLightSpheres (sphere_step w r0) = trafficLightSpheres w ∧
  length (heap (sphere_step w r0)) = length (heap w).
Proof.
  unfold sphere_step.
  destruct (heap w !! r0) as [light |]; [| done].
  destruct (trafficLightSpheres w !! id light) as [s |]; [| done].
  destruct (heap w !! s); [| done].
  simpl. by rewrite length_insert.
Qed.

(** One turn keeps identity and state of every object; it repaints the
    cube of the light it visits and leaves the other objects alone. *)
Lemma sphere_step_heap w r0 r o :
  heap w !! r = Some o →
  ∃ o', heap (sphere_step w r0) !! r = Some o' ∧
        id o' = id o ∧ state o' = state o ∧
        (paints w r0 r →
         ∃ light, heap w !! r0 = Some light ∧
                  o' = paint_sphere (truthy_state light) o) ∧
        (¬ paints w r0 r → o' = o).
Proof.
  intros Ho. unfold sphere_step, paints.
  destruct (heap w !! r0) as [light |] eqn:Hlight.
  - destruct (trafficLightSpheres w !! id light) as [s |] eqn:Hs.
    + destruct (decide (s = r)) as [-> | Hne].
      * rewrite Ho. simpl.
        rewrite list_lookup_insert_eq by (by eapply lookup_lt_Some).
        eexists. split_and!; try done.
        -- intros _. by exists light.
        -- intros Hno. destruct Hno. by exists light.
      * destruct (heap w !! s); simpl;
          rewrite ?list_lookup_insert_ne by done;
          exists o; split_and!; try done;
          intros (l & [= <-] & Hl); congruence.
    + exists o. split_and!; try done.
      intros (l & [= <-] & Hl); congruence.
  - exists o. split_and!; try done. intros (l & Hl & _); congruence.
Qed.








(** ** Car reconciliation: the snapshot client *)

(** The loop that walks the indices downwards and splices is a filter. *)
Lemma retire_loop_filter ids h :
  ∀ i cs out,
    i ≤ length cs →
    fst (retire_loop ids h i cs out)
    = filter (λ r, on_server ids h r = true) (take i cs) ++ drop i cs.
Proof.
  induction i as [| i IH]; intros cs out Hi; simpl; [done |].
  destruct (cs !! i) as [r |] eqn:Hr;
    [| apply lookup_ge_None in Hr; lia].
  rewrite (take_S_r _ _ _ Hr), filter_app.
  assert (i ≤ length (delete i cs)) as Hdel
    by (rewrite length_delete by (by eexists); lia).
  assert (take i (delete i cs) = take i cs ∧
          drop i (delete i cs) = drop (S i) cs) as [Htake Hdrop].
  { rewrite delete_take_drop. split.
    - apply take_app_length'. rewrite length_take. lia.
    - apply drop_app_length'. rewrite length_take. lia. }
  unfold on_server at 2.
  destruct (obj_id h r) as [ident |] eqn:Hid.
  - case_bool_decide as Hin.
    + rewrite IH, (drop_S _ _ _ Hr) by lia.
      rewrite filter_cons_True
        by (unfold on_server; rewrite Hid; by apply bool_decide_eq_true_2).
      simpl. by rewrite <- app_assoc.
    + rewrite IH, Htake, Hdrop by done.
      rewrite filter_cons_False; [by rewrite filter_nil, app_nil_r |].
      unfold on_server. rewrite Hid.
      by rewrite bool_decide_eq_false_2.
  - rewrite IH, Htake, Hdrop by done.
    rewrite filter_cons_False; [by rewrite filter_nil, app_nil_r |].
    unfold on_server. by rewrite Hid.
Qed.

(** When every tracked car is reported, the loop removes nothing and
    writes nothing. *)
Lemma retire_loop_all ids h (cs : list nat) :
  (∀ r, r ∈ cs → on_server ids h r = true) →
  ∀ i out, retire_loop ids h i cs out = (cs, out).
Proof.
  intros Hall. induction i as [| i IH]; intros out; simpl; [done |].
  destruct (cs !! i) as [r |] eqn:Hr; [| apply IH].
  pose proof (Hall r (list_elem_of_lookup_2 _ _ _ Hr)) as Hon.
  unfold on_server in Hon.
  destruct (obj_id h r) as [ident |]; [| done].
  rewrite Hon. apply IH.
Qed.

Lemma retire_loop_cars ids w :
  fst (retire_loop ids (heap w) (length (cars w)) (cars w) (console w))
  = filter (λ r, on_server ids (heap w) r = true) (cars w).
Proof.
  rewrite retire_loop_filter by done.
  by rewrite firstn_all, drop_all, app_nil_r.
Qed.

(** The two ways one turn of the loop over the snapshot can go. *)
Lemma car_step_cases w car :
  (∃ r cur,
     find_by_id (heap w) (cars w) (car_id car) = Some r ∧
     heap w !! r = Some cur ∧
     car_step w car = set_heap (<[r := refresh_car car cur]> (heap w)) w) ∨
  (find_by_id (heap w) (cars w) (car_id car) = None ∧
   car_step w car
   = set_cars (cars w ++ [length (heap w)])
       (set_heap (heap w ++ [fresh_car car]) w)).
Proof.
  unfold car_step.
  destruct (find_by_id _ _ _) as [r |] eqn:Hfind; [| by right].
  left. destruct (find_by_id_elem _ _ _ _ Hfind) as [_ Hid].
  unfold obj_id in Hid.
  destruct (heap w !! r) as [cur |] eqn:Hcur; [| done].
  by exists r, cur.
Qed.

Lemma car_step_frame w car :
  obstacles (car_step w car) = obstacles w ∧
  trafficLights (car_step w car) = trafficLights w ∧
  roads (car_step w car) = roads w ∧
  destinations (car_step w car) = destinations w ∧
  scene_objects (car_step w car) = scene_objects w ∧
  trafficLightSpheres (car_step w car) = trafficLightSpheres w ∧
  console (car_step w car) = console w ∧
  draws (car_step w car) = draws w ∧
  length (heap w) ≤ length (heap (car_step w car)).
Proof.
  destruct (car_step_cases w car) as [(r & cur & _ & _ & ->) | [_ ->]];
    simpl; split_and!; try done.
  - by rewrite length_insert.
  - rewrite length_app. lia.
Qed.

(** One turn keeps identity and mesh of every object of the store, and
    rewrites the tracked car of that identity only. *)
Lemma car_step_heap w car r o :
  heap w !! r = Some o →
  ∃ o', heap (car_step w car) !! r = Some o' ∧
        id o' = id o ∧ vao o' = vao o ∧
        (find_by_id (heap w) (cars w) (car_id car) = Some r →
         o' = refresh_car car o) ∧
        (find_by_id (heap w) (cars w) (car_id car) ≠ Some r → o' = o).
Proof.
  intros Ho.
  destruct (car_step_cases w car)
    as [(r0 & cur & Hfind & Hcur & ->) | [Hfind ->]]; simpl.
  - destruct (decide (r0 = r)) as [-> | Hne].
    + rewrite list_lookup_insert_eq by (by eapply lookup_lt_Some).
      assert (cur = o) as -> by congruence.
      eexists. split_and!; done.
    + rewrite list_lookup_insert_ne by done.
      exists o. split_and!; try done. intros Hr. congruence.
  - exists o. split_and!; try done.
    + by apply lookup_app_l_Some.
    + by rewrite Hfind.
Qed.

Lemma car_step_tracked w car r :
  r ∈ cars w → r ∈ cars (car_step w car).
Proof.
  intros Hin.
  destruct (car_step_cases w car) as [(r0 & cur & _ & _ & ->) | [_ ->]];
    simpl; [done |].
  apply elem_of_app. by left.
Qed.

Lemma omap_obj_id_cons h r (cs : list nat) :
  omap (obj_id h) (r :: cs)
  = match obj_id h r with
    | Some i => i :: omap (obj_id h) cs
    | None => omap (obj_id h) cs
    end.
Proof. reflexivity. Qed.

Lemma omap_obj_id_ext h h' (cs : list nat) :
  (∀ r, r ∈ cs → obj_id h' r = obj_id h r) →
  omap (obj_id h') cs = omap (obj_id h) cs.
Proof.
  induction cs as [| r cs IH]; intros Hids; [done |].
  rewrite !omap_obj_id_cons.
  rewrite (Hids r) by (by apply elem_of_cons; left).
  rewrite IH; [done |].
  intros r' Hin. apply Hids. by apply elem_of_cons; right.
Qed.

Lemma car_step_wf w car : cars_wf w → cars_wf (car_step w car).
Proof.
  intros [Hvalid Hnodup]. unfold cars_wf.
  destruct (car_step_cases w car)
    as [(r0 & cur & Hfind & Hcur & ->) | [Hfind ->]]; simpl.
  - rewrite length_insert. split; [done |].
    rewrite (omap_obj_id_ext (heap w)); [done |].
    intros r _. unfold obj_id.
    destruct (decide (r0 = r)) as [-> | Hne].
    + rewrite list_lookup_insert_eq by (by eapply lookup_lt_Some).
      by rewrite Hcur.
    + by rewrite list_lookup_insert_ne.
  - rewrite length_app. simpl. split.
    + intros r Hin. apply elem_of_app in Hin as [Hin | Hin].
      * specialize (Hvalid r Hin). lia.
      * apply list_elem_of_singleton in Hin as ->. lia.
    + rewrite omap_app. simpl. unfold obj_id at 2.
      rewrite list_lookup_middle by done. simpl.
      rewrite (omap_obj_id_ext (heap w)).
      * apply NoDup_app. split; [done |]. split; [| apply NoDup_singleton].
        intros i Hi Hnew. apply list_elem_of_singleton in Hnew as ->.
        apply list_elem_of_omap in Hi as (r & Hin & Hid).
        by apply (find_by_id_none _ _ _ Hfind r Hin).
      * intros r Hin. unfold obj_id.
        destruct (heap w !! r) as [o |] eqn:Ho.
        -- by rewrite (lookup_app_l_Some _ _ _ _ Ho).
        -- apply lookup_ge_None in Ho. specialize (Hvalid r Hin). lia.
Qed.

Lemma car_loop_wf (positions : list CarJson) :
  ∀ w, cars_wf w → cars_wf (foldl car_step w positions).
Proof.
  induction positions as [| car positions IH]; intros w Hwf; simpl;
    [done |].
  apply IH. by apply car_step_wf.
Qed.

(** Entries of other identities leave a tracked car as it is. *)
Lemma car_loop_other (after : list CarJson) :
  ∀ w r o,
    heap w !! r = Some o → r ∈ cars w →
    id o ∉ car_id <$> after →
    heap (foldl car_step w after) !! r = Some o ∧
    r ∈ cars (foldl car_step w after).
Proof.
  induction after as [| car after IH]; intros w r o Ho Hin Hother; simpl;
    [done |].
  apply not_elem_of_cons in Hother as [Hne Hother].
  destruct (car_step_heap w car r o Ho) as (o' & Ho' & _ & _ & _ & Hsame).
  rewrite Hsame in Ho'.
  - apply IH; [done | by apply car_step_tracked | done].
  - intros Hfind. destruct (find_by_id_elem _ _ _ _ Hfind) as [_ Hid].
    unfold obj_id in Hid. rewrite Ho in Hid. simpl in Hid. congruence.
Qed.

Lemma car_loop_last (positions : list CarJson) :
  ∀ w car,
    last_car_report positions car →
    ∃ r o, r ∈ cars (foldl car_step w positions) ∧
           heap (foldl car_step w positions) !! r = Some o ∧
           id o = car_id car ∧
           position o = (car_x car, car_y car, car_z car) ∧
           direction o = car_direction car ∧
           futurePos o = Some (car_futureX car, car_y car, car_futureZ car).
Proof.
  intros w car (before & after & -> & Hlast).
  rewrite foldl_app. simpl.
  set (w1 := foldl car_step w before).
  assert (∃ r o, r ∈ cars (car_step w1 car) ∧
                 heap (car_step w1 car) !! r = Some o ∧
                 id o = car_id car ∧
                 position o = (car_x car, car_y car, car_z car) ∧
                 direction o = car_direction car ∧
                 futurePos o
                 = Some (car_futureX car, car_y car, car_futureZ car))
    as (r & o & Hin & Ho & Hid & Hpos & Hdir & Hfut).
  { destruct (car_step_cases w1 car)
      as [(r & cur & Hfind & Hcur & ->) | [Hfind ->]]; simpl.
    - destruct (find_by_id_elem _ _ _ _ Hfind) as [Hin Hid].
      exists r, (refresh_car car cur). split_and!; try done.
      + apply list_lookup_insert_eq. by eapply lookup_lt_Some.
      + unfold obj_id in Hid. rewrite Hcur in Hid. by injection Hid.
    - exists (length (heap w1)), (fresh_car car). split_and!; try done.
      + apply elem_of_app. right. by apply list_elem_of_singleton.
      + by apply list_lookup_middle. }
  destruct (car_loop_other after (car_step w1 car) r o Ho Hin
              ltac:(by rewrite Hid)) as [Ho' Hin'].
  by exists r, o.
Qed.

Lemma filter_none {A} (P : A → Prop) `{!∀ x, Decision (P x)} (l : list A) :
  (∀ x, x ∈ l → ¬ P x) → filter P l = [].
Proof.
  induction l as [| x l IH]; intros Hno; [done |].
  rewrite filter_cons_False by (apply Hno; by apply elem_of_cons; left).
  apply IH. intros y Hy. apply Hno. by apply elem_of_cons; right.
Qed.

Lemma omap_filter_NoDup {A B} (f : A → option B) (P : A → Prop)
    `{!∀ x, Decision (P x)} (l : list A) :
  NoDup (omap f l) → NoDup (omap f (filter P l)).
Proof.
  induction l as [| x l IH]; intros Hnd; [done |].
  assert (NoDup (omap f l)) as Hl.
  { change (omap f (x :: l))
      with (match f x with Some y => y :: omap f l | None => omap f l end)
      in Hnd.
    destruct (f x); [by apply NoDup_cons in Hnd as [_ ?] | done]. }
  destruct (decide (P x)) as [Hp | Hp].
  - rewrite filter_cons_True by done.
    change (omap f (x :: l))
      with (match f x with Some y => y :: omap f l | None => omap f l end)
      in Hnd.
    change (omap f (x :: filter P l))
      with (match f x with
            | Some y => y :: omap f (filter P l)
            | None => omap f (filter P l)
            end).
    destruct (f x) as [y |]; [| by apply IH].
    apply NoDup_cons in Hnd as [Hfresh _].
    apply NoDup_cons. split; [| by apply IH].
    intros Hin. apply Hfresh.
    apply list_elem_of_omap in Hin as (z & Hz & Hfz).
    apply list_elem_of_omap. exists z. split; [| done].
    by apply list_elem_of_filter in Hz as [_ ?].
  - rewrite filter_cons_False by done. by apply IH.
Qed.

(** Among tracked cars with distinct identities, the cars of one identity
    are one car. *)
Lemma unique_by_id h (cs : list nat) r i :
  (∀ r', r' ∈ cs → r' < length h) →
  NoDup (omap (obj_id h) cs) →
  r ∈ cs → obj_id h r = Some i →
  filter (λ r', obj_id h r' = Some i) cs = [r].
Proof.
  induction cs as [| r0 cs IH]; intros Hvalid Hnodup Hin Hid.
  - by apply elem_of_nil in Hin.
  - assert (is_Some (obj_id h r0)) as [i0 Hi0].
    { unfold obj_id.
      destruct (lookup_lt_is_Some_2 h r0
                  (Hvalid r0 ltac:(by apply elem_of_cons; left)))
        as [o ->].
      by eexists. }
    rewrite omap_obj_id_cons, Hi0 in Hnodup.
    apply NoDup_cons in Hnodup as [Hfresh Hnodup].
    assert (∀ r', r' ∈ cs → r' < length h) as Hvalid'
      by (intros r' Hr'; apply Hvalid; by apply elem_of_cons; right).
    destruct (decide (obj_id h r0 = Some i)) as [Hhead | Hhead].
    + rewrite filter_cons_True by done.
      assert (i0 = i) as -> by congruence.
      assert (r = r0) as ->.
      { apply elem_of_cons in Hin as [-> | Hin]; [done |].
        destruct Hfresh. apply list_elem_of_omap. by exists r. }
      f_equal. apply filter_none.
      intros r' Hr' Hid'. apply Hfresh.
      apply list_elem_of_omap. by exists r'.
    + rewrite filter_cons_False by done.
      apply IH; try done.
      apply elem_of_cons in Hin as [-> | Hin]; [congruence | done].
Qed.

Lemma getCars_ok_loops positions w :
  getCars_ok positions w = foldl car_step (after_retire positions w) positions.
Proof.
  unfold getCars_ok, after_retire.
  rewrite <- retire_loop_cars.
  by destruct (retire_loop _ _ _ _ _).
Qed.

Lemma after_retire_wf positions w : cars_wf w → cars_wf (after_retire positions w).
Proof.
  intros [Hvalid Hnodup]. split; simpl.
  - intros r Hin. apply list_elem_of_filter in Hin as [_ Hin]. by apply Hvalid.
  - by apply omap_filter_NoDup.
Qed.

Lemma getCars_ok_wf positions w : cars_wf w → cars_wf (getCars_ok positions w).
Proof.
  intros Hwf. rewrite getCars_ok_loops.
  by apply car_loop_wf, after_retire_wf.
Qed.

Lemma empty_world_wf : cars_wf empty_world.
Proof.
  split; simpl; [| apply NoDup_nil_2].
  intros r Hin. by apply elem_of_nil in Hin.
Qed.

(** C9: when a snapshot reports an identity more than once, [getCars]
    tracks one car of that identity, and its position, direction and
    future position are those of the last report of the identity. *)
Theorem duplicate_identity_later_wins (w : World) (positions : list CarJson)
    (car : CarJson) :
  cars_wf w →
  last_car_report positions car →
  let w' := run (getCars (Ok positions)) w in
  cars_wf w' ∧
  ∃ r o,
    filter (λ r', obj_id (heap w') r' = Some (car_id car)) (cars w') = [r] ∧
    heap w' !! r = Some o ∧
    id o = car_id car ∧
    position o = (car_x car, car_y car, car_z car) ∧
    direction o = car_direction car ∧
    futurePos o = Some (car_futureX car, car_y car, car_futureZ car).
Proof.
  intros Hwf Hlast w'.
  assert (w' = getCars_ok positions w) as -> by reflexivity.
  pose proof (getCars_ok_wf positions w Hwf) as Hwf'.
  split; [exact Hwf' |].
  rewrite getCars_ok_loops in *.
  destruct (car_loop_last positions (after_retire positions w) car Hlast)
    as (r & o & Hin & Ho & Hid & Hpos & Hdir & Hfut).
  exists r, o. split_and!; try done.
  destruct Hwf' as [Hvalid Hnodup].
  apply unique_by_id; try done.
  unfold obj_id. by rewrite Ho, <- Hid.
Qed.

Lemma duplicate_identity_later_wins_witness :
  ∃ r o,
    filter (λ r', obj_id
                    (heap (run (getCars (Ok [car_at 0 0 (Some "Up");
                                             car_at 1 2 (Some "Left")]))
                             empty_world)) r' = Some "c1")
      (cars (run (getCars (Ok [car_at 0 0 (Some "Up");
                               car_at 1 2 (Some "Left")])) empty_world))
    = [r] ∧
    heap (run (getCars (Ok [car_at 0 0 (Some "Up");
                            car_at 1 2 (Some "Left")])) empty_world) !! r
    = Some o ∧
    position o = (1, 0, 2)%R ∧ direction o = Some "Left".
Proof.
  assert (last_car_report [car_at 0 0 (Some "Up"); car_at 1 2 (Some "Left")]
            (car_at 1 2 (Some "Left"))) as Hlast.
  { exists [car_at 0 0 (Some "Up")], []. split; [reflexivity |].
    apply not_elem_of_nil. }
  destruct (duplicate_identity_later_wins empty_world _ _ empty_world_wf Hlast)
    as (_ & r & o & Hone & Ho & _ & Hpos & Hdir & _).
  exists r, o. split_and!; [exact Hone | exact Ho | exact Hpos | exact Hdir].
Defined.

(** ** Reconciliation twice *)

Lemma tracked_find w i :
  tracked w i ↔ is_Some (find_by_id (heap w) (cars w) i).
Proof.
  split.
  - intros (r & Hin & Hid). by eapply find_by_id_some.
  - intros [r Hfind]. exists r. by apply find_by_id_elem.
Qed.

Lemma tracked_current w i :
  tracked w i ↔ i ∈ omap (obj_id (heap w)) (cars w).
Proof. unfold tracked. by rewrite list_elem_of_omap. Qed.

Lemma car_step_ids w car r :
  r < length (heap w) →
  obj_id (heap (car_step w car)) r = obj_id (heap w) r.
Proof.
  intros Hr. unfold obj_id.
  destruct (lookup_lt_is_Some_2 _ _ Hr) as [o Ho].
  destruct (car_step_heap w car r o Ho) as (o' & -> & Hid & _).
  rewrite Ho. simpl. by f_equal.
Qed.

Lemma car_step_keeps_tracked w car i :
  tracked w i → tracked (car_step w car) i.
Proof.
  intros (r & Hin & Hid). exists r. split; [by apply car_step_tracked |].
  rewrite car_step_ids; [done |].
  unfold obj_id in Hid. apply lookup_lt_is_Some_1.
  destruct (heap w !! r); [by eexists | done].
Qed.

Lemma car_step_tracks w car : tracked (car_step w car) (car_id car).
Proof.
  destruct (car_step_cases w car)
    as [(r & cur & Hfind & Hcur & Heq) | [Hfind Heq]].
  - apply car_step_keeps_tracked, tracked_find. by rewrite Hfind.
  - rewrite Heq. exists (length (heap w)). simpl. split.
    + apply elem_of_app. right. by apply list_elem_of_singleton.
    + unfold obj_id. by rewrite list_lookup_middle.
Qed.

Lemma car_step_on_server ids w car :
  car_id car ∈ ids →
  (∀ r, r ∈ cars w → on_server ids (heap w) r = true) →
  ∀ r, r ∈ cars (car_step w car) →
       on_server ids (heap (car_step w car)) r = true.
Proof.
  intros Hcar Hall r Hin.
  destruct (car_step_cases w car)
    as [(r0 & cur & Hfind & Hcur & Heq) | [Hfind Heq]].
  - assert (r ∈ cars w) as Hin' by (by rewrite Heq in Hin).
    specialize (Hall r Hin'). unfold on_server in *.
    rewrite car_step_ids; [done |].
    apply lookup_lt_is_Some_1. unfold obj_id in Hall.
    destruct (heap w !! r); [by eexists | done].
  - rewrite Heq in Hin |- *. simpl in *.
    apply elem_of_app in Hin as [Hin | Hin].
    + specialize (Hall r Hin). unfold on_server, obj_id in *.
      destruct (heap w !! r) as [o |] eqn:Ho; [| done].
      by rewrite (lookup_app_l_Some _ _ _ _ Ho).
    + apply list_elem_of_singleton in Hin as ->.
      unfold on_server, obj_id. rewrite list_lookup_middle by done.
      simpl. by apply bool_decide_eq_true_2.
Qed.

Lemma car_loop_in_step ids (positions : list CarJson) :
  ∀ w,
    (∀ car, car ∈ positions → car_id car ∈ ids) →
    (∀ r, r ∈ cars w → on_server ids (heap w) r = true) →
    (∀ r, r ∈ cars (foldl car_step w positions) →
          on_server ids (heap (foldl car_step w positions)) r = true) ∧
    (∀ i, tracked w i → tracked (foldl car_step w positions) i) ∧
    (∀ car, car ∈ positions →
            tracked (foldl car_step w positions) (car_id car)).
Proof.
  induction positions as [| car positions IH]; intros w Hids Hall; simpl.
  - split_and!; try done. intros car Hin. by apply elem_of_nil in Hin.
  - destruct (IH (car_step w car)) as (H1 & H2 & H3).
    + intros c Hc. apply Hids. by apply elem_of_cons; right.
    + apply car_step_on_server; [| done].
      apply Hids. by apply elem_of_cons; left.
    + split_and!; [done | |].
      * intros i Hi. by apply H2, car_step_keeps_tracked.
      * intros c Hc. apply elem_of_cons in Hc as [-> | Hc]; [| by apply H3].
        apply H2, car_step_tracks.
Qed.

Lemma getCars_ok_in_step positions w : in_step positions (getCars_ok positions w).
Proof.
  rewrite getCars_ok_loops.
  destruct (car_loop_in_step (car_id <$> positions) positions
              (after_retire positions w)) as (H1 & _ & H3).
  - intros car Hin. by apply list_elem_of_fmap_2.
  - intros r Hin. simpl in *. by apply list_elem_of_filter in Hin as [? _].
  - by split.
Qed.

Lemma same_shape_refl w : same_shape w w.
Proof. split_and!; try done. intros r o Ho. by exists o. Qed.

Lemma same_shape_trans w1 w2 w3 :
  same_shape w1 w2 → same_shape w2 w3 → same_shape w1 w3.
Proof.
  intros (A1 & A2 & A3 & A4 & A5 & A6) (B1 & B2 & B3 & B4 & B5 & B6).
  split_and!; try congruence.
  intros r o Ho. destruct (A6 r o Ho) as (o2 & Ho2 & Hid2 & Hv2).
  destruct (B6 r o2 Ho2) as (o3 & Ho3 & Hid3 & Hv3).
  exists o3. split_and!; congruence.
Qed.

Lemma same_shape_ids w w' :
  same_shape w w' → ∀ r, obj_id (heap w') r = obj_id (heap w) r.
Proof.
  intros (_ & _ & _ & _ & Hlen & Hobj) r. unfold obj_id.
  destruct (heap w !! r) as [o |] eqn:Ho.
  - destruct (Hobj r o Ho) as (o' & -> & Hid & _). simpl. by f_equal.
  - apply lookup_ge_None in Ho.
    rewrite (proj2 (lookup_ge_None _ _)); [done | lia].
Qed.

Lemma same_shape_is_car A w w' :
  same_shape w w' →
  ∀ r, is_car_in_scene A (heap w') r = is_car_in_scene A (heap w) r.
Proof.
  intros (_ & _ & _ & _ & Hlen & Hobj) r. unfold is_car_in_scene.
  destruct (heap w !! r) as [o |] eqn:Ho.
  - destruct (Hobj r o Ho) as (o' & -> & -> & ->). done.
  - apply lookup_ge_None in Ho.
    rewrite (proj2 (lookup_ge_None _ _)); [done | lia].
Qed.

(** A snapshot whose identities are all tracked creates no object. *)
Lemma car_loop_same_shape (positions : list CarJson) :
  ∀ w,
    (∀ car, car ∈ positions → tracked w (car_id car)) →
    same_shape w (foldl car_step w positions).
Proof.
  induction positions as [| car positions IH]; intros w Hall; simpl.
  - apply same_shape_refl.
  - assert (same_shape w (car_step w car)) as Hstep.
    { assert (tracked w (car_id car)) as Htr
        by (apply Hall; by apply elem_of_cons; left).
      apply tracked_find in Htr as [r Hfind].
      destruct (car_step_cases w car)
        as [(r0 & cur & _ & Hcur & Heq) | [Hnone _]]; [| congruence].
      rewrite Heq. split_and!; try done; simpl.
      - by rewrite length_insert.
      - intros r' o Ho.
        destruct (car_step_heap w car r' o Ho) as (o' & Ho' & Hid & Hv & _).
        rewrite Heq in Ho'. by exists o'. }
    eapply same_shape_trans; [exact Hstep |].
    apply IH. intros c Hc. apply car_step_keeps_tracked.
    apply Hall. by apply elem_of_cons; right.
Qed.

Lemma world_eta w :
  set_console (console w) (set_cars (cars w) w) = w.
Proof. by destruct w. Qed.

(** The second [getCars] of the same snapshot: neither loop changes the
    collection, the store keeps its size. *)
Lemma getCars_ok_again positions w :
  in_step positions w → same_shape w (getCars_ok positions w).
Proof.
  intros [Hon Htr]. unfold getCars_ok.
  rewrite (retire_loop_all _ _ _ Hon), world_eta.
  by apply car_loop_same_shape.
Qed.

(** ** Car reconciliation: the scene *)

Lemma updateCarRotation_fields car :
  id (updateCarRotation car) = id car ∧
  vao (updateCarRotation car) = vao car ∧
  position (updateCarRotation car) = position car ∧
  oldPosArray (updateCarRotation car) = oldPosArray car.
Proof. by split_and!. Qed.

Lemma random_model_some rnd A k :
  0 < length (carModels A) → is_Some (random_model rnd A k).
Proof.
  intros Hlen. apply lookup_lt_is_Some_2, Nat.mod_upper_bound. lia.
Qed.

Lemma addObject_cases h objects r :
  addObject h objects r = objects ∨ addObject h objects r = objects ++ [r].
Proof.
  unfold addObject. destruct (obj_id h r); [| by left].
  case_bool_decide; [by left | by right].
Qed.

(** One turn of the loop of [updateCars] over the tracked cars rewrites
    the cell of the car it visits: the identity stays, a mesh that is set
    stays, a mesh is set when one is missing and a model is loaded. *)
Lemma car_setup_step_spec rnd A w r0 car :
  heap w !! r0 = Some car →
  ∃ car',
    heap (car_setup_step rnd A w r0) = <[r0 := car']> (heap w) ∧
    id car' = id car ∧
    (vao car ≠ None → vao car' = vao car) ∧
    (0 < length (carModels A) → vao car' ≠ None) ∧
    cars (car_setup_step rnd A w r0) = cars w ∧
    console (car_setup_step rnd A w r0) = console w ∧
    (scene_objects (car_setup_step rnd A w r0) = scene_objects w ∨
     scene_objects (car_setup_step rnd A w r0) = scene_objects w ++ [r0]) ∧
    (¬ (vao car = None ∧ 0 < length (carModels A)) →
     scene_objects (car_setup_step rnd A w r0) = scene_objects w ∧
     draws (car_setup_step rnd A w r0) = draws w ∧
     vao car' = vao car).
Proof.
  intros Hcar. unfold car_setup_step. rewrite Hcar.
  pose proof (lookup_lt_Some _ _ _ Hcar) as Hlt.
  destruct (updateCarRotation_fields car) as (Uid & Uvao & _).
  case_bool_decide as Hdress.
  - destruct Hdress as [Hnone Hlen].
    unfold dress_car.
    destruct (random_model_some rnd A (draws w) Hlen) as [m ->].
    cbn [heap set_scene_objects set_draws set_heap].
    rewrite list_lookup_insert_eq by done.
    cbn [heap set_heap set_scene_objects set_draws].
    rewrite list_insert_insert_eq.
    eexists. split; [reflexivity |].
    match goal with
    | |- context [updateCarRotation ?c] =>
        destruct (updateCarRotation_fields c) as (Vid & Vvao & _)
    end.
    rewrite Vid, Vvao. simpl.
    split_and!; try done.
    + apply addObject_cases.
    + intros Hno. destruct Hno. done.
  - rewrite Hcar. cbn [heap set_heap].
    exists (updateCarRotation car). rewrite Uid, Uvao.
    split_and!; try done; [| by left].
    intros Hlen Hnone. apply Hdress. done.
Qed.

Lemma car_setup_step_dangling rnd A w r0 :
  heap w !! r0 = None → car_setup_step rnd A w r0 = w.
Proof. intros Hnone. unfold car_setup_step. by rewrite Hnone. Qed.

(** The loop of [updateCars] over the tracked cars. *)
Lemma car_setup_loop rnd A (l : list nat) :
  ∀ w,
    cars (foldl (car_setup_step rnd A) w l) = cars w ∧
    console (foldl (car_setup_step rnd A) w l) = console w ∧
    length (heap (foldl (car_setup_step rnd A) w l)) = length (heap w) ∧
    (∀ r o, heap w !! r = Some o →
       ∃ o', heap (foldl (car_setup_step rnd A) w l) !! r = Some o' ∧
             id o' = id o ∧
             (vao o ≠ None → vao o' = vao o) ∧
             (r ∉ l → vao o' = vao o) ∧
             (r ∈ l → 0 < length (carModels A) → vao o' ≠ None)) ∧
    (∀ r, r ∈ scene_objects (foldl (car_setup_step rnd A) w l) →
          r ∈ scene_objects w ∨ r ∈ l).
Proof.
  induction l as [| r0 l IH]; intros w; simpl.
  - split_and!; try done; [| by left].
    intros r o Ho. exists o. split_and!; try done.
    intros Hin. by apply elem_of_nil in Hin.
  - destruct (IH (car_setup_step rnd A w r0)) as (G1 & G2 & G3 & G4 & G5).
    destruct (heap w !! r0) as [car |] eqn:Hcar.
    + destruct (car_setup_step_spec rnd A w r0 car Hcar)
        as (car' & Hheap & Hid & Hkeep & Hset & F1 & F2 & Fscene & _).
      pose proof (lookup_lt_Some _ _ _ Hcar) as Hlt.
      split_and!; try congruence.
      * by rewrite G3, Hheap, length_insert.
      * intros r o Ho.
        destruct (decide (r = r0)) as [-> | Hne].
        -- assert (o = car) as -> by congruence.
           destruct (G4 r0 car') as (o' & Ho' & Hid' & Hkeep' & _ & _).
           { rewrite Hheap. by apply list_lookup_insert_eq. }
           exists o'. split_and!; try done; try congruence.
           ++ intros Hv. rewrite Hkeep'; [by apply Hkeep |].
              by rewrite (Hkeep Hv).
           ++ intros Hnotin. destruct Hnotin. by apply elem_of_cons; left.
           ++ intros _ Hlen. rewrite Hkeep'; by apply Hset.
        -- destruct (G4 r o) as (o' & Ho' & Hid' & Hkeep' & Hout' & Hin').
           { rewrite Hheap. by rewrite list_lookup_insert_ne. }
           exists o'. split_and!; try done.
           ++ intros Hnotin. apply Hout'.
              by apply not_elem_of_cons in Hnotin as [_ ?].
           ++ intros Hin. apply Hin'.
              by apply elem_of_cons in Hin as [-> | Hin].
      * intros r Hr. destruct (G5 r Hr) as [Hs | Hl].
        -- destruct Fscene as [E | E]; rewrite E in Hs; [by left |].
           apply elem_of_app in Hs as [Hs | Hs]; [by left |].
           apply list_elem_of_singleton in Hs as ->.
           right. by apply elem_of_cons; left.
        -- right. by apply elem_of_cons; right.
    + rewrite (car_setup_step_dangling rnd A w r0 Hcar) in *.
      split_and!; try done.
      * intros r o Ho.
        destruct (G4 r o Ho) as (o' & Ho' & Hid' & Hkeep' & Hout' & Hin').
        exists o'. split_and!; try done.
        -- intros Hnotin. apply Hout'.
           by apply not_elem_of_cons in Hnotin as [_ ?].
        -- intros Hin. apply Hin'.
           apply elem_of_cons in Hin as [-> | Hin]; [congruence | done].
      * intros r Hr. destruct (G5 r Hr) as [Hs | Hl]; [by left |].
        right. by apply elem_of_cons; right.
Qed.

(** The loop of [updateCars] over the cars of the scene. *)
Lemma retire_scene_loop ids (l : list nat) :
  ∀ w,
    heap (foldl (retire_from_scene ids) w l) = heap w ∧
    cars (foldl (retire_from_scene ids) w l) = cars w ∧
    console (foldl (retire_from_scene ids) w l) = console w ∧
    draws (foldl (retire_from_scene ids) w l) = draws w ∧
    (∀ r, r ∈ scene_objects (foldl (retire_from_scene ids) w l) →
          r ∈ scene_objects w) ∧
    (∀ r i, r ∈ l → obj_id (heap w) r = Some i → i ∉ ids →
            r ∉ scene_objects (foldl (retire_from_scene ids) w l)) ∧
    ((∀ r i, r ∈ l → obj_id (heap w) r = Some i → i ∈ ids) →
     foldl (retire_from_scene ids) w l = w).
Proof.
  induction l as [| c l IH]; intros w; simpl.
  - split_and!; try done. intros r i Hin. by apply elem_of_nil in Hin.
  - destruct (IH (retire_from_scene ids w c))
      as (G1 & G2 & G3 & G4 & G5 & G6 & G7).
    assert (heap (retire_from_scene ids w c) = heap w ∧
            cars (retire_from_scene ids w c) = cars w ∧
            console (retire_from_scene ids w c) = console w ∧
            draws (retire_from_scene ids w c) = draws w ∧
            (∀ r, r ∈ scene_objects (retire_from_scene ids w c) →
                  r ∈ scene_objects w) ∧
            (∀ i, obj_id (heap w) c = Some i → i ∉ ids →
                  c ∉ scene_objects (retire_from_scene ids w c)) ∧
            (∀ i, obj_id (heap w) c = Some i → i ∈ ids →
                  retire_from_scene ids w c = w))
      as (F1 & F2 & F3 & F4 & F5 & F6 & F7).
    { unfold retire_from_scene.
      destruct (obj_id (heap w) c) as [i |] eqn:Hid; [| by split_and!].
      case_bool_decide as Hin.
      { split_and!; try done. intros i' [= <-] Hout. by destruct Hout. }
      simpl. split_and!; try done.
      - intros r. unfold removeObject. rewrite Hid.
        intros Hr. by apply list_elem_of_filter in Hr as [_ ?].
      - intros i' [= <-] _. unfold removeObject. rewrite Hid.
        intros Hr. by apply list_elem_of_filter in Hr as [? _].
      - intros i' [= <-] Hin'. done. }
    split_and!; try congruence.
    + intros r Hr. by apply F5, G5.
    + intros r i Hin Hid Hout.
      apply elem_of_cons in Hin as [-> | Hin].
      * intros Hr. by apply (F6 i Hid Hout), G5.
      * apply (G6 r i Hin); [by rewrite F1 | done].
    + intros Hall.
      destruct (obj_id (heap w) c) as [i |] eqn:Hid.
      * rewrite (F7 i eq_refl) in *
          by (apply (Hall c); [by apply elem_of_cons; left | done]).
        apply G7. intros r j Hr. apply Hall. by apply elem_of_cons; right.
      * assert (retire_from_scene ids w c = w) as Hsame
          by (unfold retire_from_scene; by rewrite Hid).
        rewrite Hsame in *. apply G7.
        intros r j Hr. apply Hall. by apply elem_of_cons; right.
Qed.

Lemma updateCars_frame rnd A w :
  cars (updateCars rnd A w) = cars w ∧
  console (updateCars rnd A w) = console w ∧
  length (heap (updateCars rnd A w)) = length (heap w) ∧
  (∀ r, obj_id (heap (updateCars rnd A w)) r = obj_id (heap w) r).
Proof.
  unfold updateCars.
  set (ids := omap (obj_id (heap w)) (cars w)).
  set (l := filter (λ r, is_car_in_scene A (heap w) r = true)
              (scene_objects w)).
  destruct (retire_scene_loop ids l w) as (R1 & R2 & R3 & _).
  set (wr := foldl (retire_from_scene ids) w l) in *.
  destruct (car_setup_loop rnd A (cars wr) wr) as (G1 & G2 & G3 & G4 & _).
  split_and!; try congruence.
  intros r. unfold obj_id.
  destruct (heap w !! r) as [o |] eqn:Ho.
  - rewrite <- R1 in Ho.
    destruct (G4 r o Ho) as (o' & -> & Hid & _). simpl. by f_equal.
  - apply lookup_ge_None in Ho.
    rewrite (proj2 (lookup_ge_None _ _)); [done |].
    rewrite G3, R1. lia.
Qed.

Lemma updateCars_settled rnd A w : settled A (updateCars rnd A w).
Proof.
  destruct (updateCars_frame rnd A w) as (Fcars & _ & Flen & Fids).
  revert Fcars Flen Fids. unfold updateCars.
  set (ids := omap (obj_id (heap w)) (cars w)).
  set (l := filter (λ r, is_car_in_scene A (heap w) r = true)
              (scene_objects w)).
  destruct (retire_scene_loop ids l w) as (R1 & R2 & _ & _ & R5 & R6 & _).
  set (wr := foldl (retire_from_scene ids) w l) in *.
  destruct (car_setup_loop rnd A (cars wr) wr) as (G1 & _ & G3 & G4 & G5).
  set (wf := foldl (car_setup_step rnd A) wr (cars wr)) in *.
  intros Fcars Flen Fids.
  assert (∀ i, tracked w i → tracked wf i) as Htracked.
  { intros i (r & Hin & Hid). exists r. split; [congruence |].
    by rewrite Fids. }
  split.
  - intros r Hscene Hcar.
    unfold is_car_in_scene in Hcar.
    destruct (heap wf !! r) as [o' |] eqn:Ho'; [| done].
    apply andb_true_iff in Hcar as [Hid Hvao].
    destruct (heap wr !! r) as [o |] eqn:Ho;
      [| apply lookup_ge_None in Ho; apply lookup_lt_Some in Ho'; lia].
    destruct (G4 r o Ho) as (o2 & Ho2 & Hid2 & _ & Hout & _).
    assert (o2 = o') as -> by congruence.
    exists (id o'). split; [unfold obj_id; by rewrite Ho' |].
    destruct (decide (r ∈ cars wr)) as [Hin | Hnotin].
    + exists r. split; [congruence |]. unfold obj_id. by rewrite Ho'.
    + destruct (G5 r Hscene) as [Hsr | Hin]; [| done].
      apply Htracked, tracked_current. fold ids.
      destruct (decide (id o' ∈ ids)) as [Hyes | Hno]; [done |].
      exfalso. apply (R6 r (id o')); try done.
      * apply list_elem_of_filter. split; [| by apply R5].
        unfold is_car_in_scene. rewrite <- R1, Ho.
        rewrite <- Hid2, <- (Hout Hnotin). by rewrite Hid, Hvao.
      * unfold obj_id. rewrite <- R1, Ho. simpl. by f_equal.
  - intros Hlen r o' Hin Ho'.
    rewrite G1 in Hin.
    destruct (heap wr !! r) as [o |] eqn:Ho;
      [| apply lookup_ge_None in Ho; apply lookup_lt_Some in Ho'; lia].
    destruct (G4 r o Ho) as (o2 & Ho2 & _ & _ & _ & Hset).
    assert (o2 = o') as -> by congruence.
    by apply Hset.
Qed.

Lemma same_shape_tracked w w' i :
  same_shape w w' → tracked w i → tracked w' i.
Proof.
  intros Hs (r & Hin & Hid). destruct Hs as (Hcars & Hrest) eqn:E.
  exists r. split; [congruence |].
  by rewrite (same_shape_ids w w').
Qed.

Lemma same_shape_settled A w w' :
  same_shape w w' → settled A w → settled A w'.
Proof.
  intros Hs [Q1 Q2].
  pose proof (same_shape_ids _ _ Hs) as Hids.
  pose proof (same_shape_is_car A _ _ Hs) as Hcar.
  pose proof Hs as (Hcars & Hscene & _ & _ & Hlen & Hobj).
  split.
  - intros r Hin Hr. rewrite Hscene in Hin. rewrite Hcar in Hr.
    destruct (Q1 r Hin Hr) as (i & Hid & Htr).
    exists i. split; [by rewrite Hids |]. by eapply same_shape_tracked.
  - intros Hpos r o' Hin Ho'. rewrite Hcars in Hin.
    destruct (heap w !! r) as [o |] eqn:Ho;
      [| apply lookup_ge_None in Ho; apply lookup_lt_Some in Ho'; lia].
    destruct (Hobj r o Ho) as (o2 & Ho2 & _ & Hv).
    assert (o2 = o') as -> by congruence.
    rewrite Hv. by eapply Q2.
Qed.

Lemma same_shape_in_step positions w w' :
  same_shape w w' → in_step positions w → in_step positions w'.
Proof.
  intros Hs [Hon Htr].
  pose proof (same_shape_ids _ _ Hs) as Hids.
  pose proof Hs as (Hcars & _).
  split.
  - intros r Hin. rewrite Hcars in Hin. unfold on_server.
    rewrite Hids. by apply Hon.
  - intros car Hin. eapply same_shape_tracked; [done |]. by apply Htr.
Qed.

Lemma updateCars_in_step rnd A positions w :
  in_step positions w → in_step positions (updateCars rnd A w).
Proof.
  intros [Hon Htr].
  destruct (updateCars_frame rnd A w) as (Fcars & _ & _ & Fids).
  split.
  - intros r Hin. rewrite Fcars in Hin. unfold on_server.
    rewrite Fids. by apply Hon.
  - intros car Hin. destruct (Htr car Hin) as (r & Hr & Hid).
    exists r. split; [congruence |]. by rewrite Fids.
Qed.

(** The loop over the tracked cars, when none of them is to be dressed. *)
Lemma car_setup_loop_dressed rnd A (l : list nat) :
  ∀ w,
    (∀ r o, r ∈ l → heap w !! r = Some o →
            ¬ (vao o = None ∧ 0 < length (carModels A))) →
    same_shape w (foldl (car_setup_step rnd A) w l).
Proof.
  induction l as [| r0 l IH]; intros w Hall; simpl.
  - apply same_shape_refl.
  - assert (same_shape w (car_setup_step rnd A w r0)) as Hstep.
    { destruct (heap w !! r0) as [car |] eqn:Hcar.
      - destruct (car_setup_step_spec rnd A w r0 car Hcar)
          as (car' & Hheap & Hid & _ & _ & F1 & F2 & _ & Hsame).
        destruct (Hsame (Hall r0 car ltac:(by apply elem_of_cons; left) Hcar))
          as (F3 & F4 & Hv).
        split_and!; try done.
        + by rewrite Hheap, length_insert.
        + intros r o Ho. rewrite Hheap.
          destruct (decide (r = r0)) as [-> | Hne].
          * rewrite list_lookup_insert_eq by (by eapply lookup_lt_Some).
            assert (o = car) as -> by congruence. by exists car'.
          * rewrite list_lookup_insert_ne by done. by exists o.
      - rewrite (car_setup_step_dangling rnd A w r0 Hcar).
        apply same_shape_refl. }
    eapply same_shape_trans; [exact Hstep |].
    apply IH. intros r o' Hin Ho'.
    pose proof Hstep as (_ & _ & _ & _ & Hlen & Hobj).
    destruct (heap w !! r) as [o |] eqn:Ho;
      [| apply lookup_ge_None in Ho; apply lookup_lt_Some in Ho'; lia].
    destruct (Hobj r o Ho) as (o2 & Ho2 & _ & Hv).
    assert (o2 = o') as -> by congruence.
    rewrite Hv. apply (Hall r o); [by apply elem_of_cons; right | done].
Qed.

(** The second [updateCars]: nothing leaves the scene, nothing enters. *)
Lemma updateCars_again rnd A w :
  settled A w → same_shape w (updateCars rnd A w).
Proof.
  intros [Q1 Q2]. unfold updateCars.
  set (ids := omap (obj_id (heap w)) (cars w)).
  set (l := filter (λ r, is_car_in_scene A (heap w) r = true)
              (scene_objects w)).
  destruct (retire_scene_loop ids l w) as (_ & _ & _ & _ & _ & _ & R7).
  rewrite R7.
  - apply car_setup_loop_dressed.
    intros r o Hin Ho [Hnone Hlen]. by apply (Q2 Hlen r o).
  - intros r i Hin Hid.
    apply list_elem_of_filter in Hin as [Hcar Hscene].
    destruct (Q1 r Hscene Hcar) as (i' & Hid' & Htr).
    assert (i' = i) as -> by congruence.
    by apply tracked_current.
Qed.

(** C4: the same snapshot applied twice in a row through [getCars] then
    [updateCars].  The second application leaves the list of tracked cars
    and the list of objects of the scene as the first one left them; it
    builds no object (the store keeps its size, every cell its identity),
    retires none (no line on the console) and picks no model. *)
Theorem reconcile_idempotent (rnd : nat → nat) (A : Assets) (w : World)
    (positions : list CarJson) :
  let w1 := updateCars rnd A (run (getCars (Ok positions)) w) in
  let w2 := updateCars rnd A (run (getCars (Ok positions)) w1) in
  cars w2 = cars w1 ∧
  scene_objects w2 = scene_objects w1 ∧
  omap (obj_id (heap w2)) (cars w2) = omap (obj_id (heap w1)) (cars w1) ∧
  length (heap w2) = length (heap w1) ∧
  (∀ r, obj_id (heap w2) r = obj_id (heap w1) r) ∧
  console w2 = console w1 ∧
  draws w2 = draws w1.
Proof.
  intros w1 w2.
  assert (in_step positions w1) as Hstep
    by apply updateCars_in_step, getCars_ok_in_step.
  assert (settled A w1) as Hsettled by apply updateCars_settled.
  assert (same_shape w1 (getCars_ok positions w1)) as Hs1
    by (by apply getCars_ok_again).
  assert (same_shape (getCars_ok positions w1) w2) as Hs2
    by (by apply updateCars_again, (same_shape_settled A w1)).
  pose proof (same_shape_trans _ _ _ Hs1 Hs2) as Hs.
  pose proof (same_shape_ids _ _ Hs) as Hids.
  destruct Hs as (Hcars & Hscene & Hconsole & Hdraws & Hlen & _).
  split_and!; try done.
  rewrite Hcars. by apply omap_obj_id_ext.
Qed.

Lemma foldl_keeps {S X B} (f : S → X → S) (g : S → B) (l : list X) :
  (∀ s x, g (f s x) = g s) → ∀ s, g (foldl f s l) = g s.
Proof.
  intros Hstep. induction l as [| x l IH]; intros s; simpl; [done |].
  by rewrite IH.
Qed.

(** Reconciling the cars leaves the static collections alone. *)
Lemma reconcile_statics (rnd : nat → nat) (A : Assets) (w : World)
    (positions : list CarJson) :
  statics (updateCars rnd A (run (getCars (Ok positions)) w)) = statics w.
Proof.
  unfold updateCars.
  rewrite foldl_keeps, foldl_keeps.
  - change (statics (getCars_ok positions w) = statics w).
    rewrite getCars_ok_loops, foldl_keeps; [done |].
    intros s car.
    destruct (car_step_frame s car) as (F1 & _ & F3 & F4 & _).
    unfold statics. by rewrite F1, F3, F4.
  - intros s r. unfold retire_from_scene.
    destruct (obj_id (heap s) r); [| done]. by case_bool_decide.
  - intros s r. unfold car_setup_step, dress_car.
    repeat case_match; done.
Qed.

(** What one reconciliation guarantees in every state: each tracked car
    carries an identity of the snapshot, each identity of the snapshot is
    tracked, each object of the scene that [updateCars] takes for a car
    (truthy identity, mesh of a car model) carries an identity of the
    snapshot. *)
Lemma reconcile_follows_snapshot (rnd : nat → nat) (A : Assets) (w : World)
    (positions : list CarJson) :
  let w' := updateCars rnd A (run (getCars (Ok positions)) w) in
  (∀ r, r ∈ cars w' →
        ∃ i, obj_id (heap w') r = Some i ∧ i ∈ car_id <$> positions) ∧
  (∀ car, car ∈ positions → tracked w' (car_id car)) ∧
  (∀ r, r ∈ scene_objects w' → is_car_in_scene A (heap w') r = true →
        ∃ i, obj_id (heap w') r = Some i ∧ i ∈ car_id <$> positions).
Proof.
  intros w'.
  assert (in_step positions w') as [Hon Htr]
    by apply updateCars_in_step, getCars_ok_in_step.
  destruct (updateCars_settled rnd A (run (getCars (Ok positions)) w))
    as [Q1 _]. fold w' in Q1.
  assert (∀ r, r ∈ cars w' →
               ∃ i, obj_id (heap w') r = Some i ∧ i ∈ car_id <$> positions)
    as Hcars.
  { intros r Hin. specialize (Hon r Hin). unfold on_server in Hon.
    destruct (obj_id (heap w') r) as [i |]; [| done].
    exists i. split; [done |]. by apply bool_decide_eq_true_1 in Hon. }
  split_and!; try done.
  intros r Hin Hcar. destruct (Q1 r Hin Hcar) as (i & Hid & r' & Hr' & Hid').
  exists i. split; [done |].
  destruct (Hcars r' Hr') as (i' & Hi' & Hpos). congruence.
Qed.

(** C1 fails on the code when [carModels] is empty.  The car of the first
    snapshot enters the scene in [setupObjects], with the mesh of the
    cube.  The next snapshot is empty: [getCars] drops the car from
    [cars], but [updateCars] recognises cars by the mesh of a car model
    and leaves the object in the scene.  A snapshot with a new car tracks
    it and does not add it to the scene. *)
Theorem updateCars_without_models (rnd : nat → nat) :
  cars (first_draw rnd) = [0] ∧
  scene_objects (first_draw rnd) = [0] ∧
  (let w := updateCars rnd cube_only
              (run (getCars (Ok [])) (first_draw rnd)) in
   cars w = [] ∧ scene_objects w = [0] ∧
   obj_id (heap w) 0 = Some "c1") ∧
  (let w := updateCars rnd cube_only
              (run (getCars (Ok [car_at 0 0 (Some "Up");
                                 {| car_id := "c2"; car_x := 3; car_y := 0;
                                    car_z := 3; car_direction := None;
                                    car_futureX := 3; car_futureZ := 3 |}]))
                 (first_draw rnd)) in
   cars w = [0; 1] ∧ scene_objects w = [0] ∧
   obj_id (heap w) 1 = Some "c2").
Proof. cbv zeta. split_and!; reflexivity. Qed.

(** The same with a car model loaded and a car whose identity is the empty
    string: the test [obj.id && ..] of [updateCars] skips it, and it stays
    in the scene after the server has stopped reporting it. *)
Lemma updateCars_falsy_identity :
  let rnd := λ _ : nat, 0 in
  let nameless :=
    {| car_id := ""; car_x := 0; car_y := 0; car_z := 0;
       car_direction := None; car_futureX := 0; car_futureZ := 0 |} in
  let w1 := updateCars rnd one_model
              (run (getCars (Ok [nameless])) empty_world) in
  let w2 := updateCars rnd one_model (run (getCars (Ok [])) w1) in
  scene_objects w1 = [0] ∧ cars w2 = [] ∧ scene_objects w2 = [0].
Proof. cbv zeta. split_and!; reflexivity. Qed.

(** ** The asset cache *)

Lemma empty_loader_wf : loader_wf empty_loader.
Proof. split; simpl; intros; discriminate. Qed.

Lemma cache_get_snoc cache name b h name' b' :
  cache_get (cache ++ [(name, b, h)]) name' b'
  = match cache_get cache name' b' with
    | Some h' => Some h'
    | None => if bool_decide (name = name' ∧ b = b') then Some h else None
    end.
Proof.
  induction cache as [| [[n0 b0] h0] cache IH]; simpl; [done |].
  destruct (bool_decide (n0 = name' ∧ b0 = b')); [done | exact IH].
Qed.

(** A request for a key of the cache: the handle, and nothing else. *)
Lemma preloadModel_hit name b ro rm L h :
  cache_get (modelCache L) name b = Some h →
  preloadModel name b ro rm L = (L, Some h).
Proof. intros Hget. unfold preloadModel. by rewrite Hget. Qed.

(** A request that yields a handle: it was a hit, or the files were read
    and a new object was built at the end of the store. *)
Lemma preloadModel_some name b ro rm L L' h :
  preloadModel name b ro rm L = (L', Some h) →
  (cache_get (modelCache L) name b = Some h ∧ L' = L) ∨
  (cache_get (modelCache L) name b = None ∧
   h = length (models L) ∧
   modelCache L' = modelCache L ++ [(name, b, h)] ∧
   ∃ obj arrays,
     ro = Ok obj ∧
     loadObjWithMtl obj (mtl_text rm) b = Some arrays ∧
     models L' = models L ++ [{| cm_arrays := arrays;
                                 cm_bufferInfo := gpu L;
                                 cm_vao := S (gpu L) |}]).
Proof.
  unfold preloadModel.
  destruct (cache_get (modelCache L) name b) as [h0 |] eqn:Hget.
  - intros [= <- <-]. by left.
  - destruct ro as [| | obj]; try discriminate.
    destruct rm as [| | text]; simpl;
      destruct (loadObjWithMtl obj _ b) as [arrays |] eqn:Hload;
      try discriminate; intros [= <- <-]; right; simpl;
      (split_and!; try done); by exists obj, arrays.
Qed.

(** A request that yields [null] leaves the cache and the store alone. *)
Lemma preloadModel_none name b ro rm L L' :
  preloadModel name b ro rm L = (L', None) →
  modelCache L' = modelCache L ∧ models L' = models L.
Proof.
  unfold preloadModel.
  destruct (cache_get (modelCache L) name b) as [h0 |]; [discriminate |].
  destruct ro as [| | obj]; try (by intros [= <-]).
  destruct rm as [| | text]; simpl;
    destruct (loadObjWithMtl obj _ b); try discriminate;
    by intros [= <-].
Qed.

Lemma preloadModel_success name b ro rm L L' h :
  loader_wf L →
  preloadModel name b ro rm L = (L', Some h) →
  loader_wf L' ∧
  cache_get (modelCache L') name b = Some h ∧
  (∀ name' b' h', cache_get (modelCache L) name' b' = Some h' →
                  cache_get (modelCache L') name' b' = Some h') ∧
  (∀ k m, models L !! k = Some m → models L' !! k = Some m).
Proof.
  intros [Hvalid Hinj] Hload.
  destruct (preloadModel_some _ _ _ _ _ _ _ Hload)
    as [[Hget ->] | (Hget & -> & Hcache & obj & arrays & _ & _ & Hmodels)].
  - by split_and!.
  - assert (∀ name' b' h',
              cache_get (modelCache L') name' b' = Some h' →
              cache_get (modelCache L) name' b' = Some h' ∨
              (name' = name ∧ b' = b ∧ h' = length (models L))) as Hcases.
    { intros name' b' h'. rewrite Hcache, cache_get_snoc.
      destruct (cache_get (modelCache L) name' b') as [h0 |]; [by left |].
      case_bool_decide as Hkey; [| done].
      destruct Hkey as [-> ->]. intros [= <-]. by right. }
    split_and!.
    + split.
      * intros name' b' h' Hget'. rewrite Hmodels, length_app. simpl.
        destruct (Hcases _ _ _ Hget') as [Hold | (_ & _ & ->)]; [| lia].
        specialize (Hvalid _ _ _ Hold). lia.
      * intros n1 c1 n2 c2 h' H1 H2.
        destruct (Hcases _ _ _ H1) as [O1 | (-> & -> & ->)];
          destruct (Hcases _ _ _ H2) as [O2 | (-> & -> & E)].
        -- by eapply Hinj.
        -- subst h'. specialize (Hvalid _ _ _ O1). lia.
        -- specialize (Hvalid _ _ _ O2). lia.
        -- done.
    + rewrite Hcache, cache_get_snoc, Hget.
      by rewrite bool_decide_eq_true_2.
    + intros name' b' h' Hold. by rewrite Hcache, cache_get_snoc, Hold.
    + intros k m Hk. rewrite Hmodels. by apply lookup_app_l_Some.
Qed.

(** The colour of a face vertex: the diffuse colour of the active
    material scaled by the brightness and cut at 1, or the fixed grey. *)
Lemma vertex_color_cases (b : R) :
  (∀ m kd, Kd m = Some kd →
           vertex_color (Some m) b
           = [Rmin 1 (vx kd * b); Rmin 1 (vy kd * b); Rmin 1 (vz kd * b);
              1%R]) ∧
  (∀ m, Kd m = None → vertex_color (Some m) b = [0.6; 0.6; 0.6; 1]%R) ∧
  vertex_color None b = [0.6; 0.6; 0.6; 1]%R.
Proof.
  unfold vertex_color. split_and!; try done; intros; simpl;
    match goal with H : Kd _ = _ |- _ => by rewrite H end.
Qed.

(** Each face vertex that names a vertex adds that colour to the colour
    data, and nothing else does. *)
Lemma face_vert_step_color (b : R) (s s' : ObjState) (vert : FaceVert) :
  face_vert_step b (Some s) vert = Some s' →
  activeMaterial s' = activeMaterial s ∧
  a_color (arrays s')
  = a_color (arrays s) ++
    match fv vert with
    | Some _ => vertex_color (activeMaterial s) b
    | None => []
    end.
Proof.
  unfold face_vert_step. simpl.
  destruct (fv vert) as [v |].
  - destruct (vertices s !! v) as [p |]; simpl; [| done].
    destruct (spread (textures s) (ft vert)) as [t |]; simpl; [| done].
    destruct (spread (normals s) (fn vert)) as [n |]; simpl; [| done].
    by intros [= <-].
  - intros [= <-]. by rewrite app_nil_r.
Qed.

Lemma face_fold_none b (verts : list FaceVert) :
  foldl (face_vert_step b) None verts = None.
Proof. induction verts as [| v verts IH]; [done | exact IH]. Qed.

Lemma obj_fold_none mats b (obj : list obj_line) :
  foldl (obj_step mats b) None obj = None.
Proof. induction obj as [| l obj IH]; [done | exact IH]. Qed.

(** The colours a face adds: one for each of its vertices that names a
    vertex, all of the material that is active. *)
Lemma face_loop_color (b : R) (verts : list FaceVert) :
  ∀ s s',
    foldl (face_vert_step b) (Some s) verts = Some s' →
    activeMaterial s' = activeMaterial s ∧
    a_color (arrays s')
    = a_color (arrays s)
      ++ flat_map (λ m, vertex_color m b)
           ((λ _, activeMaterial s) <$> omap fv verts).
Proof.
  induction verts as [| vert verts IH]; intros s s' Hrun.
  - injection Hrun as <-. by rewrite app_nil_r.
  - cbn [foldl] in Hrun.
    destruct (face_vert_step b (Some s) vert) as [s1 |] eqn:Hstep;
      [| by rewrite face_fold_none in Hrun].
    destruct (face_vert_step_color b s s1 vert Hstep) as [Hm1 Hc1].
    destruct (IH s1 s' Hrun) as [Hm2 Hc2].
    split; [congruence |].
    rewrite Hc2, Hc1, Hm1, <- app_assoc. f_equal.
    cbn [omap list_omap]. destruct (fv vert); [| done].
    cbn [fmap list_fmap flat_map]. done.
Qed.

(** The colour data of a mesh: the colour of the active material for
    each face vertex, in the order of the text. *)
Lemma obj_loop_color (mats : gmap string Material) (b : R)
    (obj : list obj_line) :
  ∀ s s',
    foldl (obj_step mats b) (Some s) obj = Some s' →
    a_color (arrays s')
    = a_color (arrays s)
      ++ flat_map (λ m, vertex_color m b)
           (face_materials mats (activeMaterial s) obj).
Proof.
  induction obj as [| line obj IH]; intros s s' Hrun.
  - injection Hrun as <-. simpl. by rewrite app_nil_r.
  - cbn [foldl] in Hrun.
    destruct (obj_step mats b (Some s) line) as [s1 |] eqn:Hstep;
      [| by rewrite obj_fold_none in Hrun].
    rewrite (IH s1 s' Hrun). clear IH Hrun.
    destruct line as [c | c | c | verts | name |]; cbn in Hstep.
    1-3,6: by injection Hstep as <-.
    + destruct (face_loop_color b verts s s1 Hstep) as [-> ->].
      cbn [face_materials]. by rewrite flat_map_app, app_assoc.
    + cbn [face_materials].
      destruct (mats !! name); by injection Hstep as <-.
Qed.

Lemma loadObjWithMtl_colors (obj : list obj_line)
    (mtl : option (list mtl_line)) (b : R) (arrays : Arrays) :
  loadObjWithMtl obj mtl b = Some arrays →
  a_color arrays
  = flat_map (λ m, vertex_color m b)
      (face_materials (model_materials mtl) None obj).
Proof.
  unfold loadObjWithMtl. fold (model_materials mtl).
  destruct (foldl _ _ obj) as [s' |] eqn:Hrun; [| done].
  intros [= <-]. by rewrite (obj_loop_color _ _ _ _ _ Hrun).
Qed.

(** A call keeps the handles of the cache and the objects of the
    store. *)
Lemma serve_keeps (L : Loader) (q : Request) :
  loader_wf L →
  loader_wf (serve L q) ∧
  (∀ name b h, cache_get (modelCache L) name b = Some h →
               cache_get (modelCache (serve L q)) name b = Some h) ∧
  (∀ k m, models L !! k = Some m → models (serve L q) !! k = Some m).
Proof.
  intros Hwf. unfold serve.
  destruct (preloadModel (rq_name q) (rq_brightness q) (rq_obj q)
              (rq_mtl q) L) as [L' [h |]] eqn:Hcall; simpl.
  - destruct (preloadModel_success _ _ _ _ _ _ _ Hwf Hcall)
      as (Hwf' & _ & Hmono & Hkeep).
    by split_and!.
  - destruct (preloadModel_none _ _ _ _ _ _ Hcall) as [Hc Hm].
    unfold loader_wf. rewrite Hc, Hm.
    split_and!; [apply Hwf | apply Hwf | done | done].
Qed.

Lemma serve_loop_keeps (requests : list Request) :
  ∀ L, loader_wf L →
    loader_wf (foldl serve L requests) ∧
    (∀ name b h, cache_get (modelCache L) name b = Some h →
                 cache_get (modelCache (foldl serve L requests)) name b
                 = Some h) ∧
    (∀ k m, models L !! k = Some m →
            models (foldl serve L requests) !! k = Some m).
Proof.
  induction requests as [| q requests IH]; intros L Hwf; simpl.
  - by split_and!.
  - destruct (serve_keeps L q Hwf) as (Hwf1 & Hmono1 & Hkeep1).
    destruct (IH (serve L q) Hwf1) as (Hwf2 & Hmono2 & Hkeep2).
    split_and!; [done | |].
    + intros name b h Hget. by apply Hmono2, Hmono1.
    + intros k m Hk. by apply Hkeep2, Hkeep1.
Qed.

(** C6, as the code has it.  A request that yields a handle caches it.
    Whatever is requested afterwards, every later request for the same
    name and brightness, whatever the server would answer, returns that
    handle and leaves the module as it is (no file is read, no object is
    built), [getCachedModel] finds it, and the object behind the handle
    is the one that was built.  A later request for the same name with
    another brightness that yields a handle yields a different one.
    When the first request was not answered from the cache, the object
    holds the arrays [loadObjWithMtl] made of the two files, and their
    colour data are, for each face vertex in the order of the text, the
    diffuse colour of the active material times the brightness, cut at 1
    on each channel, or the grey 0.6 when no diffuse colour is active.
    A request that yields [null] leaves the cache and the store as they
    were: the key is still unknown. *)
Theorem asset_cache_handles (L L1 L2 : Loader) (name : string) (b1 b2 : R)
    (ro1 ro2 : response (list obj_line)) (rm1 rm2 : response (list mtl_line))
    (h1 h2 : nat) (requests : list Request) :
  loader_wf empty_loader ∧
  (loader_wf L →
   preloadModel name b1 ro1 rm1 L = (L1, Some h1) →
   let L' := foldl serve L1 requests in
   loader_wf L' ∧
   (∀ ro rm, preloadModel name b1 ro rm L' = (L', Some h1)) ∧
   getCachedModel name b1 L' = Some h1 ∧
   is_Some (models L1 !! h1) ∧
   models L' !! h1 = models L1 !! h1 ∧
   (∀ k m, models L !! k = Some m → models L' !! k = Some m) ∧
   (b1 ≠ b2 → preloadModel name b2 ro2 rm2 L' = (L2, Some h2) →
    h1 ≠ h2 ∧ models L2 !! h1 = models L1 !! h1) ∧
   (getCachedModel name b1 L = None →
    ∃ obj arrays,
      ro1 = Ok obj ∧
      loadObjWithMtl obj (mtl_text rm1) b1 = Some arrays ∧
      h1 = length (models L) ∧
      cm_arrays <$> models L1 !! h1 = Some arrays ∧
      a_color arrays
      = flat_map (λ m, vertex_color m b1)
          (face_materials (model_materials (mtl_text rm1)) None obj)) ∧
   (∀ n b ro rm Lf,
      preloadModel n b ro rm L' = (Lf, None) →
      modelCache Lf = modelCache L' ∧ models Lf = models L' ∧
      getCachedModel n b Lf = None)) ∧
  (∀ m kd, Kd m = Some kd →
           vertex_color (Some m) b1
           = [Rmin 1 (vx kd * b1); Rmin 1 (vy kd * b1); Rmin 1 (vz kd * b1);
              1%R]) ∧
  (∀ m, Kd m = None → vertex_color (Some m) b1 = [0.6; 0.6; 0.6; 1]%R) ∧
  vertex_color None b1 = [0.6; 0.6; 0.6; 1]%R.
Proof.
  destruct (vertex_color_cases b1) as (V1 & V2 & V3).
  split; [exact empty_loader_wf |]. split; [| by split_and!].
  intros Hwf Hfirst L'.
  destruct (preloadModel_success _ _ _ _ _ _ _ Hwf Hfirst)
    as (Hwf1 & Hget1 & _ & Hkeep1).
  destruct (serve_loop_keeps requests L1 Hwf1) as (Hwf' & Hmono' & Hkeep').
  fold L' in Hwf', Hmono', Hkeep'.
  pose proof (Hmono' _ _ _ Hget1) as Hget'.
  assert (is_Some (models L1 !! h1)) as [m1 Hm1].
  { apply lookup_lt_is_Some_2. destruct Hwf1 as [Hvalid _].
    by eapply Hvalid. }
  split_and!; try done.
  - intros ro rm. by apply preloadModel_hit.
  - by rewrite Hm1, (Hkeep' _ _ Hm1).
  - intros k m Hk. by apply Hkeep', Hkeep1.
  - intros Hne Hsecond.
    destruct (preloadModel_success _ _ _ _ _ _ _ Hwf' Hsecond)
      as ([_ Hinj2] & Hget2 & Hmono & Hkeep2).
    split.
    + intros ->.
      destruct (Hinj2 name b1 name b2 h2); [by apply Hmono | done |].
      done.
    + by rewrite Hm1, (Hkeep2 _ _ (Hkeep' _ _ Hm1)).
  - intros Hmiss. unfold getCachedModel in Hmiss.
    destruct (preloadModel_some _ _ _ _ _ _ _ Hfirst)
      as [[Hget _] | (_ & -> & _ & obj & arrays & -> & Hload & Hmodels)];
      [congruence |].
    exists obj, arrays. split_and!; try done.
    + rewrite Hmodels, list_lookup_middle; done.
    + by apply loadObjWithMtl_colors.
  - intros n b ro rm Lf Hfail.
    destruct (preloadModel_none _ _ _ _ _ _ Hfail) as [Hc Hm].
    split_and!; try done.
    unfold getCachedModel. rewrite Hc.
    unfold preloadModel in Hfail.
    by destruct (cache_get (modelCache L') n b).
Qed.

Lemma plain_load (b : R) :
  loadObjWithMtl plain_obj None b
  = Some {| a_position := [1; 2; 3]%R; a_color := [0.6; 0.6; 0.6; 1]%R;
            a_normal := []; a_texCoord := [] |}.
Proof. reflexivity. Qed.

Lemma white_load (b : R) :
  loadObjWithMtl white_obj (Some white_mtl) b
  = Some {| a_position := [1; 2; 3]%R;
            a_color := [Rmin 1 (1 * b); Rmin 1 (1 * b); Rmin 1 (1 * b); 1]%R;
            a_normal := []; a_texCoord := [] |}.
Proof. reflexivity. Qed.

Lemma asset_cache_handles_witness :
  ∃ L1 h1,
    preloadModel "car" 1 (Ok plain_obj) NotOk empty_loader = (L1, Some h1) ∧
    ∀ ro rm, preloadModel "car" 1 ro rm L1 = (L1, Some h1).
Proof.
  exists (fst (preloadModel "car" 1 (Ok plain_obj) NotOk empty_loader)), 0.
  split; [reflexivity |].
  exact (proj1 (proj2 (proj1 (proj2
           (asset_cache_handles empty_loader
              (fst (preloadModel "car" 1 (Ok plain_obj) NotOk
                      empty_loader))
              empty_loader "car" 1 2
              (Ok plain_obj) (Ok plain_obj) NotOk NotOk 0 0 []))
           empty_loader_wf eq_refl))).
Defined.

(** C6 as stated fails on its last part: the two handles differ, the
    colour data need not.  Without material every vertex is grey whatever
    the brightness; with a white material the products 1 * 1 and 1 * 1.5
    are both cut at 1. *)
Lemma brightness_same_colors :
  preloadModel "car" 1 (Ok plain_obj) NotOk empty_loader
  = (loaded_once, Some 0) ∧
  preloadModel "car" 1.5 (Ok plain_obj) NotOk loaded_once
  = (loaded_twice, Some 1) ∧
  (∃ m1 m2,
     models loaded_twice !! 0 = Some m1 ∧
     models loaded_twice !! 1 = Some m2 ∧
     a_color (cm_arrays m1) = a_color (cm_arrays m2)) ∧
  ∃ arrays1 arrays2,
    loadObjWithMtl white_obj (Some white_mtl) 1 = Some arrays1 ∧
    loadObjWithMtl white_obj (Some white_mtl) 1.5 = Some arrays2 ∧
    a_color arrays1 = a_color arrays2.
Proof.
  split; [reflexivity |].
  unfold loaded_twice.
  destruct (preloadModel "car" 1.5 (Ok plain_obj) NotOk loaded_once)
    as [L2 r] eqn:E.
  unfold preloadModel in E. simpl in E.
  rewrite bool_decide_eq_false_2 in E by (intros [_ H]; lra).
  injection E as <- <-.
  split; [reflexivity |]. split.
  - eexists _, _. split_and!; reflexivity.
  - eexists _, _. rewrite !white_load. split; [reflexivity |].
    split; [reflexivity |]. simpl.
    assert (Rmin 1 (1 * 1) = Rmin 1 (1 * 1.5))%R as ->; [| done].
    unfold Rmin. repeat destruct (Rle_dec _ _); lra.
Qed.

(** ** More of the client: the order of the tracked cars, the lines of
    the retiring loop, the two samples of a car *)

Lemma find_by_id_app h l1 l2 i :
  find_by_id h (l1 ++ l2) i
  = match find_by_id h l1 i with
    | Some r => Some r
    | None => find_by_id h l2 i
    end.
Proof.
  induction l1 as [| r l1 IH]; simpl; [done |].
  by case_bool_decide.
Qed.

(** Retiring the cars the server no longer reports does not change which
    car answers to a reported identity. *)
Lemma find_by_id_filter ids h cs i :
  i ∈ ids →
  find_by_id h (filter (λ r, on_server ids h r = true) cs) i
  = find_by_id h cs i.
Proof.
  intros Hin. induction cs as [| r cs IH]; simpl; [done |].
  rewrite filter_cons.
  destruct (on_server ids h r) eqn:Hon.
  - rewrite decide_True by done. simpl.
    case_bool_decide; [done | exact IH].
  - rewrite decide_False by done.
    rewrite bool_decide_eq_false_2; [exact IH |].
    intros Hid. unfold on_server in Hon. rewrite Hid in Hon.
    by rewrite bool_decide_eq_true_2 in Hon.
Qed.

Lemma after_retire_valid positions w : valid_refs (after_retire positions w).
Proof.
  intros r Hin. simpl in *.
  apply list_elem_of_filter in Hin as [Hon _].
  unfold on_server, obj_id in Hon.
  destruct (heap w !! r) as [o |] eqn:Ho; [| done].
  by eapply lookup_lt_Some.
Qed.

Lemma car_step_valid w car : valid_refs w → valid_refs (car_step w car).
Proof.
  intros Hvalid r Hin.
  destruct (car_step_cases w car) as [(r0 & cur & _ & _ & E) | [_ E]];
    rewrite E in *; simpl in *.
  - rewrite length_insert. by apply Hvalid.
  - rewrite length_app. simpl.
    apply elem_of_app in Hin as [Hin | Hin].
    + apply Hvalid in Hin. lia.
    + apply list_elem_of_singleton in Hin as ->. lia.
Qed.

Lemma car_loop_valid (positions : list CarJson) :
  ∀ w, valid_refs w → valid_refs (foldl car_step w positions).
Proof.
  induction positions as [| car positions IH]; intros w Hvalid; simpl;
    [done |].
  by apply IH, car_step_valid.
Qed.

(** A report of another identity does not change which car answers to
    [i]. *)
Lemma car_step_find_other w car i :
  valid_refs w → car_id car ≠ i →
  find_by_id (heap (car_step w car)) (cars (car_step w car)) i
  = find_by_id (heap w) (cars w) i.
Proof.
  intros Hvalid Hne.
  assert (∀ refs, (∀ r, r ∈ refs → r < length (heap w)) →
            find_by_id (heap (car_step w car)) refs i
            = find_by_id (heap w) refs i) as Hold.
  { induction refs as [| r refs IH]; intros Hrefs; simpl; [done |].
    rewrite car_step_ids by (apply Hrefs, elem_of_cons; by left).
    rewrite IH; [done |].
    intros r' Hin. apply Hrefs, elem_of_cons. by right. }
  destruct (car_step_cases w car) as [(r0 & cur & _ & _ & E) | [_ E]].
  - rewrite E at 2. simpl. by apply Hold.
  - rewrite E at 2. simpl. rewrite find_by_id_app, (Hold _ Hvalid).
    destruct (find_by_id (heap w) (cars w) i); [done |].
    rewrite E. simpl.
    rewrite bool_decide_eq_false_2; [done |].
    unfold obj_id. rewrite lookup_app_r by lia.
    rewrite Nat.sub_diag. simpl. intros [= H]. done.
Qed.

Lemma car_loop_find_other (positions : list CarJson) i :
  ∀ w, valid_refs w → i ∉ car_id <$> positions →
       find_by_id (heap (foldl car_step w positions))
         (cars (foldl car_step w positions)) i
       = find_by_id (heap w) (cars w) i.
Proof.
  induction positions as [| car positions IH]; intros w Hvalid Hout; simpl;
    [done |].
  rewrite fmap_cons in Hout. apply not_elem_of_cons in Hout as [Hne Hout].
  rewrite IH by (by try apply car_step_valid).
  by apply car_step_find_other.
Qed.

(** The second loop of [getCars] only appends: the new cars follow the
    cars that were tracked, with the references of the cells it adds to
    the store. *)
Lemma car_loop_order (positions : list CarJson) :
  ∀ w, ∃ k,
    k ≤ length positions ∧
    cars (foldl car_step w positions) = cars w ++ seq (length (heap w)) k ∧
    length (heap (foldl car_step w positions)) = length (heap w) + k.
Proof.
  induction positions as [| car positions IH]; intros w; simpl.
  - exists 0. simpl. rewrite app_nil_r. split_and!; [done | done | lia].
  - destruct (IH (car_step w car)) as (k & Hk & Hcars & Hlen).
    destruct (car_step_cases w car) as [(r0 & cur & _ & _ & E) | [_ E]];
      rewrite E in *; simpl in *.
    + exists k. rewrite length_insert in *. split_and!; [lia | done | done].
    + exists (S k). rewrite length_app in *. simpl in *.
      rewrite Hcars, <- app_assoc. simpl.
      replace (length (heap w) + 1) with (S (length (heap w))) by lia.
      split_and!; [lia | done | lia].
Qed.

Lemma retire_loop_lines ids h :
  ∀ i cs out,
    i ≤ length cs →
    snd (retire_loop ids h i cs out)
    = out ++ omap (retire_line ids h) (reverse (take i cs)).
Proof.
  induction i as [| i IH]; intros cs out Hi; simpl.
  - by rewrite app_nil_r.
  - destruct (cs !! i) as [r |] eqn:Hr;
      [| apply lookup_ge_None in Hr; lia].
    rewrite (take_S_r _ _ _ Hr), reverse_snoc.
    assert (i ≤ length (delete i cs)) as Hdel
      by (rewrite length_delete by (by eexists); lia).
    assert (take i (delete i cs) = take i cs) as Htake.
    { rewrite <- (take_drop_middle cs i r Hr) at 1.
      assert (length (take i cs) = i) as Hlen by (rewrite length_take; lia).
      rewrite <- Hlen at 1 2.
      rewrite delete_middle, take_app_length. done. }
    change (omap (retire_line ids h) (r :: reverse (take i cs)))
      with (match retire_line ids h r with
            | Some l => l :: omap (retire_line ids h) (reverse (take i cs))
            | None => omap (retire_line ids h) (reverse (take i cs))
            end).
    unfold retire_line at 1.
    destruct (obj_id h r) as [ident |].
    + case_bool_decide.
      * by apply IH; lia.
      * rewrite IH, Htake, <- app_assoc by done. done.
    + rewrite IH, Htake by done. done.
Qed.
(** After an answered [getCars], from any state, the identities of the
    tracked cars are exactly the identities of the snapshot. *)
Theorem getCars_tracks_the_snapshot (w : World) (positions : list CarJson)
    (i : string) :
  tracked (run (getCars (Ok positions)) w) i ↔ i ∈ car_id <$> positions.
Proof.
  assert (run (getCars (Ok positions)) w = getCars_ok positions w) as ->
    by reflexivity.
  destruct (getCars_ok_in_step positions w) as [Hon Htr].
  split.
  - intros (r & Hin & Hid). specialize (Hon r Hin).
    unfold on_server in Hon. rewrite Hid in Hon.
    by apply bool_decide_eq_true_1 in Hon.
  - intros Hin. apply list_elem_of_fmap in Hin as (car & -> & Hin).
    by apply Htr.
Qed.


(** The console after [getCars]: one line for each car that is retired,
    the car tracked last first, and no other line. *)
Theorem getCars_retire_lines (w : World) (positions : list CarJson) :
  console (run (getCars (Ok positions)) w)
  = console w
    ++ omap (retire_line (car_id <$> positions) (heap w)) (reverse (cars w)).
Proof.
  assert (run (getCars (Ok positions)) w = getCars_ok positions w) as ->
    by reflexivity.
  rewrite getCars_ok_loops.
  rewrite (foldl_keeps car_step console)
    by (intros s x; apply (car_step_frame s x)).
  simpl. rewrite retire_loop_lines by done.
  by rewrite firstn_all.
Qed.

(** A tracked car that the snapshot reports once is refreshed once, in
    its cell. *)
Lemma getCars_ok_refresh (w : World) (positions : list CarJson)
    (car : CarJson) (r : nat) (cur : Object3D) :
  sole_report positions car →
  find_by_id (heap w) (cars w) (car_id car) = Some r →
  heap w !! r = Some cur →
  r ∈ cars (getCars_ok positions w) ∧
  heap (getCars_ok positions w) !! r = Some (refresh_car car cur).
Proof.
  intros (before & after & -> & Hbefore & Hafter) Hfind Hcur.
  rewrite getCars_ok_loops.
  set (positions := before ++ car :: after).
  set (w0 := after_retire positions w).
  assert (find_by_id (heap w0) (cars w0) (car_id car) = Some r) as Hfind0.
  { simpl. rewrite find_by_id_filter; [done |].
    apply list_elem_of_fmap_2, elem_of_app. right. apply elem_of_cons.
    by left. }
  assert (valid_refs w0) as Hvalid0 by apply after_retire_valid.
  unfold positions. rewrite foldl_app. simpl.
  set (w1 := foldl car_step w0 before).
  assert (valid_refs w1) as Hvalid1 by (by apply car_loop_valid).
  assert (find_by_id (heap w1) (cars w1) (car_id car) = Some r) as Hfind1
    by (unfold w1; by rewrite car_loop_find_other).
  destruct (find_by_id_elem _ _ _ _ Hfind0) as [Hin0 _].
  destruct (car_loop_other before w0 r cur) as [Hcur1 Hin1]; [done.. | |].
  { destruct (find_by_id_elem _ _ _ _ Hfind) as [_ Hid].
    unfold obj_id in Hid. rewrite Hcur in Hid. simpl in Hid.
    injection Hid as ->. done. }
  fold w1 in Hcur1, Hin1.
  destruct (car_step_heap w1 car r cur Hcur1) as (o' & Ho' & Hid' & _ & Hup & _).
  rewrite (Hup Hfind1) in *.
  destruct (car_loop_other after (car_step w1 car) r (refresh_car car cur))
    as [Hend Hinend]; [done | by apply car_step_tracked | |].
  { simpl. destruct (find_by_id_elem _ _ _ _ Hfind) as [_ Hid].
    unfold obj_id in Hid. rewrite Hcur in Hid. simpl in Hid.
    injection Hid as ->. done. }
  by split.
Qed.



(** The first sample of a car: when the snapshot reports once an identity
    that is not tracked, the call builds one car for it in a new cell of
    the store; both samples of the car are the reported position, and it
    has no mesh yet. *)
Theorem getCars_first_sample (w : World) (positions : list CarJson)
    (car : CarJson) :
  sole_report positions car →
  find_by_id (heap w) (cars w) (car_id car) = None →
  let w' := run (getCars (Ok positions)) w in
  ∃ r, r ∈ cars w' ∧ length (heap w) ≤ r ∧
       heap w' !! r = Some (fresh_car car) ∧
       oldPosArray (fresh_car car) = Some (position (fresh_car car)) ∧
       position (fresh_car car) = (car_x car, car_y car, car_z car) ∧
       vao (fresh_car car) = None.
Proof.
  intros (before & after & -> & Hbefore & Hafter) Hfind w'.
  assert (w' = getCars_ok (before ++ car :: after) w) as -> by reflexivity.
  rewrite getCars_ok_loops.
  set (positions := before ++ car :: after).
  set (w0 := after_retire positions w).
  assert (find_by_id (heap w0) (cars w0) (car_id car) = None) as Hfind0.
  { simpl. rewrite find_by_id_filter; [done |].
    apply list_elem_of_fmap_2, elem_of_app. right. apply elem_of_cons.
    by left. }
  assert (valid_refs w0) as Hvalid0 by apply after_retire_valid.
  unfold positions. rewrite foldl_app. simpl.
  set (w1 := foldl car_step w0 before).
  assert (find_by_id (heap w1) (cars w1) (car_id car) = None) as Hfind1
    by (unfold w1; by rewrite car_loop_find_other).
  destruct (car_loop_order before w0) as (k & _ & _ & Hlen1). fold w1 in Hlen1.
  destruct (car_step_cases w1 car) as [(r0 & ? & E & _) | [_ E]];
    [congruence |].
  exists (length (heap w1)).
  destruct (car_loop_other after (car_step w1 car) (length (heap w1))
              (fresh_car car)) as [Hend Hinend].
  - rewrite E. simpl. rewrite lookup_app_r by lia.
    by rewrite Nat.sub_diag.
  - rewrite E. simpl. apply elem_of_app. right.
    by apply list_elem_of_singleton.
  - done.
  - split_and!; try done. rewrite Hlen1. simpl. lia.
Qed.

Lemma getCars_first_sample_witness :
  ∃ r, heap (run (getCars (Ok [car_at 0 0 (Some "Up")])) empty_world) !! r
       = Some (fresh_car (car_at 0 0 (Some "Up"))).
Proof.
  destruct (getCars_first_sample empty_world [car_at 0 0 (Some "Up")]
              (car_at 0 0 (Some "Up"))) as (r & _ & _ & Hr & _).
  - exists [], []. split_and!; [reflexivity | apply not_elem_of_nil..].
  - reflexivity.
  - by exists r.
Defined.
(** ** The loops that only append *)

Lemma append_loop {X} (mk : X → Object3D) (get : World → list nat)
    (step : World → X → World) :
  (∀ w x, heap (step w x) = heap w ++ [mk x]) →
  (∀ w x, get (step w x) = get w ++ [length (heap w)]) →
  ∀ l w,
    heap (foldl step w l) = heap w ++ (mk <$> l) ∧
    get (foldl step w l) = get w ++ seq (length (heap w)) (length l).
Proof.
  intros Hheap Hget. induction l as [| x l IH]; intros w; simpl.
  - by rewrite !app_nil_r.
  - destruct (IH (step w x)) as [-> ->].
    rewrite Hheap, Hget, length_app, <- !app_assoc. simpl.
    by replace (length (heap w) + 1) with (S (length (heap w))) by lia.
Qed.

(** The three static collections are filled by appending: each entry of
    the answer becomes one new object at the end of the store and of the
    collection, in the order of the answer, whatever the collection held.
    Identities are not compared: a second call adds every cell again. *)
Theorem static_collections_append (w : World) (positions : list CellJson) :
  let n := length (heap w) in
  let k := length positions in
  (heap (run (getObstacles (Ok positions)) w)
   = heap w ++ (cell_object (0.3, 0.3, 0.3, 1)%R <$> positions) ∧
   obstacles (run (getObstacles (Ok positions)) w)
   = obstacles w ++ seq n k) ∧
  (heap (run (getRoads (Ok positions)) w)
   = heap w ++ ((λ road, set_direction (cell_direction road)
                           (cell_object (0.6, 0.6, 0.6, 1)%R road))
                <$> positions) ∧
   roads (run (getRoads (Ok positions)) w) = roads w ++ seq n k) ∧
  (heap (run (getDestinations (Ok positions)) w)
   = heap w ++ (cell_object green <$> positions) ∧
   destinations (run (getDestinations (Ok positions)) w)
   = destinations w ++ seq n k).
Proof.
  intros n k.
  split_and!.
  - apply (append_loop (cell_object (0.3, 0.3, 0.3, 1)%R) obstacles); done.
  - apply (append_loop (cell_object (0.3, 0.3, 0.3, 1)%R) obstacles); done.
  - apply (append_loop
             (λ road, set_direction (cell_direction road)
                        (cell_object (0.6, 0.6, 0.6, 1)%R road)) roads); done.
  - apply (append_loop
             (λ road, set_direction (cell_direction road)
                        (cell_object (0.6, 0.6, 0.6, 1)%R road)) roads); done.
  - apply (append_loop (cell_object green) destinations); done.
  - apply (append_loop (cell_object green) destinations); done.
Qed.

(** The first answer of [getTrafficLights]: on an empty collection every
    entry becomes a tracked light, in the order of the answer, two entries
    of one identity included. *)
Theorem getTrafficLights_first_answer (w : World)
    (positions : list LightJson) :
  trafficLights w = [] →
  let w' := run (getTrafficLights (Ok positions)) w in
  heap w' = heap w ++ (fresh_light <$> positions) ∧
  trafficLights w' = seq (length (heap w)) (length positions).
Proof.
  intros Hempty w'.
  assert (w' = getTrafficLights_ok positions w) as -> by reflexivity.
  unfold getTrafficLights_ok. rewrite Hempty. simpl.
  destruct (append_loop fresh_light trafficLights
              (λ w light,
                 set_trafficLights (trafficLights w ++ [length (heap w)])
                   (set_heap (heap w ++ [fresh_light light]) w))
              ltac:(done) ltac:(done) positions w) as [-> ->].
  by rewrite Hempty.
Qed.

Lemma getTrafficLights_first_answer_witness :
  trafficLights twin_lights = [0; 1].
Proof.
  refine (proj2 (getTrafficLights_first_answer empty_world
                   [light_at "l1" true; light_at "l1" true] _)).
  reflexivity.
Defined.

Lemma light_loop_shadowed (positions : list LightJson) :
  ∀ w r o,
    heap w !! r = Some o →
    find_by_id (heap w) (trafficLights w) (id o) ≠ Some r →
    heap (foldl light_step w positions) !! r = Some o.
Proof.
  induction positions as [| light positions IH]; intros w r o Ho Hshadow;
    simpl; [done |].
  destruct (light_step_heap w light r o Ho) as (o' & Ho' & _ & _ & Hsame).
  destruct (light_step_frame w light) as (Hl & _).
  rewrite Hsame in Ho'.
  - apply IH; [done |].
    rewrite Hl, (find_by_id_ext (heap w)) by apply light_step_ids. done.
  - intros Hfind. apply Hshadow.
    destruct (find_by_id_elem _ _ _ _ Hfind) as [_ Hid].
    unfold obj_id in Hid. rewrite Ho in Hid. simpl in Hid.
    injection Hid as Hid. by rewrite Hid.
Qed.

(** A light that is not the first of its identity in the collection is
    never updated: once the collection is populated, no sequence of calls
    of [getTrafficLights] changes it, whatever the server answers.  The
    same holds of every object that is not a tracked light. *)
Theorem shadowed_light_never_updated (w : World)
    (answers : list (response (list LightJson))) (r : nat) (o : Object3D) :
  trafficLights w ≠ [] →
  heap w !! r = Some o →
  find_by_id (heap w) (trafficLights w) (id o) ≠ Some r →
  heap (foldl (λ w a, run (getTrafficLights a) w) w answers) !! r = Some o.
Proof.
  revert w. induction answers as [| a answers IH]; intros w Hne Ho Hshadow;
    simpl; [done |].
  destruct (getTrafficLights_populated w a Hne) as (Hl & _ & _ & _ & Hsig & _).
  assert (∀ ref, obj_id (heap (run (getTrafficLights a) w)) ref
                 = obj_id (heap w) ref) as Hids.
  { intros ref. unfold obj_id. destruct (heap w !! ref) as [x |] eqn:Hx.
    - destruct (Hsig ref x Hx) as (x' & -> & Hs). simpl. f_equal.
      by apply same_but_signal_id.
    - destruct (getTrafficLights_populated w a Hne) as (_ & _ & _ & Hlen & _).
      apply lookup_ge_None in Hx.
      rewrite (proj2 (lookup_ge_None _ _)); [done | lia]. }
  apply IH.
  - by rewrite Hl.
  - destruct a as [| | positions]; [done | done |].
    assert (run (getTrafficLights (Ok positions)) w
            = getTrafficLights_ok positions w) as -> by reflexivity.
    unfold getTrafficLights_ok.
    rewrite bool_decide_eq_false_2 by (by destruct (trafficLights w)).
    by apply light_loop_shadowed.
  - by rewrite Hl, (find_by_id_ext (heap w)).
Qed.

Lemma shadowed_light_never_updated_witness :
  heap (run (getTrafficLights (Ok [light_at "l1" false])) twin_lights) !! 1
  = Some (fresh_light (light_at "l1" true)).
Proof.
  refine (shadowed_light_never_updated twin_lights
            [Ok [light_at "l1" false]] 1 (fresh_light (light_at "l1" true))
            _ _ _).
  - simpl. discriminate.
  - reflexivity.
  - simpl. discriminate.
Defined.
(** ** What a poll leaves alone *)

Lemma car_step_side w car : scene_side (car_step w car) = scene_side w.
Proof.
  by destruct (car_step_cases w car) as [(r & cur & _ & _ & ->) | [_ ->]].
Qed.

Lemma getCars_ok_side positions w :
  scene_side (getCars_ok positions w) = scene_side w.
Proof.
  rewrite getCars_ok_loops.
  by rewrite (foldl_keeps car_step scene_side) by apply car_step_side.
Qed.

Lemma light_step_side w light :
  scene_side (light_step w light) = scene_side w ∧
  cars (light_step w light) = cars w.
Proof.
  unfold light_step.
  destruct (find_by_id _ _ _) as [r |]; [| done].
  by destruct (heap w !! r).
Qed.

Lemma getTrafficLights_ok_side positions w :
  scene_side (getTrafficLights_ok positions w) = scene_side w ∧
  cars (getTrafficLights_ok positions w) = cars w.
Proof.
  unfold getTrafficLights_ok. case_bool_decide.
  - split.
    + by rewrite (foldl_keeps _ scene_side).
    + by rewrite (foldl_keeps _ cars).
  - split.
    + by rewrite (foldl_keeps light_step scene_side)
        by (intros s x; apply light_step_side).
    + by rewrite (foldl_keeps light_step cars)
        by (intros s x; apply light_step_side).
Qed.

Lemma getCars_side rc w : scene_side (run (getCars rc) w) = scene_side w.
Proof. destruct rc as [| | positions]; try done. apply getCars_ok_side. Qed.

Lemma getTrafficLights_side rl w :
  scene_side (run (getTrafficLights rl) w) = scene_side w ∧
  cars (run (getTrafficLights rl) w) = cars w.
Proof.
  destruct rl as [| | lights]; try done. apply getTrafficLights_ok_side.
Qed.

(** An answered [update] is [getCars] followed by [getTrafficLights]. *)
Lemma update_runs w rc rl :
  run (update (Ok tt) rc rl) w
  = run (getTrafficLights rl) (run (getCars rc) w).
Proof. by destruct rc, rl. Qed.

(** A poll of the server never touches the scene: whatever the three
    answers, [update] leaves the static collections, the list of objects
    of the scene, the register of signal cubes and the count of random
    draws as they were, and the cars it tracks afterwards are those
    [getCars] alone would track.  New cars enter the scene in
    [updateCars] only. *)
Theorem update_leaves_scene (w : World) (r : response unit)
    (rc : response (list CarJson)) (rl : response (list LightJson)) :
  scene_side (run (update r rc rl) w) = scene_side w ∧
  cars (run (update (Ok tt) rc rl) w) = cars (run (getCars rc) w).
Proof.
  rewrite update_runs.
  destruct (getTrafficLights_side rl (run (getCars rc) w)) as [Hside ->].
  split; [| done].
  destruct r as [| | []]; [done | done |].
  rewrite update_runs, Hside. apply getCars_side.
Qed.
(** ** Signals: the tracked lights and their cubes *)

Lemma omap_elem_ext {X Y} (f g : X → option Y) (l : list X) :
  (∀ x, x ∈ l → f x = g x) → omap f l = omap g l.
Proof.
  induction l as [| a l IH]; intros H; [done |]. cbn.
  rewrite (H a) by (by apply elem_of_cons; left).
  rewrite IH; [done |]. intros x Hx. apply H. by apply elem_of_cons; right.
Qed.

Lemma omap_NoDup_inj {X Y} (f : X → option Y) (l : list X) x y b :
  NoDup (omap f l) → x ∈ l → y ∈ l → f x = Some b → f y = Some b → x = y.
Proof.
  induction l as [| a l IH]; intros Hnd Hx Hy Hfx Hfy.
  - by apply elem_of_nil in Hx.
  - cbn in Hnd.
    assert (∀ z, z ∈ l → f z = Some b → b ∈ omap f l) as Hmem.
    { intros z Hz Hfz. apply list_elem_of_omap. by exists z. }
    apply elem_of_cons in Hx as [-> | Hx];
      apply elem_of_cons in Hy as [-> | Hy].
    + done.
    + rewrite Hfx in Hnd. apply NoDup_cons in Hnd as [Hn _].
      destruct Hn. by apply (Hmem y).
    + rewrite Hfy in Hnd. apply NoDup_cons in Hnd as [Hn _].
      destruct Hn. by apply (Hmem x).
    + apply IH; try done.
      destruct (f a); [by apply NoDup_cons in Hnd as [_ ?] | done].
Qed.

Lemma painted_shows st cube : painted st cube ↔ shows st cube.
Proof. unfold painted, shows. by destruct st. Qed.

Lemma signals_wf_empty : signals_wf empty_world.
Proof.
  split_and!.
  - intros r Hr. by apply elem_of_nil in Hr.
  - apply NoDup_nil_2.
  - intros i s Hs. cbn in Hs. by rewrite lookup_empty in Hs.
  - intros i j s Hs. cbn in Hs. by rewrite lookup_empty in Hs.
Qed.

(** A step that keeps the collection, the register, the size of the
    store and the identities keeps the invariant. *)
Lemma signals_wf_same w w' :
  trafficLights w' = trafficLights w →
  trafficLightSpheres w' = trafficLightSpheres w →
  length (heap w') = length (heap w) →
  (∀ r, obj_id (heap w') r = obj_id (heap w) r) →
  signals_wf w → signals_wf w'.
Proof.
  intros Hl Hs Hlen Hid (W1 & W2 & W3 & W4).
  unfold signals_wf. rewrite Hl, Hs, Hlen.
  split_and!; try done.
  by rewrite (omap_elem_ext _ (obj_id (heap w))) by (intros; apply Hid).
Qed.

(** The first answer: one new light per entry, nothing else touched. *)
Lemma first_answer_lights (positions : list LightJson) (w : World) :
  trafficLights w = [] →
  heap (getTrafficLights_ok positions w)
  = heap w ++ (fresh_light <$> positions) ∧
  trafficLights (getTrafficLights_ok positions w)
  = seq (length (heap w)) (length positions) ∧
  trafficLightSpheres (getTrafficLights_ok positions w)
  = trafficLightSpheres w ∧
  scene_objects (getTrafficLights_ok positions w) = scene_objects w.
Proof.
  intros Hempty. unfold getTrafficLights_ok. rewrite Hempty. simpl.
  destruct (append_loop fresh_light trafficLights
              (λ w light,
                 set_trafficLights (trafficLights w ++ [length (heap w)])
                   (set_heap (heap w ++ [fresh_light light]) w))
              ltac:(done) ltac:(done) positions w) as [-> ->].
  rewrite Hempty. split_and!; try done.
  - by apply (foldl_keeps _ trafficLightSpheres).
  - by apply (foldl_keeps _ scene_objects).
Qed.

Lemma first_answer_ids (positions : list LightJson) :
  ∀ h, omap (obj_id (h ++ (fresh_light <$> positions)))
         (seq (length h) (length positions))
       = light_id <$> positions.
Proof.
  induction positions as [| light positions IH]; intros h; [done |].
  cbn [fmap list_fmap length seq]. cbn [omap list_omap].
  unfold obj_id at 1. rewrite list_lookup_middle by done. cbn.
  f_equal.
  specialize (IH (h ++ [fresh_light light])).
  rewrite <- app_assoc, length_app in IH. simpl in IH.
  by replace (length h + 1) with (S (length h)) in IH by lia.
Qed.

Lemma first_answer_wf (positions : list LightJson) (w : World) :
  trafficLights w = [] → NoDup (light_id <$> positions) →
  signals_wf w → signals_wf (getTrafficLights_ok positions w).
Proof.
  intros Hempty Hnd (W1 & W2 & W3 & W4).
  destruct (first_answer_lights positions w Hempty) as (Hh & Hl & Hs & _).
  unfold signals_wf. rewrite Hh, Hl, Hs, length_app, length_fmap.
  split_and!.
  - intros r Hr. apply elem_of_seq in Hr. lia.
  - by rewrite first_answer_ids.
  - intros i s Hreg. destruct (W3 i s Hreg) as [Hlt _].
    split; [lia |]. intros Hin. apply elem_of_seq in Hin. lia.
  - exact W4.
Qed.

Lemma light_loop_wf (positions : list LightJson) (w : World) :
  signals_wf w → signals_wf (foldl light_step w positions).
Proof.
  destruct (light_loop_frame positions w)
    as (G1 & _ & _ & _ & _ & _ & G7 & _ & G9 & Gid & _).
  by apply signals_wf_same.
Qed.

(** [getTrafficLights] keeps the invariant, whatever the server answers,
    when the answer that populates the collection lists each identity
    once. *)
Lemma getTrafficLights_wf (answer : response (list LightJson)) (w : World) :
  (∀ positions, answer = Ok positions → trafficLights w = [] →
                NoDup (light_id <$> positions)) →
  signals_wf w → signals_wf (run (getTrafficLights answer) w).
Proof.
  intros Hnd Hwf. destruct answer as [| | positions].
  - by apply (signals_wf_same w).
  - done.
  - change (signals_wf (getTrafficLights_ok positions w)).
    destruct (trafficLights w) as [| r0 l] eqn:Hl.
    + apply first_answer_wf; [done | by apply Hnd | done].
    + unfold getTrafficLights_ok. rewrite Hl. simpl.
      by apply light_loop_wf.
Qed.

(** One turn of the loop of [setupObjects] over the lights: the light is
    dressed in place, its road tile and its cube are new objects, and
    the cube, which shows the state of the light, is registered under
    the identity of the light. *)
Lemma setup_light_step_heap A w r light :
  heap w !! r = Some light →
  ∃ road light' cube,
    heap (setup_light_step A w r)
    = <[r := light']> (heap w) ++ [road; cube] ∧
    trafficLights (setup_light_step A w r) = trafficLights w ∧
    trafficLightSpheres (setup_light_step A w r)
    = <[id light := S (length (heap w))]> (trafficLightSpheres w) ∧
    id light' = id light ∧ state light' = state light ∧
    color light' = color light ∧
    shows (truthy_state light) cube.
Proof.
  intros Hl. pose proof (lookup_lt_Some _ _ _ Hl) as Hlt.
  unfold setup_light_step. rewrite Hl.
  cbn [heap trafficLights trafficLightSpheres set_trafficLightSpheres
       set_scene_objects set_heap].
  eexists _, _, _. split_and!.
  - rewrite insert_app_l by done. rewrite <- app_assoc. reflexivity.
  - reflexivity.
  - f_equal. rewrite length_insert, length_app. simpl. lia.
  - by destruct (trafficLightModel A).
  - by destruct (trafficLightModel A).
  - by destruct (trafficLightModel A).
  - apply painted_shows. destruct (trafficLightModel A); by repeat split.
Qed.

Lemma setup_light_step_wf A w r :
  signals_wf w → signals_wf (setup_light_step A w r).
Proof.
  intros (W1 & W2 & W3 & W4).
  destruct (heap w !! r) as [light |] eqn:Hl;
    [| unfold setup_light_step; rewrite Hl; done].
  destruct (setup_light_step_heap A w r light Hl)
    as (road & light' & cube & Hh & Ht & Hs & Hid & _).
  pose proof (lookup_lt_Some _ _ _ Hl) as Hlt.
  assert (length (heap (setup_light_step A w r)) = S (S (length (heap w))))
    as Hlen by (rewrite Hh, length_app, length_insert; simpl; lia).
  assert (∀ r', r' < length (heap w) →
            obj_id (heap (setup_light_step A w r)) r' = obj_id (heap w) r')
    as Hids.
  { intros r' Hr'. unfold obj_id.
    rewrite Hh, lookup_app_l by (by rewrite length_insert).
    destruct (decide (r' = r)) as [-> | Hne].
    - rewrite list_lookup_insert_eq by done. rewrite Hl. simpl.
      by rewrite Hid.
    - by rewrite list_lookup_insert_ne. }
  unfold signals_wf. rewrite Ht, Hs, Hlen.
  split_and!.
  - intros r' Hr'. specialize (W1 r' Hr'). lia.
  - rewrite (omap_elem_ext _ (obj_id (heap w))); [done |].
    intros x Hx. apply Hids. by apply W1.
  - intros i s Hreg. destruct (decide (i = id light)) as [-> | Hne].
    + rewrite lookup_insert_eq in Hreg. injection Hreg as <-.
      split; [lia |]. intros Hin. specialize (W1 _ Hin). lia.
    + rewrite lookup_insert_ne in Hreg by done.
      destruct (W3 i s Hreg). split; [lia | done].
  - intros i j s Hi Hj.
    destruct (decide (i = id light)) as [-> | Hni];
      destruct (decide (j = id light)) as [-> | Hnj]; try done.
    + rewrite lookup_insert_eq in Hi. rewrite lookup_insert_ne in Hj by done.
      injection Hi as <-. destruct (W3 _ _ Hj). lia.
    + rewrite lookup_insert_eq in Hj. rewrite lookup_insert_ne in Hi by done.
      injection Hj as <-. destruct (W3 _ _ Hi). lia.
    + rewrite lookup_insert_ne in Hi, Hj by done. by eapply W4.
Qed.

(** The turn keeps identity, state and colour of every object. *)
Lemma setup_light_step_lights A w r0 r o :
  heap w !! r = Some o →
  ∃ o', heap (setup_light_step A w r0) !! r = Some o' ∧
        id o' = id o ∧ state o' = state o ∧ color o' = color o.
Proof.
  intros Ho. pose proof (lookup_lt_Some _ _ _ Ho) as Hlt.
  destruct (heap w !! r0) as [light |] eqn:Hl;
    [| unfold setup_light_step; rewrite Hl; by exists o].
  destruct (setup_light_step_heap A w r0 light Hl)
    as (road & light' & cube & Hh & _ & _ & Hid & Hst & Hcol & _).
  rewrite Hh, lookup_app_l by (by rewrite length_insert).
  destruct (decide (r = r0)) as [-> | Hne].
  - rewrite list_lookup_insert_eq by done.
    exists light'. assert (o = light) as -> by congruence. done.
  - rewrite list_lookup_insert_ne by done. by exists o.
Qed.

(** The turn gives the light it visits a cube that shows its state. *)
Lemma setup_light_step_shows A w r :
  r < length (heap w) → signal_shown (setup_light_step A w r) r.
Proof.
  intros Hlt. destruct (lookup_lt_is_Some_2 _ _ Hlt) as [light Hl].
  destruct (setup_light_step_heap A w r light Hl)
    as (road & light' & cube & Hh & _ & Hs & Hid & Hst & _ & Hshow).
  exists light', (S (length (heap w))), cube. split_and!.
  - rewrite Hh, lookup_app_l by (by rewrite length_insert).
    by rewrite list_lookup_insert_eq.
  - by rewrite Hs, Hid, lookup_insert_eq.
  - rewrite Hh, lookup_app_r by (rewrite length_insert; lia).
    rewrite length_insert.
    by replace (S (length (heap w)) - length (heap w)) with 1 by lia.
  - unfold truthy_state. rewrite Hst. exact Hshow.
Qed.

(** The turn leaves the cube of every other tracked light as it is. *)
Lemma setup_light_step_keeps A w r0 r :
  signals_wf w → r0 ∈ trafficLights w → r ∈ trafficLights w → r ≠ r0 →
  signal_shown w r → signal_shown (setup_light_step A w r0) r.
Proof.
  intros (W1 & W2 & W3 & W4) Hr0 Hr Hne (light & s & cube & Hl & Hs & Hc & Hsh).
  destruct (lookup_lt_is_Some_2 _ _ (W1 _ Hr0)) as [light0 Hl0].
  destruct (setup_light_step_heap A w r0 light0 Hl0)
    as (road & light' & cube' & Hh & _ & Hreg & _).
  destruct (W3 _ _ Hs) as [Hslt Hsnot].
  exists light, s, cube. split_and!; [| | | done].
  - rewrite Hh, lookup_app_l by (rewrite length_insert; by apply W1).
    by rewrite list_lookup_insert_ne.
  - rewrite Hreg, lookup_insert_ne; [done |].
    intros Hid. apply Hne.
    apply (omap_NoDup_inj (obj_id (heap w)) (trafficLights w) r r0
             (id light) W2 Hr Hr0); unfold obj_id.
    + by rewrite Hl.
    + rewrite Hl0. simpl. by rewrite Hid.
  - rewrite Hh, lookup_app_l by (by rewrite length_insert).
    rewrite list_lookup_insert_ne; [done |].
    intros <-. done.
Qed.

Lemma setup_light_loop A (l : list nat) :
  ∀ w, signals_wf w → (∀ r, r ∈ l → r ∈ trafficLights w) →
    signals_wf (foldl (setup_light_step A) w l) ∧
    trafficLights (foldl (setup_light_step A) w l) = trafficLights w ∧
    (∀ r o, heap w !! r = Some o →
       ∃ o', heap (foldl (setup_light_step A) w l) !! r = Some o' ∧
             id o' = id o ∧ state o' = state o ∧ color o' = color o) ∧
    (∀ r, r ∈ trafficLights w → r ∈ l ∨ signal_shown w r →
          signal_shown (foldl (setup_light_step A) w l) r).
Proof.
  induction l as [| r0 l IH]; intros w Hwf Hsub; simpl.
  - split_and!; try done.
    + intros r o Ho. by exists o.
    + intros r _ [Hin | Hshown]; [by apply elem_of_nil in Hin | done].
  - assert (trafficLights (setup_light_step A w r0) = trafficLights w)
      as Ht.
    { destruct (heap w !! r0) as [light |] eqn:Hl.
      - by destruct (setup_light_step_heap A w r0 light Hl)
          as (? & ? & ? & _ & ? & _).
      - unfold setup_light_step. by rewrite Hl. }
    assert (r0 ∈ trafficLights w) as Hr0
      by (apply Hsub; by apply elem_of_cons; left).
    destruct (IH (setup_light_step A w r0)
                (setup_light_step_wf A w r0 Hwf)) as (I1 & I2 & I3 & I4).
    { intros r Hr. rewrite Ht. apply Hsub. by apply elem_of_cons; right. }
    split_and!; [done | congruence | |].
    + intros r o Ho.
      destruct (setup_light_step_lights A w r0 r o Ho)
        as (o1 & Ho1 & Hid1 & Hst1 & Hc1).
      destruct (I3 r o1 Ho1) as (o2 & Ho2 & Hid2 & Hst2 & Hc2).
      exists o2. split_and!; congruence.
    + intros r Hr Hcase. apply I4; [by rewrite Ht |].
      destruct (decide (r = r0)) as [-> | Hne].
      * right. apply setup_light_step_shows.
        destruct Hwf as (W1 & _). by apply W1.
      * destruct Hcase as [Hin | Hshown].
        -- apply elem_of_cons in Hin as [-> | Hin]; [done | by left].
        -- right. by apply setup_light_step_keeps.
Qed.

Lemma sphere_loop_frame (l : list nat) :
  ∀ w,
    trafficLights (foldl sphere_step w l) = trafficLights w ∧
    scene_objects (foldl sphere_step w l) = scene_objects w ∧
    trafficLightSpheres (foldl sphere_step w l) = trafficLightSpheres w ∧
    length (heap (foldl sphere_step w l)) = length (heap w) ∧
    (∀ r, obj_id (heap (foldl sphere_step w l)) r = obj_id (heap w) r) ∧
    (∀ r o, heap w !! r = Some o →
            (∀ i, trafficLightSpheres w !! i ≠ Some r) →
            heap (foldl sphere_step w l) !! r = Some o).
Proof.
  induction l as [| r0 l IH]; intros w; simpl; [done |].
  destruct (sphere_step_frame w r0) as (F1 & F2 & F3 & F4).
  destruct (IH (sphere_step w r0)) as (G1 & G2 & G3 & G4 & G5 & G6).
  split_and!; try congruence.
  - intros r. rewrite G5. unfold obj_id.
    destruct (heap w !! r) as [o |] eqn:Ho.
    + destruct (sphere_step_heap w r0 r o Ho) as (o' & -> & Hid & _).
      simpl. by rewrite Hid.
    + apply lookup_ge_None in Ho.
      rewrite (proj2 (lookup_ge_None _ _)); [done | lia].
  - intros r o Ho Hfree.
    destruct (sphere_step_heap w r0 r o Ho) as (o' & Ho' & _ & _ & _ & Hno).
    rewrite Hno in Ho'.
    + apply G6; [done |]. by rewrite F3.
    + intros (light & _ & Hreg). by apply (Hfree (id light)).
Qed.

Lemma updateTrafficLightSpheres_wf w :
  signals_wf w → signals_wf (updateTrafficLightSpheres w).
Proof.
  destruct (sphere_loop_frame (trafficLights w) w)
    as (G1 & _ & G3 & G4 & G5 & _).
  by apply signals_wf_same.
Qed.





Lemma signal_world_facts :
  signals_wf signal_world ∧
  trafficLights signal_world ≠ [] ∧
  find_by_id (heap signal_world) (trafficLights signal_world) "l1" = Some 0 ∧
  trafficLightSpheres signal_world !! "l1" = Some 3.
Proof.
  split_and!; [| discriminate | reflexivity | reflexivity].
  apply setup_light_loop; [| done].
  apply getTrafficLights_wf; [| exact signals_wf_empty].
  intros ps [= <-] _. cbn.
  apply NoDup_cons. split; [| apply NoDup_singleton].
  rewrite list_elem_of_singleton. discriminate.
Qed.


(** ** The frame loop: the clock, and what the animation writes *)

Section FrameFacts.
Context `{!Rounding}.
Local Open Scope R_scope.

Lemma fl_nonneg (x : R) : 0 <= x → 0 <= fl x.
Proof. intros Hx. rewrite <- fl_0. by apply fl_mono. Qed.

Lemma frame_elapsed_nonneg (now : R) (c : Clock) :
  0 <= elapsed c → then_ c <= now → 0 <= frame_elapsed now c.
Proof.
  intros He Hnow. unfold frame_elapsed. apply fl_nonneg.
  assert (0 <= fl (now - then_ c)) by (apply fl_nonneg; lra).
  lra.
Qed.

Lemma frame_fract_cases (now : R) (c : Clock) :
  0 <= elapsed c → then_ c <= now →
  0 <= frame_fract now c <= 1 ∧
  (frame_elapsed now c >= duration → frame_fract now c = 1).
Proof.
  intros He Hnow. unfold frame_fract, fract_of.
  pose proof (frame_elapsed_nonneg now c He Hnow) as Hpos.
  set (e := frame_elapsed now c) in *. unfold duration.
  assert (0 <= e / 500) as Hdiv.
  { unfold Rdiv. apply Rmult_le_pos; [done |].
    left. apply Rinv_0_lt_compat. lra. }
  split.
  - split; [| apply Rmin_l].
    apply Rmin_glb; [lra | by apply fl_nonneg].
  - intros Hge. apply Rmin_left.
    rewrite <- fl_1. apply fl_mono.
    apply (Rmult_le_reg_r 500); [lra |].
    unfold Rdiv. rewrite Rmult_assoc, Rinv_l by lra. lra.
Qed.

(** The clock of [drawScene].  With timestamps that do not go back, the
    fraction handed to [interpolateCars] lies in [[0, 1]] and the stored
    [elapsed] stays in [[0, duration)].  A frame polls the server exactly
    when the elapsed time has reached [duration]: its fraction is then 1,
    the cars are drawn, the snapshot is fetched and [elapsed] starts
    again at 0; any other frame only animates and keeps the time that
    passed. *)
Theorem drawScene_clock (rnd : nat → nat) (A : Assets) (now : R)
    (answers : Answers) (c : Clock) (w : World) :
  0 <= elapsed c < duration → then_ c <= now →
  let cw' := drawScene rnd A now answers (c, w) in
  0 <= frame_fract now c <= 1 ∧
  0 <= elapsed (fst cw') < duration ∧
  then_ (fst cw') = now ∧
  (frame_elapsed now c < duration →
   snd cw' = interpolateCars (frame_fract now c) w ∧
   elapsed (fst cw') = frame_elapsed now c) ∧
  (frame_elapsed now c >= duration →
   frame_fract now c = 1 ∧
   snd cw'
   = updateTrafficLightSpheres
       (updateCars rnd A
          (run (update (update_answer answers) (cars_answer answers)
                  (lights_answer answers)) (interpolateCars 1 w))) ∧
   elapsed (fst cw') = 0).
Proof.
  intros [He Hd] Hnow cw'.
  destruct (frame_fract_cases now c He Hnow) as (Hrange & Hfull).
  pose proof (frame_elapsed_nonneg now c He Hnow) as Hpos.
  split; [exact Hrange |].
  unfold cw', drawScene. simpl.
  fold (frame_elapsed now c). fold (frame_fract now c).
  destruct (Rge_dec (frame_elapsed now c) duration) as [Hge | Hlt]; simpl.
  - rewrite (Hfull Hge). unfold duration in *.
    split_and!; [lra | lra | done | lra | done].
  - apply Rnot_ge_lt in Hlt.
    split_and!; [lra | lra | done | done | lra].
Qed.

End FrameFacts.

Lemma drawScene_clock_witness :
  snd (@drawScene exact_arithmetic (λ _, 0) cube_only 250
         (answered [] NotOk) (initial_clock, empty_world))
  = @interpolateCars exact_arithmetic
      (@frame_fract exact_arithmetic 250 initial_clock) empty_world.
Proof.
  assert (0 <= elapsed initial_clock < duration)%R as H1
    by (unfold duration; simpl; lra).
  assert (then_ initial_clock <= 250)%R as H2 by (simpl; lra).
  refine (proj1 (proj1 (proj2 (proj2 (proj2
    (@drawScene_clock exact_arithmetic (λ _, 0) cube_only 250
       (answered [] NotOk) initial_clock empty_world H1 H2)))) _)).
  unfold frame_elapsed, duration. simpl. lra.
Defined.
(** ** [interpolateCars], cell by cell *)

Section Animation.
Context `{!Rounding}.

Lemma set_heap_same w r o : heap w !! r = Some o → set_heap (<[r := o]> (heap w)) w = w.
Proof. intros Ho. rewrite list_insert_id by done. by destruct w. Qed.

Lemma interpolate_step_animate fract w r :
  interpolate_step fract w r
  = match heap w !! r with
    | Some car => set_heap (<[r := animate fract car]> (heap w)) w
    | None => w
    end.
Proof.
  unfold interpolate_step, animate.
  destruct (heap w !! r) as [car |] eqn:Hcar; [| done].
  destruct (oldPosArray car); [done |].
  by rewrite set_heap_same.
Qed.

(** The loop applies [animate] to a cell once for each time the
    collection holds its reference. *)
Lemma interpolate_loop_cell fract (l : list nat) :
  ∀ w r o,
    heap w !! r = Some o →
    heap (foldl (interpolate_step fract) w l) !! r
    = Some (Nat.iter (count_occ Nat.eq_dec l r) (animate fract) o).
Proof.
  induction l as [| r0 l IH]; intros w r o Ho; simpl; [done |].
  rewrite interpolate_step_animate.
  destruct (Nat.eq_dec r0 r) as [-> | Hne].
  - rewrite Ho. rewrite Nat.iter_succ_r. apply IH. simpl.
    apply list_lookup_insert_eq. by eapply lookup_lt_Some.
  - destruct (heap w !! r0) as [car |]; [| by apply IH].
    apply IH. simpl. by rewrite list_lookup_insert_ne.
Qed.

Lemma interpolate_step_side fract w r :
  scene_side (interpolate_step fract w r) = scene_side w ∧
  trafficLights (interpolate_step fract w r) = trafficLights w ∧
  console (interpolate_step fract w r) = console w ∧
  length (heap (interpolate_step fract w r)) = length (heap w).
Proof.
  rewrite interpolate_step_animate.
  destruct (heap w !! r); [| done].
  simpl. by rewrite length_insert.
Qed.

Lemma same_but_pose_refl o : same_but_pose o o.
Proof.
  exists (renderPos o), (currentRotY o), (vy (rotRad o)).
  by destruct o as [? ? [[? ?] ?]].
Qed.

Lemma same_but_pose_trans o1 o2 o3 :
  same_but_pose o1 o2 → same_but_pose o2 o3 → same_but_pose o1 o3.
Proof.
  intros (rp & cr & yaw & ->) (rp' & cr' & yaw' & ->).
  by exists rp', cr', yaw'.
Qed.

Lemma animate_pose fract car : same_but_pose car (animate fract car).
Proof.
  unfold animate.
  destruct (oldPosArray car) as [oldPos |]; [| apply same_but_pose_refl].
  simpl. destruct (targetRotY car) as [target |].
  - by eexists _, _, _.
  - exists (Some (render_target fract car oldPos)), (currentRotY car),
      (vy (rotRad car)).
    by destruct car as [? ? [[? ?] ?]].
Qed.

Lemma animate_iter_pose fract car n :
  same_but_pose car (Nat.iter n (animate fract) car).
Proof.
  induction n as [| n IH]; simpl; [apply same_but_pose_refl |].
  eapply same_but_pose_trans; [exact IH | apply animate_pose].
Qed.

Lemma same_but_pose_fields o o' :
  same_but_pose o o' →
  id o' = id o ∧ position o' = position o ∧
  oldPosArray o' = oldPosArray o ∧ targetRotY o' = targetRotY o ∧
  vao o' = vao o ∧ direction o' = direction o.
Proof. by intros (rp & cr & yaw & ->). Qed.

Lemma interpolateCars_only_cells fract w :
  length (heap (interpolateCars fract w)) = length (heap w) ∧
  cells_upto same_but_pose w (interpolateCars fract w).
Proof.
  unfold interpolateCars. split.
  - apply (foldl_keeps _ (λ w, length (heap w))). intros s x.
    apply (interpolate_step_side fract s x).
  - intros r o Ho. eexists. split; [by apply interpolate_loop_cell |].
    apply animate_iter_pose.
Qed.

(** The animation never feeds back into what the server reported:
    [interpolateCars] leaves every collection, the scene and the console
    alone, builds no object, and changes nothing of an object beyond its
    render position, its current yaw and [rotRad.y].  An object that is
    not a tracked car, or that has no previous sample, is not touched. *)
Theorem interpolateCars_only_animates (fract : R) (w : World) :
  let w' := interpolateCars fract w in
  scene_side w' = scene_side w ∧
  cars w' = cars w ∧
  trafficLights w' = trafficLights w ∧
  console w' = console w ∧
  length (heap w') = length (heap w) ∧
  cells_upto same_but_pose w w' ∧
  (∀ r o, heap w !! r = Some o → r ∉ cars w ∨ oldPosArray o = None →
          heap w' !! r = Some o).
Proof.
  intros w'. unfold w', interpolateCars. split_and!.
  - apply (foldl_keeps _ scene_side). intros s x.
    apply (interpolate_step_side fract s x).
  - apply (foldl_keeps _ cars). intros s x. apply interpolate_step_cars.
  - apply (foldl_keeps _ trafficLights). intros s x.
    apply (interpolate_step_side fract s x).
  - apply (foldl_keeps _ console). intros s x.
    apply (interpolate_step_side fract s x).
  - apply (foldl_keeps _ (λ w, length (heap w))). intros s x.
    apply (interpolate_step_side fract s x).
  - intros r o Ho. eexists. split; [by apply interpolate_loop_cell |].
    apply animate_iter_pose.
  - intros r o Ho Hcase. rewrite (interpolate_loop_cell _ _ _ _ _ Ho).
    destruct Hcase as [Hout | Hnone].
    + rewrite (proj1 (count_occ_not_In Nat.eq_dec _ _)); [done |].
      by rewrite <- list_elem_of_In.
    + f_equal. induction (count_occ Nat.eq_dec (cars w) r) as [| n IH];
        simpl; [done |].
      rewrite IH. unfold animate. by rewrite Hnone.
Qed.

End Animation.
(** ** A polling frame, followed cell by cell *)

Lemma cells_upto_refl rel w : (∀ o, rel o o) → cells_upto rel w w.
Proof. intros Hrefl r o Ho. by exists o. Qed.

Lemma cells_upto_trans rel w1 w2 w3 :
  (∀ o1 o2 o3, rel o1 o2 → rel o2 o3 → rel o1 o3) →
  cells_upto rel w1 w2 → cells_upto rel w2 w3 → cells_upto rel w1 w3.
Proof.
  intros Htrans H12 H23 r o Ho.
  destruct (H12 r o Ho) as (o2 & Ho2 & R12).
  destruct (H23 r o2 Ho2) as (o3 & Ho3 & R23).
  exists o3. split; [done | by eapply Htrans].
Qed.

Lemma cells_upto_loop {X} rel (f : World → X → World) (l : list X) :
  (∀ o, rel o o) →
  (∀ o1 o2 o3, rel o1 o2 → rel o2 o3 → rel o1 o3) →
  (∀ w x, cells_upto rel w (f w x)) →
  ∀ w, cells_upto rel w (foldl f w l).
Proof.
  intros Hrefl Htrans Hstep.
  induction l as [| x l IH]; intros w; simpl; [by apply cells_upto_refl |].
  eapply cells_upto_trans; [done | apply Hstep | apply IH].
Qed.

Lemma same_motion_refl o : same_motion o o.
Proof. done. Qed.

Lemma same_motion_trans o1 o2 o3 :
  same_motion o1 o2 → same_motion o2 o3 → same_motion o1 o3.
Proof.
  intros (A1 & A2 & A3 & A4) (B1 & B2 & B3 & B4).
  unfold same_motion. split_and!; congruence.
Qed.

Lemma same_but_signal_motion o o' : same_but_signal o o' → same_motion o o'.
Proof. by intros (st & c & ->). Qed.

(** [getTrafficLights] moves nothing, whatever the collection holds and
    whatever the server answers. *)
Lemma getTrafficLights_motion rl w :
  cells_upto same_motion w (run (getTrafficLights rl) w).
Proof.
  destruct rl as [| | lights];
    [by intros r o Ho; exists o | by intros r o Ho; exists o |].
  assert (run (getTrafficLights (Ok lights)) w
          = getTrafficLights_ok lights w) as -> by reflexivity.
  unfold getTrafficLights_ok. case_bool_decide.
  - intros r o Ho. exists o. split; [| done].
    destruct (append_loop fresh_light trafficLights
                (λ w light,
                   set_trafficLights (trafficLights w ++ [length (heap w)])
                     (set_heap (heap w ++ [fresh_light light]) w))
                ltac:(done) ltac:(done) lights w) as [-> _].
    by apply lookup_app_l_Some.
  - apply cells_upto_loop;
      [apply same_motion_refl | apply same_motion_trans |].
    intros s light r o Ho.
    destruct (light_step_heap s light r o Ho) as (o' & Ho' & Hs & _).
    exists o'. split; [done | by apply same_but_signal_motion].
Qed.

Lemma car_setup_step_motion rnd A w r0 :
  cells_upto same_motion w (car_setup_step rnd A w r0).
Proof.
  intros r o Ho. unfold car_setup_step.
  destruct (heap w !! r0) as [car |] eqn:Hcar; [| by exists o].
  assert (r0 < length (heap w)) as Hlen by (by eapply lookup_lt_Some).
  assert (∀ (w1 : World) car1,
            heap w1 !! r0 = Some car1 →
            (∀ r', r' ≠ r0 → heap w1 !! r' = heap w !! r') →
            same_motion car car1 →
            ∃ o', heap (set_heap (<[r0 := updateCarRotation car1]> (heap w1))
                          w1) !! r = Some o' ∧ same_motion o o') as Hfin.
  { intros w1 car1 Hcar1 Hother Hm. simpl.
    destruct (decide (r = r0)) as [-> | Hne].
    - rewrite list_lookup_insert_eq by (by eapply lookup_lt_Some).
      eexists. split; [done |].
      assert (o = car) as -> by congruence.
      eapply same_motion_trans; [exact Hm | done].
    - rewrite list_lookup_insert_ne by done. rewrite Hother by done.
      by exists o. }
  case_bool_decide.
  - unfold dress_car. destruct (random_model rnd A (draws w)) as [m |].
    + match goal with
      | |- context [heap ?w1 !! r0] =>
          assert (heap w1 !! r0
                  = Some (set_targetRotY (Some 0%R)
                            (set_currentRotY (Some 0%R)
                               (set_scale car_scale
                                  (set_vao (Some (m_vao m)) car))))) as E
            by (simpl; by apply list_lookup_insert_eq)
      end.
      rewrite E. apply Hfin; [exact E | | done].
      intros r' Hne. simpl. by rewrite list_lookup_insert_ne.
    + rewrite Hcar. by apply Hfin.
  - rewrite Hcar. by apply Hfin.
Qed.

(** [updateCars] moves nothing: every object keeps its identity, its two
    samples and its render position. *)
Lemma updateCars_motion rnd A w :
  cells_upto same_motion w (updateCars rnd A w).
Proof.
  unfold updateCars.
  set (ids := omap (obj_id (heap w)) (cars w)).
  set (l := filter (λ r, is_car_in_scene A (heap w) r = true)
              (scene_objects w)).
  destruct (retire_scene_loop ids l w) as (R1 & _).
  set (wr := foldl (retire_from_scene ids) w l) in *.
  intros r o Ho. rewrite <- R1 in Ho. revert r o Ho.
  apply cells_upto_loop;
    [apply same_motion_refl | apply same_motion_trans |].
  intros s x. apply car_setup_step_motion.
Qed.

Lemma updateTrafficLightSpheres_motion w :
  cells_upto same_motion w (updateTrafficLightSpheres w).
Proof.
  unfold updateTrafficLightSpheres.
  apply cells_upto_loop;
    [apply same_motion_refl | apply same_motion_trans |].
  intros s r0 r o Ho.
  destruct (sphere_step_heap s r0 r o Ho) as (o' & Ho' & _ & _ & Hyes & Hno).
  exists o'. split; [done |].
  destruct (paints_dec s r0 r) as [Hp | Hp].
  - by destruct (Hyes Hp) as (light & _ & ->).
  - by rewrite (Hno Hp).
Qed.

Section PollingFrame.
Context `{!Rounding}.

Lemma interpolateCars_ids fract w r :
  obj_id (heap (interpolateCars fract w)) r = obj_id (heap w) r.
Proof.
  destruct (interpolateCars_only_cells fract w) as (Hlen & Hcells).
  unfold obj_id. destruct (heap w !! r) as [o |] eqn:Ho.
  - destruct (Hcells r o Ho) as (o' & -> & Hp). simpl. f_equal.
    by destruct (same_but_pose_fields _ _ Hp) as (-> & _).
  - apply lookup_ge_None in Ho.
    rewrite (proj2 (lookup_ge_None _ _)); [done | lia].
Qed.

Lemma frame_fract_full (now : R) (c : Clock) :
  (frame_elapsed now c >= duration)%R → frame_fract now c = 1%R.
Proof.
  intros Hge. unfold frame_fract, fract_of. apply Rmin_left.
  rewrite <- fl_1. apply fl_mono. unfold duration in *.
  apply (Rmult_le_reg_r 500); [lra |].
  unfold Rdiv. rewrite Rmult_assoc, Rinv_l by lra. lra.
Qed.

(** A polling frame hands the car over to the next interval.  The frame
    draws the car at fraction 1 of its two samples; the snapshot then
    makes the current sample the previous one and the reported position
    the current one, and nothing of the poll touches what was drawn.
    Where the arithmetic of the interpolation is exact on the two old
    samples and the height does not change, what was drawn is what the
    next frame draws at fraction 0: the car does not jump. *)
Theorem polling_frame_hands_over (rnd : nat → nat) (A : Assets) (now : R)
    (c : Clock) (w : World) (lights : response (list LightJson))
    (positions : list CarJson) (car : CarJson) (r : nat)
    (cur : Object3D) (old : vec3) :
  (frame_elapsed now c >= duration)%R →
  sole_report positions car →
  find_by_id (heap w) (cars w) (car_id car) = Some r →
  heap w !! r = Some cur → oldPosArray cur = Some old →
  let w' := snd (drawScene rnd A now (answered positions lights) (c, w)) in
  ∃ car',
    heap w' !! r = Some car' ∧
    position car' = (car_x car, car_y car, car_z car) ∧
    oldPosArray car' = Some (position cur) ∧
    renderPos car' = Some (render_target 1 cur old) ∧
    (fl (vx (position cur) - vx old) = (vx (position cur) - vx old)%R →
     fl (vz (position cur) - vz old) = (vz (position cur) - vz old)%R →
     fl (vx (position cur)) = vx (position cur) →
     fl (vz (position cur)) = vz (position cur) →
     car_y car = vy (position cur) →
     renderPos car' = Some (render_target 0 car' (position cur))).
Proof.
  intros Hge Hsole Hfind Hcur Hold w'.
  unfold w', drawScene. simpl.
  fold (frame_elapsed now c). fold (frame_fract now c).
  destruct (Rge_dec (frame_elapsed now c) duration) as [_ | Hn];
    [| done].
  simpl. rewrite update_runs, (frame_fract_full now c Hge).
  set (w1 := interpolateCars 1 w).
  destruct (find_by_id_elem _ _ _ _ Hfind) as [Hin _].
  destruct (interpolateCars_only_cells 1 w) as (_ & Hcells).
  destruct (Hcells r cur Hcur) as (o1 & Ho1 & Hpose). fold w1 in Ho1.
  destruct (same_but_pose_fields _ _ Hpose) as (_ & Hpos1 & _).
  pose proof (interpolateCars_renderPos 1 w r cur old Hin Hcur Hold) as Hrp.
  fold w1 in Hrp. rewrite Ho1 in Hrp. simpl in Hrp.
  injection Hrp as Hrp.
  assert (find_by_id (heap w1) (cars w1) (car_id car) = Some r) as Hfind1.
  { unfold w1 at 2. unfold interpolateCars.
    rewrite (foldl_keeps _ cars) by (intros s x; apply interpolate_step_cars).
    rewrite <- Hfind. apply find_by_id_ext. apply interpolateCars_ids. }
  destruct (getCars_ok_refresh w1 positions car r o1 Hsole Hfind1 Ho1)
    as [_ Ho2].
  assert (run (getCars (Ok positions)) w1 = getCars_ok positions w1) as ->
    by reflexivity.
  set (w2 := getCars_ok positions w1) in *.
  destruct (getTrafficLights_motion lights w2 r _ Ho2)
    as (o3 & Ho3 & M3).
  destruct (updateCars_motion rnd A _ r _ Ho3) as (o4 & Ho4 & M4).
  destruct (updateTrafficLightSpheres_motion _ r _ Ho4) as (o5 & Ho5 & M5).
  pose proof (same_motion_trans _ _ _ (same_motion_trans _ _ _ M3 M4) M5)
    as (_ & Mpos & Mold & Mrp).
  simpl in Mpos, Mold, Mrp.
  exists o5. split_and!; try done.
  - by rewrite Mold, Hpos1.
  - by rewrite Mrp.
  - intros Hdx Hdz Hx Hz Hy. rewrite Mrp, Hrp. unfold render_target.
    rewrite !lerp_1_exact by done. rewrite !lerp_0 by done.
    rewrite Mpos. unfold vy at 2. simpl. by rewrite Hy.
Qed.

End PollingFrame.

Lemma polling_frame_hands_over_witness :
  ∃ car',
    heap (snd (@drawScene exact_arithmetic (λ _, 0) cube_only 500
                 (answered [car_at 2 0 None] NotOk)
                 (initial_clock, moved_world))) !! 0 = Some car' ∧
    position car' = (2, 0, 0)%R ∧
    oldPosArray car' = Some (1, 0, 0)%R.
Proof.
  destruct (@polling_frame_hands_over exact_arithmetic (λ _, 0) cube_only
              500 initial_clock moved_world NotOk [car_at 2 0 None]
              (car_at 2 0 None) 0
              (refresh_car (car_at 1 0 None)
                 (fresh_car (car_at 0 0 (Some "Up")))) (0, 0, 0)%R)
    as (car' & H1 & H2 & H3 & _).
  - unfold frame_elapsed, duration. simpl. lra.
  - exists [], []. split_and!; [reflexivity | apply not_elem_of_nil..].
  - reflexivity.
  - reflexivity.
  - reflexivity.
  - by exists car'.
Defined.
(** ** The yaw of a move along an axis *)

Section AxisFacts.
Local Open Scope R_scope.

Lemma atan2_axes (d : R) :
  0 < d →
  atan2 d 0 = PI / 2 ∧ atan2 (- d) 0 = - (PI / 2) ∧
  atan2 0 d = 0 ∧ atan2 0 (- d) = PI.
Proof.
  intros Hd. unfold atan2. split_and!.
  - destruct (Rlt_dec 0 0); [lra |].
    destruct (Rlt_dec 0 d); [done | lra].
  - destruct (Rlt_dec 0 0); [lra |].
    destruct (Rlt_dec 0 (- d)); [lra |].
    destruct (Rlt_dec (- d) 0); [done | lra].
  - destruct (Rlt_dec 0 d); [| lra].
    unfold Rdiv. by rewrite Rmult_0_l, atan_0.
  - destruct (Rlt_dec 0 (- d)); [lra |].
    destruct (Rlt_dec (- d) 0); [| lra].
    destruct (Rle_dec 0 0); [| lra].
    unfold Rdiv. rewrite Rmult_0_l, atan_0. lra.
Qed.

End AxisFacts.

(** A car that moved by more than 0.01 along one axis of the grid, and
    not along the other, gets one of the four angles of
    [DIRECTION_ROTATIONS] as its target yaw: [π/2] towards [+x],
    [-π/2] towards [-x], [0] towards [+z] and [π] towards [-z]. *)
Theorem axis_move_yaw (car : Object3D) (old : vec3) (d : R) :
  oldPosArray car = Some old → (0.01 < d)%R →
  (vx (position car) = (vx old + d)%R → vz (position car) = vz old →
   targetRotY (updateCarRotation car) = DIRECTION_ROTATIONS "Left") ∧
  (vx (position car) = (vx old - d)%R → vz (position car) = vz old →
   targetRotY (updateCarRotation car) = DIRECTION_ROTATIONS "Right") ∧
  (vx (position car) = vx old → vz (position car) = (vz old + d)%R →
   targetRotY (updateCarRotation car) = DIRECTION_ROTATIONS "Down") ∧
  (vx (position car) = vx old → vz (position car) = (vz old - d)%R →
   targetRotY (updateCarRotation car) = DIRECTION_ROTATIONS "Up").
Proof.
  intros Hold Hd.
  assert (0 < d)%R as Hpos by lra.
  destruct (atan2_axes d Hpos) as (A1 & A2 & A3 & A4).
  destruct DIRECTION_ROTATIONS_table as (T1 & T2 & T3 & T4).
  rewrite T1, T2, T3, T4.
  unfold updateCarRotation. rewrite Hold. simpl.
  split_and!; intros -> ->.
  - replace (vx old + d - vx old)%R with d by lra.
    replace (vz old - vz old)%R with 0%R by lra.
    destruct (Rgt_dec (Rabs d) 0.01) as [_ | Hn];
      [by rewrite A1 | rewrite Rabs_right in Hn; lra].
  - replace (vx old - d - vx old)%R with (- d)%R by lra.
    replace (vz old - vz old)%R with 0%R by lra.
    destruct (Rgt_dec (Rabs (- d)) 0.01) as [_ | Hn];
      [by rewrite A2 | rewrite Rabs_left in Hn; lra].
  - replace (vx old - vx old)%R with 0%R by lra.
    replace (vz old + d - vz old)%R with d by lra.
    destruct (Rgt_dec (Rabs 0) 0.01) as [Hy | _];
      [rewrite Rabs_R0 in Hy; lra |].
    destruct (Rgt_dec (Rabs d) 0.01) as [_ | Hn];
      [by rewrite A3 | rewrite Rabs_right in Hn; lra].
  - replace (vx old - vx old)%R with 0%R by lra.
    replace (vz old - d - vz old)%R with (- d)%R by lra.
    destruct (Rgt_dec (Rabs 0) 0.01) as [Hy | _];
      [rewrite Rabs_R0 in Hy; lra |].
    destruct (Rgt_dec (Rabs (- d)) 0.01) as [_ | Hn];
      [by rewrite A4 | rewrite Rabs_left in Hn; lra].
Qed.

Lemma axis_move_yaw_witness :
  targetRotY (updateCarRotation moved_car) = DIRECTION_ROTATIONS "Left".
Proof.
  refine (proj1 (axis_move_yaw moved_car (0, 0, 0)%R 1 eq_refl _) _ _).
  - lra.
  - unfold vx. simpl. lra.
  - reflexivity.
Defined.
(** ** Destinations: the closest road and the yaw *)

Lemma closest_road_step_among x z seen acc road :
  closest_among x z seen acc →
  closest_among x z (seen ++ [road]) (closest_road_step x z acc road).
Proof.
  unfold closest_road_step. fold (road_distance x z road).
  intros Hacc.
  destruct (Rlt_dec (road_distance x z road) 1.5) as [Hnear | Hfar].
  - destruct acc as [[d [dx dz]] |]; simpl in *.
    + destruct Hacc as (Hd & (best & Hin & Hbest) & Hmin).
      destruct (Rlt_dec (road_distance x z road) d) as [Hlt | Hge]; simpl.
      * split; [done |]. split.
        -- exists road. split; [| done]. apply elem_of_app. right.
           by apply list_elem_of_singleton.
        -- intros road' Hin'. apply elem_of_app in Hin' as [Hin' | Hin'].
           ++ specialize (Hmin road' Hin'). lra.
           ++ apply list_elem_of_singleton in Hin' as ->. lra.
      * split; [done |]. split.
        -- exists best. split; [| done]. apply elem_of_app. by left.
        -- intros road' Hin'. apply elem_of_app in Hin' as [Hin' | Hin'].
           ++ by apply Hmin.
           ++ apply list_elem_of_singleton in Hin' as ->. lra.
    + split; [done |]. split.
      * exists road. split; [| done]. apply elem_of_app. right.
        by apply list_elem_of_singleton.
      * intros road' Hin'. apply elem_of_app in Hin' as [Hin' | Hin'].
        -- specialize (Hacc road' Hin'). lra.
        -- apply list_elem_of_singleton in Hin' as ->. lra.
  - destruct acc as [[d [dx dz]] |]; simpl in *.
    + destruct Hacc as (Hd & (best & Hin & Hbest) & Hmin).
      split; [done |]. split.
      * exists best. split; [| done]. apply elem_of_app. by left.
      * intros road' Hin'. apply elem_of_app in Hin' as [Hin' | Hin'].
        -- by apply Hmin.
        -- apply list_elem_of_singleton in Hin' as ->. lra.
    + intros road' Hin'. apply elem_of_app in Hin' as [Hin' | Hin'].
      * by apply Hacc.
      * apply list_elem_of_singleton in Hin' as ->. lra.
Qed.

Lemma closest_road_loop x z (roads : list Object3D) :
  ∀ seen acc,
    closest_among x z seen acc →
    closest_among x z (seen ++ roads)
      (foldl (closest_road_step x z) acc roads).
Proof.
  induction roads as [| road roads IH]; intros seen acc Hacc; simpl.
  - by rewrite app_nil_r.
  - replace (seen ++ road :: roads) with ((seen ++ [road]) ++ roads)
      by (by rewrite <- app_assoc).
    by apply IH, closest_road_step_among.
Qed.

Lemma closest_road_among (x z : R) (roads : list Object3D) :
  closest_among x z roads (closest_road x z roads).
Proof.
  apply (closest_road_loop x z roads [] None).
  intros road Hin. by apply elem_of_nil in Hin.
Qed.

Lemma closest_road_is_near_or_none (x z : R) (roads : list Object3D) :
  (∀ road, road ∈ roads → (1.5 <= road_distance x z road)%R) →
  closest_road x z roads = None.
Proof.
  intros Hfar. pose proof (closest_road_among x z roads) as H.
  destruct (closest_road x z roads) as [[d [dx dz]] |]; [| done].
  destruct H as (Hd & (road & Hin & -> & _) & _).
  specialize (Hfar road Hin). lra.
Qed.

(** The search of [setupObjects] for the road a destination is turned
    to: it finds a road exactly when some road lies at a distance
    [|dx| + |dz|] below 1.5, and the road it finds is at the least
    distance of all roads. *)
Theorem closest_road_is_nearest (x z : R) (roads : list Object3D) :
  match closest_road x z roads with
  | Some (d, (dx, dz)) =>
      (d < 1.5)%R ∧
      (∃ road, road ∈ roads ∧ d = road_distance x z road ∧
               dx = (vx (position road) - x)%R ∧
               dz = (vz (position road) - z)%R) ∧
      (∀ road, road ∈ roads → (d <= road_distance x z road)%R)
  | None => ∀ road, road ∈ roads → (1.5 <= road_distance x z road)%R
  end.
Proof. exact (closest_road_among x z roads). Qed.

Section YawFacts.
Local Open Scope R_scope.

Lemma destination_rotation_values closest :
  (destination_rotation closest = 0 ∨
   destination_rotation closest = PI ∨
   destination_rotation closest = PI / 2 ∨
   destination_rotation closest = - (PI / 2)) ∧
  (closest = None → destination_rotation closest = 0).
Proof.
  split; [| by intros ->].
  unfold destination_rotation.
  destruct closest as [[d [dx dz]] |]; [| by left].
  destruct (Rgt_dec (Rabs dx) (Rabs dz)).
  - destruct (Rgt_dec dx 0); [right; right; by right | right; right; by left].
  - destruct (Rgt_dec dz 0); [right; by left | by left].
Qed.

End YawFacts.

(** The set-up of a destination that has a model: the object stays in
    its cell with its identity, it is raised by 0.3 and keeps its place
    on the ground; its yaw is a whole number of quarter turns about the
    vertical axis, and it is not turned at all when no road lies within
    the distance 1.5. *)
Theorem destination_setup (model : Model) (A : Assets) (w : World) (r : nat)
    (dest : Object3D) :
  heap w !! r = Some dest →
  let w' := setup_destination_step (Some model) A w r in
  ∃ dest',
    heap w' !! r = Some dest' ∧
    id dest' = id dest ∧
    position dest'
    = (vx (position dest), vy (position dest) + 0.3, vz (position dest))%R ∧
    vao dest' = Some (m_vao model) ∧
    vx (rotRad dest') = 0%R ∧ vz (rotRad dest') = 0%R ∧
    (vy (rotRad dest') = 0 ∨ vy (rotRad dest') = PI ∨
     vy (rotRad dest') = PI / 2 ∨ vy (rotRad dest') = - (PI / 2))%R ∧
    ((∀ road, road ∈ omap (λ road, heap w !! road) (roads w) →
              1.5 <= road_distance (vx (position dest)) (vz (position dest))
                       road)%R →
     vy (rotRad dest') = 0%R).
Proof.
  intros Hdest w'. unfold w', setup_destination_step. rewrite Hdest.
  set (closest := closest_road _ _ _).
  simpl. rewrite list_lookup_insert_eq by (by eapply lookup_lt_Some).
  eexists. split; [done |]. simpl. unfold vx, vy, vz. simpl.
  split_and!; try done.
  - apply destination_rotation_values.
  - intros Hfar. unfold closest.
    rewrite closest_road_is_near_or_none; [done | exact Hfar].
Qed.

Lemma destination_setup_witness :
  ∃ dest',
    heap (setup_destination_step
            (Some {| m_name := "house"; m_arrays := 2; m_bufferInfo := 2;
                     m_vao := 2 |}) cube_only
            (run (getDestinations (Ok [cell_at "d1" 3 4])) empty_world) 0)
    !! 0 = Some dest' ∧
    position dest' = (3, 0 + 0.3, 4)%R.
Proof.
  destruct (destination_setup
              {| m_name := "house"; m_arrays := 2; m_bufferInfo := 2;
                 m_vao := 2 |} cube_only
              (run (getDestinations (Ok [cell_at "d1" 3 4])) empty_world) 0
              (cell_object green (cell_at "d1" 3 4)) eq_refl)
    as (dest' & H1 & _ & H2 & _).
  by exists dest'.
Defined.
(** ** The flood fill of [groupContiguousObstacles] *)

Lemma build_posMap_snoc l obs :
  build_posMap (l ++ [obs]) = <[obstacle_key obs := obs]> (build_posMap l).
Proof. unfold build_posMap. by rewrite foldl_app. Qed.

(** The map of positions holds obstacles of the list, each under its own
    key. *)
Lemma build_posMap_key obstacles k o :
  build_posMap obstacles !! k = Some o → obstacle_key o = k ∧ o ∈ obstacles.
Proof.
  induction obstacles as [| x l IH] using rev_ind.
  - unfold build_posMap. simpl. by rewrite lookup_empty.
  - rewrite build_posMap_snoc. intros H.
    destruct (decide (obstacle_key x = k)) as [<- | Hne].
    + rewrite lookup_insert_eq in H. injection H as <-.
      split; [done |]. apply elem_of_app. right.
      by apply list_elem_of_singleton.
    + rewrite lookup_insert_ne in H by done.
      destruct (IH H) as [? ?]. split; [done |].
      apply elem_of_app. by left.
Qed.

Lemma build_posMap_has obstacles obs :
  obs ∈ obstacles → obstacle_key obs ∈ dom (build_posMap obstacles).
Proof.
  induction obstacles as [| x l IH] using rev_ind; intros Hin.
  - by apply elem_of_nil in Hin.
  - rewrite build_posMap_snoc, dom_insert_L.
    apply elem_of_app in Hin as [Hin | Hin].
    + apply elem_of_union. right. by apply IH.
    + apply list_elem_of_singleton in Hin as ->.
      apply elem_of_union. left. by apply elem_of_singleton.
Qed.

Lemma build_posMap_size obstacles :
  size (dom (build_posMap obstacles)) ≤ length obstacles.
Proof.
  induction obstacles as [| x l IH] using rev_ind.
  { unfold build_posMap. simpl. by rewrite dom_empty_L, size_empty. }
  rewrite build_posMap_snoc, dom_insert_L, length_app. simpl.
  pose proof (size_union_alt {[obstacle_key x]} (dom (build_posMap l))) as E.
  rewrite E, size_singleton.
  assert (size (dom (build_posMap l) ∖ {[obstacle_key x]})
          ≤ size (dom (build_posMap l))) by (apply subseteq_size; set_solver).
  lia.
Qed.

Lemma directions_cases d :
  d ∈ directions ↔
  d = (1, 0)%Z ∨ d = (-1, 0)%Z ∨ d = (0, 1)%Z ∨ d = (0, -1)%Z.
Proof.
  unfold directions. rewrite !elem_of_cons, elem_of_nil. tauto.
Qed.

Lemma adjacent_sym k k' : adjacent k k' → adjacent k' k.
Proof.
  intros (d & Hd & ->). destruct k as [x z].
  exists (- fst d, - snd d)%Z. split.
  - apply directions_cases. apply directions_cases in Hd.
    destruct Hd as [-> | [-> | [-> | ->]]]; simpl; tauto.
  - unfold shift. simpl. f_equal; lia.
Qed.

Lemma getNeighbors_elem posMap visited obs o :
  o ∈ getNeighbors posMap visited obs ↔
  ∃ d, d ∈ directions ∧ (shift (obstacle_key obs) d ∉ visited) ∧
       posMap !! shift (obstacle_key obs) d = Some o.
Proof.
  unfold getNeighbors. rewrite list_elem_of_omap. split.
  - intros (d & Hd & H). exists d. split; [done |].
    by case_bool_decide.
  - intros (d & Hd & Hout & H). exists d. split; [done |].
    by rewrite bool_decide_eq_false_2.
Qed.

Lemma getNeighbors_length posMap visited obs :
  length (getNeighbors posMap visited obs) ≤ 4.
Proof.
  unfold getNeighbors, directions. simpl.
  repeat (match goal with
          | |- context [match ?x with Some _ => _ | None => _ end] =>
              destruct x
          end; simpl); lia.
Qed.

(** The inner loop ends: every turn either drops an entry of the stack,
    or visits a cell of the map that was not visited and pushes at most
    four entries. *)
Lemma flood_returns posMap :
  (∀ k o, posMap !! k = Some o → obstacle_key o = k) →
  ∀ fuel visited group stack,
    (∀ o, o ∈ stack → obstacle_key o ∈ dom posMap) →
    length stack + 4 * size (dom posMap ∖ visited) ≤ fuel →
    is_Some (flood fuel posMap visited group stack).
Proof.
  intros Hkey. induction fuel as [| fuel IH];
    intros visited group stack Hstack Hfuel;
    destruct stack as [| current rest]; simpl in *; try done; [lia |].
  case_bool_decide as Hvis.
  - apply IH; [| lia].
    intros o Hin. apply Hstack, elem_of_cons. by right.
  - set (ck := obstacle_key current) in *.
    assert (ck ∈ dom posMap) as Hdom
      by (apply Hstack, elem_of_cons; by left).
    assert (size (dom posMap ∖ ({[ck]} ∪ visited)) + 1
            ≤ size (dom posMap ∖ visited)) as Hsize.
    { pose proof (size_union (C := gset cell) {[ck]}
                    (dom posMap ∖ ({[ck]} ∪ visited))
                    ltac:(set_solver)) as E.
      rewrite size_singleton in E.
      assert (size ({[ck]} ∪ dom posMap ∖ ({[ck]} ∪ visited))
              ≤ size (dom posMap ∖ visited))
        by (apply subseteq_size; set_solver).
      lia. }
    apply IH.
    + intros o Hin. apply elem_of_app in Hin as [Hin | Hin].
      * apply elem_of_reverse, getNeighbors_elem in Hin
          as (d & _ & _ & Hget).
        rewrite (Hkey _ _ Hget). apply elem_of_dom. by eexists.
      * apply Hstack, elem_of_cons. by right.
    + rewrite length_app, length_reverse.
      pose proof (getNeighbors_length posMap ({[ck]} ∪ visited) current).
      lia.
Qed.

Lemma flood_spec posMap :
  (∀ k o, posMap !! k = Some o → obstacle_key o = k) →
  ∀ fuel visited group stack visited' group',
    flood fuel posMap visited group stack = Some (visited', group') →
    ∃ new,
      group' = group ++ new ∧
      NoDup (cells_of new) ∧
      (∀ k, k ∈ cells_of new → k ∉ visited) ∧
      (∀ k, k ∈ visited' ↔ k ∈ visited ∨ k ∈ cells_of new) ∧
      (∀ o, o ∈ new → o ∈ stack ∨ ∃ k, posMap !! k = Some o) ∧
      (∀ o, o ∈ stack → obstacle_key o ∈ visited') ∧
      (closed_upto posMap visited stack → closed_upto posMap visited' []).
Proof.
  intros Hkey.
  assert (∀ visited group visited' group',
            Some (visited, group) = Some (visited', group') →
            ∃ new : list Object3D,
              group' = group ++ new ∧ NoDup (cells_of new) ∧
              (∀ k, k ∈ cells_of new → k ∉ visited) ∧
              (∀ k, k ∈ visited' ↔ k ∈ visited ∨ k ∈ cells_of new) ∧
              (∀ o, o ∈ new → o ∈ [] ∨ ∃ k, posMap !! k = Some o) ∧
              (∀ o : Object3D, o ∈ [] → obstacle_key o ∈ visited') ∧
              (closed_upto posMap visited [] →
               closed_upto posMap visited' [])) as Hbase.
  { intros visited group visited' group' [= <- <-]. exists [].
    rewrite app_nil_r. split_and!; try done.
    - apply NoDup_nil_2.
    - intros k Hk. by apply elem_of_nil in Hk.
    - intros k. split; [by left | intros [? | Hk]; [done |]].
      by apply elem_of_nil in Hk.
    - intros o Ho. by apply elem_of_nil in Ho.
    - intros o Ho. by apply elem_of_nil in Ho. }
  induction fuel as [| fuel IH];
    intros visited group stack visited' group' Hrun;
    destruct stack as [| current rest]; simpl in Hrun;
    [by apply Hbase | done | by apply Hbase |].
  set (ck := obstacle_key current) in *.
  case_bool_decide as Hvis.
  - destruct (IH _ _ _ _ _ Hrun)
      as (new & -> & Hnd & Hfresh & Hvis' & Hmem & Hstack & Hclosed).
    exists new. split_and!; try done.
    + intros o Ho. destruct (Hmem o Ho) as [Hin | Hpm]; [left | by right].
      apply elem_of_cons. by right.
    + intros o Ho. apply elem_of_cons in Ho as [-> | Ho]; [| by apply Hstack].
      apply Hvis'. by left.
    + intros Hc. apply Hclosed. intros k k' Hk Hadj Hdom.
      destruct (Hc k k' Hk Hadj Hdom) as [? | Hin]; [by left |].
      unfold cells_of in Hin. rewrite fmap_cons in Hin.
      apply elem_of_cons in Hin as [-> | Hin]; [by left | by right].
  - destruct (IH _ _ _ _ _ Hrun)
      as (new & -> & Hnd & Hfresh & Hvis' & Hmem & Hstack & Hclosed).
    exists (current :: new).
    assert (ck ∉ cells_of new) as Hck.
    { intros Hin. apply (Hfresh ck Hin). apply elem_of_union. left.
      by apply elem_of_singleton. }
    split_and!.
    + by rewrite <- app_assoc.
    + unfold cells_of. rewrite fmap_cons. by apply NoDup_cons_2.
    + intros k Hk. unfold cells_of in Hk. rewrite fmap_cons in Hk.
      apply elem_of_cons in Hk as [-> | Hk]; [done |].
      intros Hin. apply (Hfresh k Hk). apply elem_of_union. by right.
    + intros k. rewrite Hvis'. unfold cells_of at 2.
      rewrite fmap_cons, elem_of_cons, elem_of_union, elem_of_singleton.
      fold ck. tauto.
    + intros o Ho. apply elem_of_cons in Ho as [-> | Ho].
      * left. apply elem_of_cons. by left.
      * destruct (Hmem o Ho) as [Hin | Hpm]; [| by right].
        apply elem_of_app in Hin as [Hin | Hin].
        -- apply elem_of_reverse, getNeighbors_elem in Hin
             as (d & _ & _ & Hget).
           right. by eexists.
        -- left. apply elem_of_cons. by right.
    + intros o Ho. apply elem_of_cons in Ho as [-> | Ho].
      * apply Hvis'. left. apply elem_of_union. left.
        by apply elem_of_singleton.
      * apply Hstack. apply elem_of_app. by right.
    + intros Hc. apply Hclosed. intros k k' Hk Hadj Hdom.
      destruct (decide (k' ∈ {[ck]} ∪ visited)) as [? | Hout]; [by left |].
      right. unfold cells_of. rewrite fmap_app.
      apply elem_of_app.
      apply elem_of_union in Hk as [Hk | Hk].
      * apply elem_of_singleton in Hk as ->.
        left. destruct Hadj as (d & Hd & ->).
        apply elem_of_dom in Hdom as [o Ho].
        apply list_elem_of_fmap. exists o. split; [by rewrite (Hkey _ _ Ho) |].
        apply elem_of_reverse, getNeighbors_elem. by exists d.
      * destruct (Hc k k' Hk Hadj Hdom) as [Hin | Hin].
        -- destruct Hout. apply elem_of_union. by right.
        -- unfold cells_of in Hin. rewrite fmap_cons in Hin.
           apply elem_of_cons in Hin as [-> | Hin]; [| by right].
           destruct Hout. apply elem_of_union. left.
           by apply elem_of_singleton.
Qed.
Lemma connected_in_start cells k k' : connected_in cells k k' → k ∈ cells.
Proof. induction 1; done. Qed.

Lemma connected_in_trans cells k1 k2 k3 :
  connected_in cells k1 k2 → connected_in cells k2 k3 →
  connected_in cells k1 k3.
Proof.
  intros H12 H23. induction H23 as [k Hk | k k' k'' _ IH Hadj Hin];
    [done |].
  eapply connected_step; [by apply IH | done | done].
Qed.

Lemma connected_in_mono cells cells' k k' :
  (∀ x, x ∈ cells → x ∈ cells') →
  connected_in cells k k' → connected_in cells' k k'.
Proof.
  intros Hsub. induction 1 as [k Hk | k k' k'' _ IH Hadj Hin].
  - apply connected_here. by apply Hsub.
  - eapply connected_step; [exact IH | done | by apply Hsub].
Qed.

(** Every obstacle the inner loop adds to the group is reached from an
    entry of the stack by a walk inside the cells it adds. *)
Lemma flood_connected posMap :
  (∀ k o, posMap !! k = Some o → obstacle_key o = k) →
  ∀ fuel visited group stack visited' group' new,
    flood fuel posMap visited group stack = Some (visited', group') →
    group' = group ++ new →
    ∀ o, o ∈ new →
         ∃ s, s ∈ stack ∧
              connected_in (cells_of new) (obstacle_key s) (obstacle_key o).
Proof.
  intros Hkey.
  induction fuel as [| fuel IH];
    intros visited group stack visited' group' new Hrun Hnew o Ho;
    destruct stack as [| current rest]; simpl in Hrun; try done.
  1,2: injection Hrun as <- <-;
       assert (new = []) as ->
         by (apply (app_inv_head group); by rewrite app_nil_r);
       by apply elem_of_nil in Ho.
  set (ck := obstacle_key current) in *.
  case_bool_decide as Hvis.
  - destruct (IH _ _ _ _ _ _ Hrun Hnew o Ho) as (s & Hs & Hconn).
    exists s. split; [| done]. apply elem_of_cons. by right.
  - destruct (flood_spec posMap Hkey _ _ _ _ _ _ Hrun)
      as (new1 & E & _).
    rewrite E, <- app_assoc in Hnew. apply app_inv_head in Hnew.
    simpl in Hnew. subst new.
    assert (∀ x, x ∈ cells_of new1 → x ∈ cells_of (current :: new1))
      as Hsub.
    { intros x Hx. unfold cells_of. rewrite fmap_cons.
      apply elem_of_cons. by right. }
    assert (ck ∈ cells_of (current :: new1)) as Hck.
    { unfold cells_of. rewrite fmap_cons. apply elem_of_cons. by left. }
    apply elem_of_cons in Ho as [-> | Ho].
    + exists current. split; [apply elem_of_cons; by left |].
      by apply connected_here.
    + destruct (IH _ _ _ _ _ new1 Hrun E o Ho) as (s & Hs & Hconn).
      apply (connected_in_mono _ _ _ _ Hsub) in Hconn.
      apply elem_of_app in Hs as [Hs | Hs].
      * apply elem_of_reverse, getNeighbors_elem in Hs
          as (d & Hd & _ & Hget).
        exists current. split; [apply elem_of_cons; by left |].
        eapply connected_in_trans; [| exact Hconn].
        eapply connected_step; [by apply connected_here | |].
        -- exists d. split; [done |]. by rewrite (Hkey _ _ Hget).
        -- by apply connected_in_start in Hconn.
      * exists s. split; [| done]. apply elem_of_cons. by right.
Qed.

Lemma closed_upto_weaken posMap visited stack :
  closed_upto posMap visited [] → closed_upto posMap visited stack.
Proof.
  intros Hc k k' Hk Hadj Hdom.
  destruct (Hc k k' Hk Hadj Hdom) as [? | Hin]; [by left |].
  by apply elem_of_nil in Hin.
Qed.

Lemma cells_of_concat_snoc groups g k :
  k ∈ cells_of (concat (groups ++ [g])) ↔
  k ∈ cells_of (concat groups) ∨ k ∈ cells_of g.
Proof.
  unfold cells_of. rewrite concat_app. simpl.
  by rewrite app_nil_r, fmap_app, elem_of_app.
Qed.
(** An entry that is popped with its cell not yet visited opens what the
    loop adds to the group. *)
Lemma flood_head posMap :
  (∀ k o, posMap !! k = Some o → obstacle_key o = k) →
  ∀ fuel visited group current rest visited' group',
    flood fuel posMap visited group (current :: rest)
    = Some (visited', group') →
    obstacle_key current ∉ visited →
    ∃ new, group' = group ++ current :: new.
Proof.
  intros Hkey fuel visited group current rest visited' group' Hrun Hvis.
  destruct fuel as [| fuel]; simpl in Hrun; [done |].
  rewrite bool_decide_eq_false_2 in Hrun by done.
  destruct (flood_spec posMap Hkey _ _ _ _ _ _ Hrun) as (new & -> & _).
  exists new. by rewrite <- app_assoc.
Qed.

(** One turn of the outer loop keeps what has been built and either
    skips an obstacle whose cell is taken, or adds the block around it. *)
Lemma group_step_grouped posMap fuel obstacles seen visited groups obs :
  (∀ k o, posMap !! k = Some o → obstacle_key o = k ∧ o ∈ obstacles) →
  (∀ o, o ∈ obstacles → obstacle_key o ∈ dom posMap) →
  4 * size (dom posMap) + 1 ≤ fuel →
  obs ∈ obstacles →
  grouped posMap obstacles seen visited groups →
  ∃ visited' groups',
    group_step posMap fuel (Some (visited, groups)) obs
    = Some (visited', groups') ∧
    grouped posMap obstacles (seen ++ [obs]) visited' groups'.
Proof.
  intros Hpm Hhas Hfuel Hobs (I1 & I2 & I3 & I4 & I5 & I6 & I7 & I8).
  assert (∀ k o, posMap !! k = Some o → obstacle_key o = k) as Hkey
    by (intros k o H; by destruct (Hpm k o H)).
  unfold group_step. case_bool_decide as Hvis.
  - exists visited, groups. split; [done |].
    split_and!; try done.
    intros o Ho. apply elem_of_app in Ho as [Ho | Ho]; [by apply I4 |].
    by apply list_elem_of_singleton in Ho as ->.
  - destruct (flood_returns posMap Hkey fuel visited [] [obs])
      as [[visited' group] Hrun].
    { intros o Ho. apply list_elem_of_singleton in Ho as ->.
      by apply Hhas. }
    { assert (size (dom posMap ∖ visited) ≤ size (dom posMap))
        by (apply subseteq_size, subseteq_difference_l; done).
      simpl. lia. }
    rewrite Hrun.
    destruct (flood_spec posMap Hkey _ _ _ _ _ _ Hrun)
      as (new & E & Hnd & Hfresh & Hvis' & Hmem & Hstack & Hclosed).
    simpl in E. subst group.
    assert (obstacle_key obs ∈ cells_of new) as Hseed.
    { assert (obstacle_key obs ∈ visited') as Hin
        by (apply Hstack; by apply list_elem_of_singleton).
      apply Hvis' in Hin as [? | ?]; done. }
    assert (new ≠ []) as Hne.
    { intros ->. by apply elem_of_nil in Hseed. }
    rewrite bool_decide_eq_true_2
      by (destruct new; [done | simpl; lia]).
    exists visited', (groups ++ [new]). split; [done |].
    assert (closed_upto posMap visited' []) as Hc'
      by (by apply Hclosed, closed_upto_weaken).
    split_and!.
    + intros k. rewrite cells_of_concat_snoc, Hvis', I1. done.
    + unfold cells_of. rewrite concat_app. simpl.
      rewrite app_nil_r, fmap_app. apply NoDup_app. split_and!; try done.
      intros k Hk Hk'. apply (Hfresh k Hk'). by apply I1.
    + done.
    + intros o Ho. apply elem_of_app in Ho as [Ho | Ho].
      * apply Hvis'. left. by apply I4.
      * apply list_elem_of_singleton in Ho as ->. apply Hvis'. by right.
    + intros g Hg. apply elem_of_app in Hg as [Hg | Hg]; [by apply I5 |].
      by apply list_elem_of_singleton in Hg as ->.
    + intros g o Hg Ho. apply elem_of_app in Hg as [Hg | Hg];
        [by eapply I6 |].
      apply list_elem_of_singleton in Hg as ->.
      destruct (Hmem o Ho) as [Hin | [k Hk]].
      * by apply list_elem_of_singleton in Hin as ->.
      * by destruct (Hpm k o Hk).
    + intros g k k' Hg Hk Hadj Hdom.
      apply elem_of_app in Hg as [Hg | Hg]; [by eapply I7 |].
      apply list_elem_of_singleton in Hg as ->.
      assert (k ∈ visited') as Hkv by (apply Hvis'; by right).
      destruct (Hc' k k' Hkv Hadj Hdom) as [Hin | Hin];
        [| by apply elem_of_nil in Hin].
      apply Hvis' in Hin as [Hold | ?]; [| done].
      assert (k ∈ dom posMap) as Hkdom.
      { apply list_elem_of_fmap in Hk as (o & -> & Ho).
        destruct (Hmem o Ho) as [Hin | [k0 Hk0]].
        - apply list_elem_of_singleton in Hin as ->. by apply Hhas.
        - destruct (Hpm k0 o Hk0) as [-> _]. apply elem_of_dom.
          by eexists. }
      destruct (I3 k' k Hold (adjacent_sym _ _ Hadj) Hkdom) as [Hin | Hin];
        [| by apply elem_of_nil in Hin].
      by destruct (Hfresh k Hk).
    + intros g Hg. apply elem_of_app in Hg as [Hg | Hg]; [by apply I8 |].
      apply list_elem_of_singleton in Hg as ->.
      exists obs. split.
      * destruct (flood_head posMap Hkey _ _ _ _ _ _ _ Hrun Hvis)
          as (new1 & E).
        simpl in E. subst new. apply elem_of_cons. by left.
      * intros o Ho.
        destruct (flood_connected posMap Hkey _ _ _ _ _ _ new Hrun eq_refl
                    o Ho) as (s & Hs & Hconn).
        by apply list_elem_of_singleton in Hs as ->.
Qed.
Lemma group_loop_grouped posMap fuel obstacles :
  (∀ k o, posMap !! k = Some o → obstacle_key o = k ∧ o ∈ obstacles) →
  (∀ o, o ∈ obstacles → obstacle_key o ∈ dom posMap) →
  4 * size (dom posMap) + 1 ≤ fuel →
  ∀ l seen visited groups,
    (∀ o, o ∈ l → o ∈ obstacles) →
    grouped posMap obstacles seen visited groups →
    ∃ visited' groups',
      foldl (group_step posMap fuel) (Some (visited, groups)) l
      = Some (visited', groups') ∧
      grouped posMap obstacles (seen ++ l) visited' groups'.
Proof.
  intros Hpm Hhas Hfuel.
  induction l as [| obs l IH]; intros seen visited groups Hl Hinv;
    cbn [foldl].
  - exists visited, groups. by rewrite app_nil_r.
  - destruct (group_step_grouped posMap fuel obstacles seen visited groups
                obs Hpm Hhas Hfuel) as (v1 & g1 & -> & Hinv1);
      [apply Hl, elem_of_cons; by left | done |].
    destruct (IH (seen ++ [obs]) v1 g1) as (v2 & g2 & -> & Hinv2);
      [intros o Ho; apply Hl, elem_of_cons; by right | done |].
    exists v2, g2. split; [done |]. by rewrite <- app_assoc in Hinv2.
Qed.

(** The function returns, and what it returns is described by
    [grouped]. *)
Lemma groupContiguousObstacles_grouped (obstacles : list Object3D) :
  ∃ visited groups,
    groupContiguousObstacles obstacles = Some groups ∧
    grouped (build_posMap obstacles) obstacles obstacles visited groups.
Proof.
  unfold groupContiguousObstacles.
  assert (grouped (build_posMap obstacles) obstacles [] ∅ []) as Hstart.
  { split_and!.
    - intros k. split; intros Hk; exfalso.
      + exact (not_elem_of_empty (C := gset cell) k Hk).
      + by apply elem_of_nil in Hk.
    - apply NoDup_nil_2.
    - intros k k' Hk. exfalso.
      exact (not_elem_of_empty (C := gset cell) k Hk).
    - intros o Ho. by apply elem_of_nil in Ho.
    - intros g Hg. by apply elem_of_nil in Hg.
    - intros g o Hg. by apply elem_of_nil in Hg.
    - intros g k k' Hg. by apply elem_of_nil in Hg.
    - intros g Hg. by apply elem_of_nil in Hg. }
  assert (4 * size (dom (build_posMap obstacles)) + 1
          ≤ 4 * length obstacles + 1) as Hfuel
    by (pose proof (build_posMap_size obstacles); lia).
  destruct (group_loop_grouped (build_posMap obstacles)
              (4 * length obstacles + 1) obstacles
              (build_posMap_key obstacles) (build_posMap_has obstacles)
              Hfuel obstacles [] ∅ [] ltac:(done) Hstart)
    as (visited & groups & -> & Hinv).
  by exists visited, groups.
Qed.

(** A run of the inner loop that ends within the bound ends with the
    same result under any larger bound. *)
Lemma flood_fuel_mono posMap :
  ∀ fuel fuel' visited group stack result,
    flood fuel posMap visited group stack = Some result →
    fuel ≤ fuel' →
    flood fuel' posMap visited group stack = Some result.
Proof.
  induction fuel as [| fuel IH];
    intros fuel' visited group stack result Hrun Hle;
    destruct stack as [| current rest]; simpl in Hrun; try done.
  - by destruct fuel'.
  - by destruct fuel'.
  - destruct fuel' as [| fuel']; [lia |]. simpl.
    case_bool_decide; apply IH; try done; lia.
Qed.

Lemma group_loop_fuel_mono posMap fuel fuel' (l : list Object3D) :
  fuel ≤ fuel' →
  ∀ acc result,
    foldl (group_step posMap fuel) acc l = Some result →
    foldl (group_step posMap fuel') acc l = Some result.
Proof.
  intros Hle. induction l as [| obs l IH]; intros acc result Hrun;
    cbn [foldl] in *; [done |].
  assert (group_step posMap fuel acc obs ≠ None) as Hsome.
  { intros E. rewrite E in Hrun. clear -Hrun.
    induction l as [| x l IH]; [done | by apply IH]. }
  assert (group_step posMap fuel' acc obs = group_step posMap fuel acc obs)
    as ->; [| by apply IH].
  unfold group_step in *. destruct acc as [[visited groups] |]; [| done].
  case_bool_decide; [done |].
  destruct (flood fuel posMap visited [] [obs]) as [r |] eqn:E; [| done].
  by rewrite (flood_fuel_mono posMap fuel fuel' _ _ _ r E Hle).
Qed.

(** [groupContiguousObstacles] returns for every list of obstacles, with
    a result that no larger bound on the turns of the inner loop would
    change; and its groups split the occupied cells: no cell is in two
    groups or twice in one, the cell of every obstacle is in a group, no
    group is empty, and every member of a group is an obstacle of the
    list. *)
Theorem groupContiguousObstacles_partitions (obstacles : list Object3D) :
  ∃ groups,
    groupContiguousObstacles obstacles = Some groups ∧
    (∀ fuel, 4 * length obstacles + 1 ≤ fuel →
             snd <$> foldl (group_step (build_posMap obstacles) fuel)
                       (Some (∅, [])) obstacles
             = Some groups) ∧
    NoDup (cells_of (concat groups)) ∧
    (∀ obs, obs ∈ obstacles →
            obstacle_key obs ∈ cells_of (concat groups)) ∧
    (∀ g, g ∈ groups → g ≠ []) ∧
    (∀ g o, g ∈ groups → o ∈ g → o ∈ obstacles).
Proof.
  destruct (groupContiguousObstacles_grouped obstacles)
    as (visited & groups & Hrun & I1 & I2 & _ & I4 & I5 & I6 & _).
  exists groups. split_and!; try done.
  - intros fuel Hfuel. unfold groupContiguousObstacles in Hrun.
    destruct (foldl _ _ obstacles) as [r |] eqn:E; [| done].
    by rewrite (group_loop_fuel_mono _ _ fuel obstacles Hfuel _ r E).
  - intros obs Hobs. by apply I1, I4.
Qed.

(** The groups are the blocks of the grid.  Two obstacles whose cells
    share a side are in the same group; and inside a group every member
    is reached from one of them by a walk from cell to cell, side by
    side, that stays in the group. *)
Theorem groupContiguousObstacles_blocks (obstacles : list Object3D) :
  ∃ groups,
    groupContiguousObstacles obstacles = Some groups ∧
    (∀ g o obs,
       g ∈ groups → o ∈ g → obs ∈ obstacles →
       adjacent (obstacle_key o) (obstacle_key obs) →
       obstacle_key obs ∈ cells_of g) ∧
    (∀ g, g ∈ groups →
          ∃ seed, seed ∈ g ∧
                  ∀ o, o ∈ g →
                       connected_in (cells_of g) (obstacle_key seed)
                         (obstacle_key o)).
Proof.
  destruct (groupContiguousObstacles_grouped obstacles)
    as (visited & groups & Hrun & _ & _ & _ & _ & _ & _ & I7 & I8).
  exists groups. split_and!; try done.
  intros g o obs Hg Ho Hobs Hadj.
  apply (I7 g (obstacle_key o)); try done.
  - by apply list_elem_of_fmap_2.
  - by apply build_posMap_has.
Qed.
(** ** More of the asset loader: the streams of a mesh *)

Lemma vertex_color_bound activeMaterial b :
  length (vertex_color activeMaterial b) = 4 ∧
  ∀ c, c ∈ vertex_color activeMaterial b → (c <= 1)%R.
Proof.
  unfold vertex_color. destruct (activeMaterial ≫= Kd) as [kd |].
  - split; [done |]. intros c Hc.
    repeat (apply elem_of_cons in Hc as [-> | Hc]);
      [apply Rmin_l.. | lra | by apply elem_of_nil in Hc].
  - split; [done |]. intros c Hc.
    repeat (apply elem_of_cons in Hc as [-> | Hc]);
      [lra.. | by apply elem_of_nil in Hc].
Qed.

Lemma face_vert_step_streams three b s s' vert k :
  face_vert_step b (Some s) vert = Some s' →
  streams_ok three s k →
  vertices s' = vertices s ∧
  streams_ok three s'
    (k + length (filter (λ v, fv v ≠ None) [vert])).
Proof.
  unfold face_vert_step. simpl.
  destruct (fv vert) as [v |] eqn:Hv.
  - rewrite filter_cons, decide_True by (by rewrite Hv). simpl.
    destruct (vertices s !! v) as [p |] eqn:Hp; [| done]. simpl.
    destruct (spread (textures s) (ft vert)) as [t |]; [| done]. simpl.
    destruct (spread (normals s) (fn vert)) as [n |]; [| done]. simpl.
    intros [= <-] (Hlen & Hle & Hthree). split; [done |].
    destruct (vertex_color_bound (activeMaterial s) b) as [H4 Hc1].
    unfold streams_ok. cbn [arrays a_color a_position vertices].
    split_and!.
    + rewrite length_app, H4, Hlen. lia.
    + intros c Hc. apply elem_of_app in Hc as [Hc | Hc]; [by apply Hle |].
      by apply Hc1.
    + intros H3. destruct (Hthree H3) as [Hv3 Hpos]. split; [done |].
      rewrite length_app, Hpos, (Hv3 p) by (by eapply list_elem_of_lookup_2).
      lia.
  - rewrite filter_cons, decide_False by (by rewrite Hv; intros H; apply H).
    simpl. intros [= <-] Hok. split; [done |]. by rewrite Nat.add_0_r.
Qed.

Lemma face_loop_streams three b (verts : list FaceVert) :
  ∀ s s' k,
    foldl (face_vert_step b) (Some s) verts = Some s' →
    streams_ok three s k →
    vertices s' = vertices s ∧
    streams_ok three s' (k + length (filter (λ v, fv v ≠ None) verts)).
Proof.
  induction verts as [| vert verts IH]; intros s s' k Hrun Hok.
  - injection Hrun as <-. split; [done |]. simpl. by rewrite Nat.add_0_r.
  - cbn [foldl] in Hrun.
    destruct (face_vert_step b (Some s) vert) as [s1 |] eqn:E;
      [| by rewrite face_fold_none in Hrun].
    destruct (face_vert_step_streams three b s s1 vert k E Hok)
      as [Hv1 Hok1].
    destruct (IH s1 s' _ Hrun Hok1) as [Hv2 Hok2].
    split; [congruence |].
    replace (k + length (filter (λ v, fv v ≠ None) (vert :: verts)))
      with (k + length (filter (λ v, fv v ≠ None) [vert])
            + length (filter (λ v, fv v ≠ None) verts)); [done |].
    rewrite (filter_cons _ vert verts), (filter_cons _ vert []).
    destruct (decide (fv vert ≠ None)); simpl; lia.
Qed.

Lemma obj_loop_streams three mats b (obj : list obj_line) :
  ∀ s s' k,
    (three → ∀ c, c ∈ declared_vertices obj → length c = 3) →
    foldl (obj_step mats b) (Some s) obj = Some s' →
    streams_ok three s k →
    streams_ok three s' (k + length (face_corners obj)).
Proof.
  induction obj as [| line obj IH]; intros s s' k Hdecl Hrun Hok.
  - injection Hrun as <-. simpl. by rewrite Nat.add_0_r.
  - cbn [foldl] in Hrun.
    destruct (obj_step mats b (Some s) line) as [s1 |] eqn:E;
      [| by rewrite obj_fold_none in Hrun].
    assert (three → ∀ c, c ∈ declared_vertices obj → length c = 3)
      as Hdecl'.
    { intros H3 c Hc. apply (Hdecl H3). unfold declared_vertices. simpl.
      apply elem_of_app. by right. }
    assert (streams_ok three s1
              (k + length (face_corners [line]))) as Hok1.
    { destruct Hok as (Hlen & Hle & Hthree).
      destruct line as [c | c | c | verts | name |]; simpl in E.
      - injection E as <-. simpl. rewrite Nat.add_0_r.
        split_and!; try done. intros H3.
        destruct (Hthree H3) as [Hv3 Hpos]. split; [| done].
        intros c' Hc'. apply elem_of_app in Hc' as [Hc' | Hc'];
          [by apply Hv3 |].
        apply list_elem_of_singleton in Hc' as ->.
        apply (Hdecl H3). unfold declared_vertices. simpl.
        apply elem_of_cons. by left.
      - injection E as <-. simpl. by rewrite Nat.add_0_r.
      - injection E as <-. simpl. by rewrite Nat.add_0_r.
      - unfold face_corners. simpl. rewrite app_nil_r.
        by destruct (face_loop_streams three b verts s s1 k E).
      - rewrite Nat.add_0_r.
        destruct (mats !! name); injection E as <-; done.
      - injection E as <-. simpl. by rewrite Nat.add_0_r. }
    pose proof (IH s1 s' _ Hdecl' Hrun Hok1) as Hfin.
    replace (k + length (face_corners (line :: obj)))
      with (k + length (face_corners [line]) + length (face_corners obj));
      [done |].
    unfold face_corners. simpl. rewrite app_nil_r, length_app. lia.
Qed.

(** The streams of a mesh that loads: the colours come four to a face
    corner and no channel exceeds 1, whatever the material file and the
    brightness; when every [v] line of the file carries three
    coordinates, the positions come three to a corner. *)
Theorem loadObjWithMtl_streams (obj : list obj_line)
    (mtl : option (list mtl_line)) (b : R) (arrays : Arrays) :
  loadObjWithMtl obj mtl b = Some arrays →
  length (a_color arrays) = 4 * length (face_corners obj) ∧
  (∀ c, c ∈ a_color arrays → (c <= 1)%R) ∧
  ((∀ c, c ∈ declared_vertices obj → length c = 3) →
   length (a_position arrays) = 3 * length (face_corners obj)).
Proof.
  unfold loadObjWithMtl. intros Hrun.
  destruct (foldl _ _ obj) as [s' |] eqn:E; [| done].
  injection Hrun as <-.
  assert (streams_ok False
            {| vertices := [dummy]; normals := [dummy]; textures := [dummy];
               arrays := {| a_position := []; a_color := [];
                            a_normal := []; a_texCoord := [] |};
               activeMaterial := None |} 0) as Hstart.
  { split_and!; [done | | done].
    intros c Hc. by apply elem_of_nil in Hc. }
  split_and!.
  - by destruct (obj_loop_streams False _ _ obj _ _ 0 ltac:(done) E Hstart)
      as (? & _).
  - by destruct (obj_loop_streams False _ _ obj _ _ 0 ltac:(done) E Hstart)
      as (_ & ? & _).
  - intros Hdecl.
    assert (streams_ok (∀ c, c ∈ declared_vertices obj → length c = 3)
              {| vertices := [dummy]; normals := [dummy];
                 textures := [dummy];
                 arrays := {| a_position := []; a_color := [];
                              a_normal := []; a_texCoord := [] |};
                 activeMaterial := None |} 0) as Hstart3.
    { split_and!; [done | |].
      - intros c Hc. by apply elem_of_nil in Hc.
      - intros _. split; [| done]. intros c Hc.
        by apply list_elem_of_singleton in Hc as ->. }
    destruct (obj_loop_streams _ _ _ obj _ _ 0 ltac:(done) E Hstart3)
      as (_ & _ & H3).
    by destruct (H3 Hdecl).
Qed.

Lemma loadObjWithMtl_streams_witness :
  length [0.6; 0.6; 0.6; 1]%R = 4 * length (face_corners plain_obj).
Proof.
  exact (proj1 (loadObjWithMtl_streams plain_obj None 1 _ (plain_load 1))).
Defined.
(** ** A face that names a vertex the file has not declared *)

Lemma face_loop_vertices b (verts : list FaceVert) :
  ∀ s s',
    foldl (face_vert_step b) (Some s) verts = Some s' →
    vertices s' = vertices s.
Proof.
  induction verts as [| vert verts IH]; intros s s' Hrun.
  - by injection Hrun as <-.
  - cbn [foldl] in Hrun.
    destruct (face_vert_step b (Some s) vert) as [s1 |] eqn:E;
      [| by rewrite face_fold_none in Hrun].
    rewrite (IH s1 s' Hrun).
    unfold face_vert_step in E. simpl in E.
    destruct (fv vert) as [v |]; [| by injection E as <-].
    destruct (vertices s !! v); [| done]. simpl in E.
    destruct (spread (textures s) (ft vert)); [| done]. simpl in E.
    destruct (spread (normals s) (fn vert)); [| done].
    by injection E as <-.
Qed.

(** The table of vertices grows by the [v] lines, in their order. *)
Lemma obj_loop_vertices mats b (obj : list obj_line) :
  ∀ s s',
    foldl (obj_step mats b) (Some s) obj = Some s' →
    vertices s' = vertices s ++ declared_vertices obj.
Proof.
  induction obj as [| line obj IH]; intros s s' Hrun.
  - injection Hrun as <-. simpl. by rewrite app_nil_r.
  - cbn [foldl] in Hrun.
    destruct (obj_step mats b (Some s) line) as [s1 |] eqn:E;
      [| by rewrite obj_fold_none in Hrun].
    rewrite (IH s1 s' Hrun).
    destruct line as [c | c | c | verts | name |]; simpl in E.
    + injection E as <-. simpl. by rewrite <- app_assoc.
    + by injection E as <-.
    + by injection E as <-.
    + by rewrite (face_loop_vertices b verts s s1 E).
    + destruct (mats !! name); by injection E as <-.
    + by injection E as <-.
Qed.

Lemma face_loop_aborts b (before after : list FaceVert) vert i s :
  fv vert = Some i → length (vertices s) ≤ i →
  foldl (face_vert_step b) (Some s) (before ++ vert :: after) = None.
Proof.
  intros Hv Hlen. rewrite foldl_app. cbn [foldl].
  destruct (foldl (face_vert_step b) (Some s) before) as [s1 |] eqn:E.
  - assert (face_vert_step b (Some s1) vert = None) as ->;
      [| apply face_fold_none].
    unfold face_vert_step. simpl. rewrite Hv.
    rewrite (face_loop_vertices b before s s1 E).
    by rewrite (proj2 (lookup_ge_None _ _) Hlen).
  - apply face_fold_none.
Qed.

(** A face corner that names a vertex beyond the [v] lines read so far
    aborts the load: the spread of [undefined] throws.  [preloadModel]
    catches the exception: it answers [null], caches nothing and builds
    nothing, so that the next request for the model reads the files
    again. *)
Theorem undeclared_vertex_aborts (pre post : list obj_line)
    (before after : list FaceVert) (vert : FaceVert) (i : nat) (b : R) :
  fv vert = Some i →
  length (declared_vertices pre) < i →
  let obj := pre ++ OF (before ++ vert :: after) :: post in
  (∀ mtl, loadObjWithMtl obj mtl b = None) ∧
  (∀ name rm L,
     cache_get (modelCache L) name b = None →
     snd (preloadModel name b (Ok obj) rm L) = None ∧
     modelCache (fst (preloadModel name b (Ok obj) rm L)) = modelCache L ∧
     models (fst (preloadModel name b (Ok obj) rm L)) = models L ∧
     last (loader_console (fst (preloadModel name b (Ok obj) rm L)))
     = Some (LogError ("Error preloading " +:+ name))).
Proof.
  intros Hv Hi obj.
  assert (∀ mtl, loadObjWithMtl obj mtl b = None) as Hload.
  { intros mtl. unfold loadObjWithMtl, obj. rewrite foldl_app.
    cbn [foldl].
    destruct (foldl _ _ pre) as [s1 |] eqn:E;
      [| by rewrite obj_fold_none].
    apply obj_loop_vertices in E. simpl in E.
    assert (obj_step
              match mtl with
              | Some text => loadMtl text ∅
              | None => ∅
              end b (Some s1) (OF (before ++ vert :: after)) = None) as ->;
      [| by rewrite obj_fold_none].
    simpl. apply (face_loop_aborts b before after vert i); [done |].
    rewrite E. simpl. lia. }
  split; [exact Hload |].
  intros name rm L Hmiss. unfold preloadModel. rewrite Hmiss.
  destruct rm as [| | text]; simpl; rewrite Hload; simpl;
    by rewrite last_snoc.
Qed.

Lemma undeclared_vertex_aborts_witness :
  loadObjWithMtl [corner 1] None 1 = None.
Proof.
  refine (proj1 (undeclared_vertex_aborts [] [] [] []
                   {| fv := Some 1; ft := None; fn := None |} 1 1
                   eq_refl _) None).
  simpl. lia.
Defined.

(** ** The scope of a material *)

Lemma mtl_step_entry name (st1 st2 : gmap string Material * option string)
    (line : mtl_line) :
  snd st1 = snd st2 → mtl_entry st1 name = mtl_entry st2 name →
  snd (mtl_step st1 line) = snd (mtl_step st2 line) ∧
  mtl_entry (mtl_step st1 line) name = mtl_entry (mtl_step st2 line) name.
Proof.
  destruct st1 as [m1 cur1], st2 as [m2 cur2]. unfold mtl_entry. simpl.
  intros <- Hentry.
  assert (∀ f : Material → Material,
            match cur1 with
            | Some n => alter f n m1
            | None => m1
            end !! name
            = match cur1 with
              | Some n => alter f n m2
              | None => m2
              end !! name) as Hstore.
  { intros f. destruct cur1 as [n |]; [| done].
    destruct (decide (n = name)) as [-> | Hne].
    - by rewrite !lookup_alter_eq, Hentry.
    - by rewrite !lookup_alter_ne. }
  destruct line as [n | x | c | c | c |]; simpl.
  - split; [done |]. destruct (decide (n = name)) as [-> | Hne].
    + by rewrite !lookup_insert_eq.
    + by rewrite !lookup_insert_ne.
  - destruct cur1; simpl; split; try done; apply (Hstore _).
  - destruct cur1; simpl; split; try done; apply (Hstore _).
  - destruct cur1; simpl; split; try done; apply (Hstore _).
  - destruct cur1; simpl; split; try done; apply (Hstore _).
  - done.
Qed.

Lemma mtl_loop_entry name (lines : list mtl_line) :
  ∀ st1 st2,
    snd st1 = snd st2 → mtl_entry st1 name = mtl_entry st2 name →
    mtl_entry (foldl mtl_step st1 lines) name
    = mtl_entry (foldl mtl_step st2 lines) name.
Proof.
  induction lines as [| line lines IH]; intros st1 st2 Hcur Hentry;
    cbn [foldl]; [done |].
  destruct (mtl_step_entry name st1 st2 line Hcur Hentry) as [H1 H2].
  by apply IH.
Qed.

Lemma mtl_loop_headless (pre : list mtl_line) materials :
  (∀ n, MNewmtl n ∉ pre) →
  foldl mtl_step (materials, None) pre = (materials, None).
Proof.
  induction pre as [| line pre IH]; intros Hpre; cbn [foldl]; [done |].
  assert (mtl_step (materials, None) line = (materials, None)) as ->.
  { destruct line as [n | | | | |]; try done.
    destruct (Hpre n). apply elem_of_cons. by left. }
  apply IH. intros n Hin. apply (Hpre n), elem_of_cons. by right.
Qed.

Lemma mtl_loop_untouched name (lines : list mtl_line) :
  ∀ st,
    snd st ≠ Some name → MNewmtl name ∉ lines →
    mtl_entry (foldl mtl_step st lines) name = mtl_entry st name.
Proof.
  induction lines as [| line lines IH]; intros [m cur] Hcur Hout;
    cbn [foldl]; [done |].
  apply not_elem_of_cons in Hout as [Hline Hout].
  assert (snd (mtl_step (m, cur) line) ≠ Some name ∧
          mtl_entry (mtl_step (m, cur) line) name = mtl_entry (m, cur) name)
    as [Hcur' Hentry].
  { unfold mtl_entry. simpl in Hcur.
    destruct line as [n | x | c | c | c |]; simpl.
    - split; [congruence |]. rewrite lookup_insert_ne; [done | congruence].
    - destruct cur as [n |]; simpl; split; try done.
      rewrite lookup_alter_ne; [done | congruence].
    - destruct cur as [n |]; simpl; split; try done.
      rewrite lookup_alter_ne; [done | congruence].
    - destruct cur as [n |]; simpl; split; try done.
      rewrite lookup_alter_ne; [done | congruence].
    - destruct cur as [n |]; simpl; split; try done.
      rewrite lookup_alter_ne; [done | congruence].
    - done. }
  rewrite IH by done. exact Hentry.
Qed.

(** The scope of the lines of a material file.  What stands before the
    first [newmtl] is lost; a name the file does not declare keeps the
    material it had; and a [newmtl] starts its material afresh: what the
    name stands for in the end depends on the lines from its last
    declaration on, not on what came before or on what it held. *)
Theorem loadMtl_scopes (name : string) :
  (∀ pre rest target,
     (∀ n, MNewmtl n ∉ pre) →
     loadMtl (pre ++ rest) target = loadMtl rest target) ∧
  (∀ mtl target,
     MNewmtl name ∉ mtl → loadMtl mtl target !! name = target !! name) ∧
  (∀ pre post target target',
     loadMtl (pre ++ MNewmtl name :: post) target !! name
     = loadMtl (MNewmtl name :: post) target' !! name).
Proof.
  split_and!.
  - intros pre rest target Hpre. unfold loadMtl.
    by rewrite foldl_app, mtl_loop_headless.
  - intros mtl target Hout. unfold loadMtl.
    by apply (mtl_loop_untouched name mtl (target, None)).
  - intros pre post target target'. unfold loadMtl.
    rewrite foldl_app. cbn [foldl].
    apply (mtl_loop_entry name post).
    + by destruct (foldl mtl_step (target, None) pre).
    + destruct (foldl mtl_step (target, None) pre). unfold mtl_entry. simpl.
      by rewrite !lookup_insert_eq.
Qed.
(** ** The second scene *)

Lemma push_light_loop (lights : list Object3D) :
  ∀ positions colors intensities,
    foldl Scene2.push_light (positions, colors, intensities) lights
    = (positions
       ++ flat_map (λ light, [vx (position light);
                              vy (position light) + 0.5;
                              vz (position light)]%R) lights,
       colors
       ++ flat_map (λ light, if truthy_state light
                             then [0.0; 1.0; 0.0; 1.0]%R
                             else [1.0; 0.0; 0.0; 1.0]%R) lights,
       intensities ++ ((λ _, Scene2.trafficLightIntensity) <$> lights)).
Proof.
  induction lights as [| light lights IH]; intros positions colors
    intensities; cbn [foldl].
  - simpl. by rewrite !app_nil_r.
  - unfold Scene2.push_light at 2. rewrite IH. simpl.
    by rewrite <- !app_assoc.
Qed.

Lemma flat_map_length_const {X Y} (f : X → list Y) (n : nat) (l : list X) :
  (∀ x, length (f x) = n) → length (flat_map f l) = n * length l.
Proof.
  intros Hf. induction l as [| x l IH]; simpl; [lia |].
  rewrite length_app, Hf, IH. lia.
Qed.

(** The arrays [buildLightsArray] hands to the shader agree with its
    [count]: three coordinates, four colour channels and one intensity
    for each light, the sun first; the traffic lights follow in the
    order of the collection, each half a unit above its position, green
    when its state is true and red otherwise. *)
Theorem buildLightsArray_shape (trafficLights : list Object3D) :
  let L := Scene2.buildLightsArray trafficLights in
  Scene2.count L = 1 + length trafficLights ∧
  length (Scene2.positions L) = 3 * Scene2.count L ∧
  length (Scene2.colors L) = 4 * Scene2.count L ∧
  length (Scene2.intensities L) = Scene2.count L ∧
  Scene2.positions L
  = Scene2.sun_position
    ++ flat_map (λ light, [vx (position light); vy (position light) + 0.5;
                           vz (position light)]%R) trafficLights ∧
  Scene2.colors L
  = Scene2.sun_color
    ++ flat_map (λ light, if truthy_state light
                          then [0.0; 1.0; 0.0; 1.0]%R
                          else [1.0; 0.0; 0.0; 1.0]%R) trafficLights.
Proof.
  unfold Scene2.buildLightsArray. rewrite push_light_loop. simpl.
  split_and!; try done.
  - rewrite (flat_map_length_const _ 3) by done. lia.
  - rewrite (flat_map_length_const _ 4)
      by (intros x; by destruct (truthy_state x)).
    lia.
  - rewrite length_fmap. lia.
Qed.

Section SecondScene.
Context `{!Rounding}.

(** [getInterpolatedPosition] of the second scene takes the three
    coordinates from the previous sample towards the current one: an
    object without a previous sample is at its position; at fraction 0
    it is at the previous sample; at fraction 1 each coordinate is the
    previous one plus the rounded difference of the two, which is the
    current position where these differences are exact. *)
Theorem getInterpolatedPosition_endpoints (object : Object3D) (fract : R) :
  (oldPosArray object = None →
   Scene2.getInterpolatedPosition object fract = position object) ∧
  (∀ old, oldPosArray object = Some old →
     (fl (vx old) = vx old → fl (vy old) = vy old → fl (vz old) = vz old →
      Scene2.getInterpolatedPosition object 0 = old) ∧
     Scene2.getInterpolatedPosition object 1
     = (fl (vx old + fl (vx (position object) - vx old)),
        fl (vy old + fl (vy (position object) - vy old)),
        fl (vz old + fl (vz (position object) - vz old)))%R ∧
     (fl (vx (position object) - vx old) = (vx (position object) - vx old)%R →
      fl (vy (position object) - vy old) = (vy (position object) - vy old)%R →
      fl (vz (position object) - vz old) = (vz (position object) - vz old)%R →
      fl (vx (position object)) = vx (position object) →
      fl (vy (position object)) = vy (position object) →
      fl (vz (position object)) = vz (position object) →
      Scene2.getInterpolatedPosition object 1 = position object)).
Proof.
  unfold Scene2.getInterpolatedPosition. split.
  - by intros ->.
  - intros old ->. split_and!.
    + intros Hx Hy Hz. rewrite !lerp_0 by done.
      by destruct old as [[? ?] ?].
    + by rewrite !lerp_1.
    + intros Hdx Hdy Hdz Hx Hy Hz. rewrite !lerp_1_exact by done.
      by destruct (position object) as [[? ?] ?].
Qed.

End SecondScene.
(** ** The scene without car models, and the first set-up of the cars *)

Lemma same_but_target_refl o : same_but_target o o.
Proof. exists (targetRotY o). by destruct o. Qed.

Lemma same_but_target_trans o1 o2 o3 :
  same_but_target o1 o2 → same_but_target o2 o3 → same_but_target o1 o3.
Proof. intros [t ->] [t' ->]. by exists t'. Qed.

Lemma car_setup_step_inert rnd A w r0 :
  carModels A = [] →
  scene_objects (car_setup_step rnd A w r0) = scene_objects w ∧
  cars (car_setup_step rnd A w r0) = cars w ∧
  draws (car_setup_step rnd A w r0) = draws w ∧
  cells_upto same_but_target w (car_setup_step rnd A w r0).
Proof.
  intros Hnone. unfold car_setup_step.
  destruct (heap w !! r0) as [car |] eqn:Hcar.
  - rewrite bool_decide_eq_false_2
      by (rewrite Hnone; simpl; intros [_ ?]; lia).
    rewrite Hcar. simpl. split_and!; try done.
    intros r o Ho. simpl. destruct (decide (r = r0)) as [-> | Hne].
    + rewrite list_lookup_insert_eq by (by eapply lookup_lt_Some).
      eexists. split; [done |].
      assert (o = car) as -> by congruence. by eexists.
    + rewrite list_lookup_insert_ne by done. exists o.
      split; [done | apply same_but_target_refl].
  - split_and!; try done. apply cells_upto_refl, same_but_target_refl.
Qed.

(** Without a car model [updateCars] is inert.  It takes nothing out of
    the scene and brings nothing in, draws no random number, and changes
    nothing of any object beyond the target yaw: a car that is tracked
    without a mesh stays without one, and a car that is no longer
    tracked stays in the scene. *)
Theorem updateCars_inert_without_models (rnd : nat → nat) (A : Assets)
    (w : World) :
  carModels A = [] →
  let w' := updateCars rnd A w in
  scene_objects w' = scene_objects w ∧
  cars w' = cars w ∧
  draws w' = draws w ∧
  (∀ r o, heap w !! r = Some o →
          ∃ o' t, heap w' !! r = Some o' ∧ o' = set_targetRotY t o).
Proof.
  intros Hnone w'. unfold w', updateCars.
  assert (filter (λ r, is_car_in_scene A (heap w) r = true)
            (scene_objects w) = []) as ->.
  { apply filter_none. intros r _. unfold is_car_in_scene.
    destruct (heap w !! r) as [obj |]; [| done].
    destruct (vao obj); rewrite ?Hnone; simpl;
      by rewrite ?andb_false_r. }
  simpl.
  assert (∀ l w0,
            scene_objects (foldl (car_setup_step rnd A) w0 l)
            = scene_objects w0 ∧
            cars (foldl (car_setup_step rnd A) w0 l) = cars w0 ∧
            draws (foldl (car_setup_step rnd A) w0 l) = draws w0) as Hside.
  { induction l as [| r l IH]; intros w0; cbn [foldl]; [done |].
    destruct (IH (car_setup_step rnd A w0 r)) as (-> & -> & ->).
    by destruct (car_setup_step_inert rnd A w0 r Hnone) as (? & ? & ? & _). }
  destruct (Hside (cars w) w) as (H1 & H2 & H3).
  split_and!; try done.
  intros r o Ho.
  destruct (cells_upto_loop same_but_target (car_setup_step rnd A) (cars w)
              same_but_target_refl same_but_target_trans
              (λ s x, proj2 (proj2 (proj2
                 (car_setup_step_inert rnd A s x Hnone)))) w r o Ho)
    as (o' & Ho' & t & ->).
  by eexists _, t.
Qed.

Lemma updateCars_inert_without_models_witness :
  scene_objects (updateCars (λ _, 0) cube_only
                   (run (getCars (Ok [car_at 0 0 None])) empty_world))
  = [].
Proof.
  exact (proj1 (updateCars_inert_without_models (λ _, 0) cube_only
                  (run (getCars (Ok [car_at 0 0 None])) empty_world)
                  eq_refl)).
Defined.
Lemma addObject_in_scene h objects r i :
  obj_id h r = Some i →
  ∃ r', r' ∈ addObject h objects r ∧ obj_id h r' = Some i.
Proof.
  intros Hid. unfold addObject. rewrite Hid.
  case_bool_decide as Hex.
  - apply Exists_exists in Hex as (r' & Hin & Hr'). by exists r'.
  - exists r. split; [| done]. apply elem_of_app. right.
    by apply list_elem_of_singleton.
Qed.

Lemma addObject_grows h objects r x :
  x ∈ objects → x ∈ addObject h objects r.
Proof.
  intros Hx. destruct (addObject_cases h objects r) as [-> | ->]; [done |].
  apply elem_of_app. by left.
Qed.

(** One turn of the loop of [setupObjects] over the cars. *)
Lemma setup_car_step_spec rnd A w r0 car :
  heap w !! r0 = Some car →
  ∃ car',
    heap (setup_car_step rnd A w r0) = <[r0 := car']> (heap w) ∧
    id car' = id car ∧ first_mesh A car' ∧
    cars (setup_car_step rnd A w r0) = cars w ∧
    scene_objects (setup_car_step rnd A w r0)
    = addObject (<[r0 := car']> (heap w)) (scene_objects w) r0.
Proof.
  intros Hcar. unfold setup_car_step. rewrite Hcar.
  case_bool_decide as Hlen.
  - destruct (random_model_some rnd A (draws w) Hlen) as [m Hm].
    rewrite Hm. simpl. eexists. split; [done |].
    split_and!; try done. split.
    + intros _. exists m. split; [| done].
      by eapply list_elem_of_lookup_2.
    + intros Hnone. rewrite Hnone in Hlen. simpl in Hlen. lia.
  - simpl. eexists. split; [done |]. by split_and!.
Qed.

Lemma setup_car_step_frame rnd A w r0 :
  (∀ r o, heap w !! r = Some o →
          ∃ o', heap (setup_car_step rnd A w r0) !! r = Some o' ∧
                id o' = id o ∧ (r ≠ r0 → o' = o)) ∧
  (∀ i, in_scene w i → in_scene (setup_car_step rnd A w r0) i).
Proof.
  destruct (heap w !! r0) as [car |] eqn:Hcar.
  - destruct (setup_car_step_spec rnd A w r0 car Hcar)
      as (car' & Hheap & Hid & _ & _ & Hscene).
    assert (∀ r o, heap w !! r = Some o →
              ∃ o', heap (setup_car_step rnd A w r0) !! r = Some o' ∧
                    id o' = id o ∧ (r ≠ r0 → o' = o)) as Hcells.
    { intros r o Ho. rewrite Hheap.
      destruct (decide (r = r0)) as [-> | Hne].
      - rewrite list_lookup_insert_eq by (by eapply lookup_lt_Some).
        exists car'. split_and!; [done | congruence | done].
      - rewrite list_lookup_insert_ne by done. by exists o. }
    split; [exact Hcells |].
    intros i (r & Hin & Hr). exists r. split.
    + rewrite Hscene. by apply addObject_grows.
    + unfold obj_id in *. destruct (heap w !! r) as [o |] eqn:Ho; [| done].
      destruct (Hcells r o Ho) as (o' & -> & Hid' & _). simpl in *.
      congruence.
  - unfold setup_car_step. rewrite Hcar. split; [| done].
    intros r o Ho. by exists o.
Qed.

Lemma setup_car_loop_frame rnd A (l : list nat) :
  ∀ w,
    (∀ r o, heap w !! r = Some o →
            ∃ o', heap (foldl (setup_car_step rnd A) w l) !! r = Some o' ∧
                  id o' = id o ∧ (r ∉ l → o' = o)) ∧
    (∀ i, in_scene w i → in_scene (foldl (setup_car_step rnd A) w l) i).
Proof.
  induction l as [| r0 l IH]; intros w; cbn [foldl].
  - split; [| done]. intros r o Ho. by exists o.
  - destruct (setup_car_step_frame rnd A w r0) as [Hc1 Hs1].
    destruct (IH (setup_car_step rnd A w r0)) as [Hc2 Hs2].
    split.
    + intros r o Ho.
      destruct (Hc1 r o Ho) as (o1 & Ho1 & Hid1 & Hsame1).
      destruct (Hc2 r o1 Ho1) as (o2 & Ho2 & Hid2 & Hsame2).
      exists o2. split_and!; [done | congruence |].
      intros Hout. apply not_elem_of_cons in Hout as [Hne Hout].
      by rewrite (Hsame2 Hout), (Hsame1 Hne).
    + intros i Hi. by apply Hs2, Hs1.
Qed.

Lemma setup_car_loop_dresses rnd A (l : list nat) :
  ∀ w r car,
    r ∈ l → heap w !! r = Some car →
    ∃ car',
      heap (foldl (setup_car_step rnd A) w l) !! r = Some car' ∧
      id car' = id car ∧ first_mesh A car' ∧
      in_scene (foldl (setup_car_step rnd A) w l) (id car).
Proof.
  induction l as [| r0 l IH]; intros w r car Hin Hcar; cbn [foldl].
  - by apply elem_of_nil in Hin.
  - destruct (decide (r ∈ l)) as [Hlater | Hlast].
    + destruct (setup_car_step_frame rnd A w r0) as [Hc1 _].
      destruct (Hc1 r car Hcar) as (car1 & Hcar1 & Hid1 & _).
      destruct (IH _ r car1 Hlater Hcar1) as (car' & H1 & H2 & H3 & H4).
      exists car'. rewrite <- Hid1. by split_and!.
    + apply elem_of_cons in Hin as [-> | Hin]; [| done].
      destruct (setup_car_step_spec rnd A w r0 car Hcar)
        as (car' & Hheap & Hid & Hmesh & _ & Hscene).
      set (w1 := setup_car_step rnd A w r0) in *.
      assert (heap w1 !! r0 = Some car') as Hcar1.
      { rewrite Hheap. apply list_lookup_insert_eq.
        by eapply lookup_lt_Some. }
      assert (in_scene w1 (id car)) as Hin1.
      { destruct (addObject_in_scene (heap w1) (scene_objects w) r0
                    (id car)) as (r' & Hr' & Hid').
        - unfold obj_id. rewrite Hcar1. simpl. by rewrite Hid.
        - exists r'. split; [| done]. by rewrite Hscene, <- Hheap. }
      destruct (setup_car_loop_frame rnd A l w1) as [Hc2 Hs2].
      destruct (Hc2 r0 car' Hcar1) as (car2 & Hcar2 & _ & Hsame).
      rewrite (Hsame Hlast) in Hcar2.
      exists car'. split_and!; try done. by apply Hs2.
Qed.

(** [setupObjects] leaves no tracked car without a mesh: the mesh of a
    loaded car model when there is one, the mesh of the cube otherwise;
    and after it the scene holds an object of the identity of every
    tracked car. *)
Theorem setupObjects_cars_dresses (rnd : nat → nat) (A : Assets) (w : World)
    (r : nat) (car : Object3D) :
  r ∈ cars w → heap w !! r = Some car →
  let w' := setupObjects_cars rnd A w in
  ∃ car',
    heap w' !! r = Some car' ∧ id car' = id car ∧
    (0 < length (carModels A) →
     ∃ m, m ∈ carModels A ∧ vao car' = Some (m_vao m)) ∧
    (carModels A = [] → vao car' = Some (m_vao (baseCube A))) ∧
    ∃ r', r' ∈ scene_objects w' ∧ obj_id (heap w') r' = Some (id car).
Proof.
  intros Hin Hcar w'.
  destruct (setup_car_loop_dresses rnd A (cars w) w r car Hin Hcar)
    as (car' & H1 & H2 & [H3 H4] & H5).
  exists car'. by split_and!.
Qed.

Lemma setupObjects_cars_dresses_witness :
  ∃ car', heap (first_draw (λ _, 0)) !! 0 = Some car' ∧
          vao car' = Some 0.
Proof.
  destruct (setupObjects_cars_dresses (λ _, 0) cube_only
              (run (getCars (Ok [car_at 0 0 (Some "Up")])) empty_world)
              0 (fresh_car (car_at 0 0 (Some "Up"))))
    as (car' & H1 & _ & _ & H2 & _).
  - apply elem_of_cons. by left.
  - reflexivity.
  - exists car'. split; [exact H1 | by apply H2].
Defined.
(** ** Preloading: each model on its own *)

Lemma cache_get_fresh (cache : list (string * R * nat)) name b :
  name ∉ ((λ e, fst (fst e)) <$> cache) → cache_get cache name b = None.
Proof.
  induction cache as [| [[n b'] h] cache IH]; intros Hout; simpl; [done |].
  rewrite fmap_cons in Hout. apply not_elem_of_cons in Hout as [Hne Hout].
  rewrite bool_decide_eq_false_2 by (intros [? _]; simpl in *; congruence).
  by apply IH.
Qed.

(** A request for a model that is not cached succeeds exactly when its
    files load, and caches nothing under another name. *)
Lemma preload_miss (files : FileServer) b name L :
  name ∉ cached_names L →
  (is_Some (snd (preload files b name L)) ↔ loads files b name = true) ∧
  (∀ m, snd (preload files b name L) = Some m → m_name m = name) ∧
  (∀ n, n ∈ cached_names (fst (preload files b name L)) →
        n ∈ cached_names L ∨ n = name).
Proof.
  intros Hout. unfold preload, preloadModel, loads.
  rewrite (cache_get_fresh _ _ _ Hout).
  destruct (files name) as [ro rm]. simpl.
  destruct ro as [| | obj]; simpl.
  - split_and!; [split; [by intros [? ?] | done] | done | by left].
  - split_and!; [split; [by intros [? ?] | done] | done | by left].
  - assert (∀ L1 : Loader,
              cached_names L1 = cached_names L →
              let r :=
                (let '(L', handle) :=
                   match loadObjWithMtl obj (mtl_text rm) b with
                   | Some arrays =>
                       ({| models := models L1 ++
                             [{| cm_arrays := arrays;
                                 cm_bufferInfo := gpu L1;
                                 cm_vao := S (gpu L1) |}];
                           modelCache := modelCache L1 ++
                             [(name, b, length (models L1))];
                           gpu := S (S (gpu L1));
                           loader_console := loader_console L1 ++
                             [LogMessage ("Model preloaded: " +:+ name)] |},
                        Some (length (models L1)))
                   | None =>
                       (loader_log
                          (LogError ("Error preloading " +:+ name)) L1,
                        None)
                   end in
                 (L', handle ≫= named_model L' name)) in
              (is_Some (snd r)
               ↔ bool_decide
                   (is_Some (loadObjWithMtl obj (mtl_text rm) b)) = true) ∧
              (∀ m, snd r = Some m → m_name m = name) ∧
              (∀ n, n ∈ cached_names (fst r) →
                    n ∈ cached_names L ∨ n = name)) as Hbody.
    { intros L1 Hnames.
      destruct (loadObjWithMtl obj (mtl_text rm) b) as [arrays |]; simpl.
      - unfold named_model. simpl.
        rewrite lookup_app_r, Nat.sub_diag by lia. simpl.
        split_and!.
        + split; [intros _ | by eexists].
          first [done | by rewrite bool_decide_eq_true_2 by (by eexists)].
        + by intros m [= <-].
        + intros n Hn. unfold cached_names in *. simpl in Hn.
          rewrite fmap_app in Hn. apply elem_of_app in Hn as [Hn | Hn].
          * left. by rewrite <- Hnames.
          * right. simpl in Hn. by apply list_elem_of_singleton in Hn.
      - split_and!.
        + split; [by intros [? ?] |].
          first [done
                | rewrite bool_decide_eq_false_2; [done | by intros [? ?]]].
        + done.
        + intros n Hn. left. unfold cached_names in *. simpl in Hn.
          by rewrite <- Hnames. }
    destruct rm as [| | text]; simpl.
    + by apply (Hbody (loader_log _ L)).
    + by apply (Hbody L).
    + by apply (Hbody L).
Qed.

Lemma preload_loop (files : FileServer) b (names : list string) :
  ∀ L loaded,
    NoDup names →
    (∀ n, n ∈ names → n ∉ cached_names L) →
    m_name <$> snd (foldl (preload_into files b) (L, loaded) names)
    = (m_name <$> loaded) ++ filter (λ n, loads files b n = true) names ∧
    (∀ n, n ∈ cached_names
                (fst (foldl (preload_into files b) (L, loaded) names)) →
          n ∈ cached_names L ∨ n ∈ names).
Proof.
  induction names as [| name names IH]; intros L loaded Hnd Hfresh;
    cbn [foldl].
  - simpl. rewrite app_nil_r. split; [done | by left].
  - apply NoDup_cons in Hnd as [Hname Hnd].
    destruct (preload_miss files b name L) as (Hsome & Hnamed & Hcached).
    { apply Hfresh, elem_of_cons. by left. }
    destruct (preload files b name L) as [L1 model] eqn:E. simpl in *.
    assert (preload_into files b (L, loaded) name
            = (L1, match model with
                   | Some m => loaded ++ [m]
                   | None => loaded
                   end)) as ->
      by (unfold preload_into; simpl; by rewrite E).
    destruct (IH L1 (match model with
                     | Some m => loaded ++ [m]
                     | None => loaded
                     end) Hnd) as [Hlist Hnames].
    { intros n Hn Hin. destruct (Hcached n Hin) as [Hold | ->]; [| done].
      by apply (Hfresh n); [apply elem_of_cons; right |]. }
    split.
    + rewrite Hlist, filter_cons.
      destruct model as [m |].
      * rewrite decide_True by (apply Hsome; by eexists).
        rewrite fmap_app, <- app_assoc. simpl.
        by rewrite (Hnamed m eq_refl).
      * rewrite decide_False; [done |].
        intros Hl. apply Hsome in Hl as [? ?]. done.
    + intros n Hn. destruct (Hnames n Hn) as [Hin | Hin].
      * destruct (Hcached n Hin) as [? | ->]; [by left |].
        right. apply elem_of_cons. by left.
      * right. apply elem_of_cons. by right.
Qed.

(** [preloadAllModels] from an empty cache treats each of its seven
    models on its own: a model enters the module variables exactly when
    its files load at the brightness of its request (1.5 for the cars,
    1.0 for the rest), the car models and the building models in the
    order of their lists.  A model that fails is skipped and stops
    nothing. *)
Theorem preloadAllModels_loaded (files : FileServer) :
  let store := snd (preloadAllModels files empty_loader) in
  m_name <$> store_carModels store
  = filter (λ n, loads files 1.5 n = true) CAR_MODELS ∧
  (is_Some (store_trafficLightModel store)
   ↔ loads files 1.0 TRAFFIC_LIGHT_MODEL = true) ∧
  (is_Some (store_destinationModel store)
   ↔ loads files 1.0 DESTINATION_MODEL = true) ∧
  (is_Some (store_treeModel store) ↔ loads files 1.0 TREE_MODEL = true) ∧
  m_name <$> store_buildingModels store
  = filter (λ n, loads files 1.0 n = true) BUILDING_MODELS.
Proof.
  intros store. unfold store, preloadAllModels. clear store.
  set (all := CAR_MODELS ++ [TRAFFIC_LIGHT_MODEL; DESTINATION_MODEL;
                               TREE_MODEL]).
  destruct (preload_loop files 1.5 CAR_MODELS empty_loader []) as [Hcars Hn1].
  { compute_done. }
  { intros n _ Hin. by apply elem_of_nil in Hin. }
  destruct (foldl (preload_into files 1.5) (empty_loader, []) CAR_MODELS)
    as [L1 cars] eqn:E1.
  simpl in Hcars, Hn1.
  assert (∀ n, n ∈ cached_names L1 → n ∈ CAR_MODELS) as K1.
  { intros n Hn. destruct (Hn1 n Hn) as [H | H]; [| done].
    by apply elem_of_nil in H. }
  destruct (preload_miss files 1.0 TRAFFIC_LIGHT_MODEL L1) as (S2 & _ & Hn2).
  { intros Hin. apply K1 in Hin. revert Hin.
    change (?P → False) with (¬ P). compute_done. }
  destruct (preload files 1.0 TRAFFIC_LIGHT_MODEL L1) as [L2 light] eqn:E2.
  simpl in S2, Hn2.
  assert (∀ n, n ∈ cached_names L2 →
               n ∈ CAR_MODELS ++ [TRAFFIC_LIGHT_MODEL]) as K2.
  { intros n Hn. apply elem_of_app.
    destruct (Hn2 n Hn) as [H | ->]; [left; by apply K1 |].
    right. by apply list_elem_of_singleton. }
  destruct (preload_miss files 1.0 DESTINATION_MODEL L2) as (S3 & _ & Hn3).
  { intros Hin. apply K2 in Hin. revert Hin.
    change (?P → False) with (¬ P). compute_done. }
  destruct (preload files 1.0 DESTINATION_MODEL L2) as [L3 dest] eqn:E3.
  simpl in S3, Hn3.
  assert (∀ n, n ∈ cached_names L3 →
               n ∈ CAR_MODELS ++ [TRAFFIC_LIGHT_MODEL; DESTINATION_MODEL])
    as K3.
  { intros n Hn.
    destruct (Hn3 n Hn) as [H | ->].
    - apply K2 in H. apply elem_of_app in H as [H | H];
        apply elem_of_app; [by left | right].
      apply list_elem_of_singleton in H as ->.
      apply elem_of_cons. by left.
    - apply elem_of_app. right. apply elem_of_cons. right.
      by apply list_elem_of_singleton. }
  destruct (preload_miss files 1.0 TREE_MODEL L3) as (S4 & _ & Hn4).
  { intros Hin. apply K3 in Hin. revert Hin.
    change (?P → False) with (¬ P). compute_done. }
  destruct (preload files 1.0 TREE_MODEL L3) as [L4 tree] eqn:E4.
  simpl in S4, Hn4.
  assert (∀ n, n ∈ cached_names L4 → n ∈ all) as K4.
  { intros n Hn. unfold all.
    destruct (Hn4 n Hn) as [H | ->].
    - apply K3 in H. apply elem_of_app in H as [H | H];
        apply elem_of_app; [by left | right].
      apply elem_of_cons in H as [-> | H]; [by apply elem_of_cons; left |].
      apply list_elem_of_singleton in H as ->.
      apply elem_of_cons. right. apply elem_of_cons. by left.
    - apply elem_of_app. right. apply elem_of_cons. right.
      apply elem_of_cons. right. by apply list_elem_of_singleton. }
  destruct (preload_loop files 1.0 BUILDING_MODELS L4 []) as [Hbuild _].
  { compute_done. }
  { intros n Hn Hin. apply K4 in Hin. unfold all in Hin.
    repeat (apply elem_of_cons in Hn as [-> | Hn]);
      [| | by apply elem_of_nil in Hn];
      revert Hin; change (?P → False) with (¬ P); compute_done. }
  destruct (foldl (preload_into files 1.0) (L4, []) BUILDING_MODELS)
    as [L5 buildings] eqn:E5.
  simpl. simpl in Hbuild. by split_and!.
Qed.

(** Without any file nothing is loaded, and nothing fails. *)
Lemma no_files_no_models :
  snd (preloadAllModels no_files empty_loader)
  = {| store_carModels := []; store_trafficLightModel := None;
       store_destinationModel := None; store_treeModel := None;
       store_buildingModels := [] |}.
Proof. reflexivity. Qed.
(** ** Signals: the rest of the program leaves them alone *)

Lemma lights_kept_refl w : lights_kept w w.
Proof. by split_and!. Qed.

Lemma lights_kept_trans w1 w2 w3 :
  lights_kept w1 w2 → lights_kept w2 w3 → lights_kept w1 w3.
Proof.
  intros (A1 & A2 & A3 & A4) (B1 & B2 & B3 & B4).
  split_and!; [congruence | congruence | lia |].
  intros r Hr. rewrite B4 by lia. by apply A4.
Qed.

Lemma lights_kept_loop {X} (f : World → X → World) (l : list X) :
  (∀ s x, lights_kept s (f s x)) → ∀ w, lights_kept w (foldl f w l).
Proof.
  intros Hstep. induction l as [| x l IH]; intros w; simpl.
  - apply lights_kept_refl.
  - eapply lights_kept_trans; [apply Hstep | apply IH].
Qed.

Lemma lights_kept_wf w w' : lights_kept w w' → signals_wf w → signals_wf w'.
Proof.
  intros (K1 & K2 & K3 & K4) (W1 & W2 & W3 & W4).
  unfold signals_wf. rewrite K1, K2. split_and!.
  - intros r Hr. specialize (W1 r Hr). lia.
  - rewrite (omap_elem_ext _ (obj_id (heap w))); [done |].
    intros r Hr. apply K4. by apply W1.
  - intros i s Hreg. destruct (W3 i s Hreg). split; [lia | done].
  - exact W4.
Qed.

(** A step that writes no object. *)
Lemma lights_kept_store w w' :
  heap w' = heap w → trafficLights w' = trafficLights w →
  trafficLightSpheres w' = trafficLightSpheres w → lights_kept w w'.
Proof. intros Hh Hl Hs. split_and!; try done; by rewrite Hh. Qed.

(** A step that rewrites objects in place and keeps their identities. *)
Lemma lights_kept_cells w w' :
  trafficLights w' = trafficLights w →
  trafficLightSpheres w' = trafficLightSpheres w →
  (∀ r o, heap w !! r = Some o →
          ∃ o', heap w' !! r = Some o' ∧ id o' = id o) →
  lights_kept w w'.
Proof.
  intros Hl Hs Hcells.
  assert (∀ r, r < length (heap w) →
            r < length (heap w') ∧ obj_id (heap w') r = obj_id (heap w) r)
    as Hboth.
  { intros r Hr. destruct (lookup_lt_is_Some_2 _ _ Hr) as [o Ho].
    destruct (Hcells r o Ho) as (o' & Ho' & Hid).
    split; [by eapply lookup_lt_Some |].
    unfold obj_id. rewrite Ho, Ho'. simpl. by rewrite Hid. }
  split_and!; try done.
  - destruct (heap w) as [| x h] eqn:Hh; simpl; [lia |].
    destruct (Hboth (length h)) as [Hlt _]; [simpl; lia |]. lia.
  - intros r Hr. by apply Hboth.
Qed.

(** A step that adds one object at the end of the store. *)
Lemma lights_kept_append w w' x :
  heap w' = heap w ++ [x] → trafficLights w' = trafficLights w →
  trafficLightSpheres w' = trafficLightSpheres w → lights_kept w w'.
Proof.
  intros Hh Hl Hs. split_and!; try done.
  - rewrite Hh, length_app. lia.
  - intros r Hr. unfold obj_id. by rewrite Hh, lookup_app_l.
Qed.

Lemma car_step_lights w car : lights_kept w (car_step w car).
Proof.
  destruct (car_step_frame w car) as (_ & F2 & _ & _ & _ & F6 & _ & _ & F9).
  split_and!; try done. intros r Hr. by apply car_step_ids.
Qed.

Lemma getCars_lights rc w : lights_kept w (run (getCars rc) w).
Proof.
  destruct rc as [| | positions].
  - by apply lights_kept_store.
  - apply lights_kept_refl.
  - change (lights_kept w (getCars_ok positions w)).
    rewrite getCars_ok_loops.
    apply (lights_kept_trans _ (after_retire positions w)).
    + by apply lights_kept_store.
    + apply lights_kept_loop, car_step_lights.
Qed.

Lemma static_collections_lights (ro : response (list CellJson)) w :
  lights_kept w (run (getObstacles ro) w) ∧
  lights_kept w (run (getRoads ro) w) ∧
  lights_kept w (run (getDestinations ro) w).
Proof.
  destruct ro as [| | positions].
  - split_and!; by apply lights_kept_store.
  - split_and!; apply lights_kept_refl.
  - split_and!.
    + change (lights_kept w (getObstacles_ok positions w)).
      apply lights_kept_loop. intros s x. by eapply lights_kept_append.
    + change (lights_kept w (getRoads_ok positions w)).
      apply lights_kept_loop. intros s x. by eapply lights_kept_append.
    + change (lights_kept w (getDestinations_ok positions w)).
      apply lights_kept_loop. intros s x. by eapply lights_kept_append.
Qed.

Lemma updateCars_lights rnd A w : lights_kept w (updateCars rnd A w).
Proof.
  destruct (updateCars_frame rnd A w) as (_ & _ & Hlen & Hids).
  assert (∀ (g : World → list nat * gmap string nat),
            (∀ s v, g (set_scene_objects v s) = g s) →
            (∀ s v, g (set_heap v s) = g s) →
            (∀ s v, g (set_draws v s) = g s) →
            g (updateCars rnd A w) = g w) as Hkeep.
  { intros g G1 G2 G3. unfold updateCars.
    rewrite foldl_keeps, foldl_keeps; [done | |].
    - intros s r. unfold retire_from_scene.
      destruct (obj_id (heap s) r); [| done]. case_bool_decide; [done |].
      apply G1.
    - intros s r. unfold car_setup_step, dress_car.
      repeat case_match; rewrite ?G2, ?G1, ?G3, ?G2; done. }
  specialize (Hkeep (λ w, (trafficLights w, trafficLightSpheres w))
                ltac:(done) ltac:(done) ltac:(done)).
  injection Hkeep as Hl Hs.
  split_and!; [done | done | lia | by intros; apply Hids].
Qed.

Lemma setupObjects_cars_lights rnd A w :
  lights_kept w (setupObjects_cars rnd A w).
Proof.
  unfold setupObjects_cars. apply lights_kept_loop. intros s r.
  destruct (setup_car_step_frame rnd A s r) as [Hcells _].
  apply lights_kept_cells.
  - unfold setup_car_step. repeat case_match; done.
  - unfold setup_car_step. repeat case_match; done.
  - intros r' o Ho. destruct (Hcells r' o Ho) as (o' & Ho' & Hid & _).
    by exists o'.
Qed.

Lemma setupObjects_destinations_lights dm A w :
  lights_kept w (setupObjects_destinations dm A w).
Proof.
  unfold setupObjects_destinations. apply lights_kept_loop. intros s r.
  unfold setup_destination_step.
  destruct (heap s !! r) as [dest |] eqn:Hd; [| apply lights_kept_refl].
  apply lights_kept_cells; try done.
  intros r' o Ho. cbn [heap set_scene_objects set_heap].
  destruct (decide (r' = r)) as [-> | Hne].
  - rewrite list_lookup_insert_eq by (by eapply lookup_lt_Some).
    eexists. split; [done |].
    assert (o = dest) as -> by congruence. by destruct dm.
  - rewrite list_lookup_insert_ne by done. by exists o.
Qed.

Lemma getTrafficLights_lights rl w :
  trafficLights w ≠ [] → lights_kept w (run (getTrafficLights rl) w).
Proof.
  intros Hne.
  destruct (getTrafficLights_populated w rl Hne)
    as (F1 & _ & F3 & F4 & Fsig & _).
  apply lights_kept_cells; try done.
  intros r o Ho. destruct (Fsig r o Ho) as (o' & Ho' & Hs).
  exists o'. split; [done | by apply same_but_signal_id].
Qed.

Lemma updateTrafficLightSpheres_lights w :
  lights_kept w (updateTrafficLightSpheres w).
Proof.
  destruct (sphere_loop_frame (trafficLights w) w)
    as (G1 & _ & G3 & G4 & G5 & _).
  split_and!; [done | done | |].
  - fold (updateTrafficLightSpheres w) in G4. lia.
  - intros r _. apply G5.
Qed.

Section FrameSignals.
Context `{!Rounding}.

Lemma interpolateCars_lights fract w :
  lights_kept w (interpolateCars fract w).
Proof.
  destruct (interpolateCars_only_cells fract w) as (Hlen & Hcells).
  apply lights_kept_cells.
  - unfold interpolateCars. apply (foldl_keeps _ trafficLights).
    intros s x. apply (interpolate_step_side fract s x).
  - unfold interpolateCars. apply (foldl_keeps _ trafficLightSpheres).
    intros s x.
    destruct (interpolate_step_side fract s x) as (Hside & _).
    by injection Hside.
  - intros r o Ho. destruct (Hcells r o Ho) as (o' & Ho' & Hp).
    exists o'. split; [done |].
    by destruct (same_but_pose_fields _ _ Hp) as (-> & _).
Qed.

(** The signals outlive the rest of the program.  In a scene whose
    tracked lights carry distinct identities and whose register names
    one cube per identity, this stays so through each call of the
    client, through the loops of [setupObjects] over the destinations
    and the cars, through [updateCars] and [interpolateCars], and
    through a whole frame of [drawScene], provided an answer that
    populates an empty collection of lights lists each identity once. *)
Theorem signals_outlive_the_frame (rnd : nat → nat) (A : Assets)
    (dm : option Model) (now fract : R) (answers : Answers) (c : Clock)
    (w : World) (cells : response (list CellJson)) :
  signals_wf w →
  (∀ lights, lights_answer answers = Ok lights → trafficLights w = [] →
             NoDup (light_id <$> lights)) →
  signals_wf (run (getCars (cars_answer answers)) w) ∧
  signals_wf (run (getObstacles cells) w) ∧
  signals_wf (run (getRoads cells) w) ∧
  signals_wf (run (getDestinations cells) w) ∧
  signals_wf (run (getTrafficLights (lights_answer answers)) w) ∧
  signals_wf (setupObjects_lights A w) ∧
  signals_wf (setupObjects_destinations dm A w) ∧
  signals_wf (setupObjects_cars rnd A w) ∧
  signals_wf (updateCars rnd A w) ∧
  signals_wf (updateTrafficLightSpheres w) ∧
  signals_wf (interpolateCars fract w) ∧
  signals_wf (run (update (update_answer answers) (cars_answer answers)
                     (lights_answer answers)) w) ∧
  signals_wf (snd (drawScene rnd A now answers (c, w))).
Proof.
  intros Hwf Hfirst.
  destruct (static_collections_lights cells w) as (S1 & S2 & S3).
  assert (∀ w0, lights_kept w w0 →
            signals_wf (run (getTrafficLights (lights_answer answers)) w0))
    as Hlights.
  { intros w0 Hk. apply getTrafficLights_wf.
    - intros lights Ha Hempty. apply Hfirst; [done |].
      destruct Hk as (<- & _). done.
    - by apply (lights_kept_wf w). }
  assert (∀ w0, lights_kept w w0 →
            signals_wf (run (update (update_answer answers)
                               (cars_answer answers)
                               (lights_answer answers)) w0)) as Hupdate.
  { intros w0 Hk.
    destruct (update_answer answers) as [| | []] eqn:Hu.
    - apply (lights_kept_wf w); [| done].
      eapply lights_kept_trans; [exact Hk |]. by apply lights_kept_store.
    - by apply (lights_kept_wf w).
    - rewrite update_runs. apply Hlights.
      eapply lights_kept_trans; [exact Hk | apply getCars_lights]. }
  split_and!.
  - apply (lights_kept_wf w); [apply getCars_lights | done].
  - by apply (lights_kept_wf w).
  - by apply (lights_kept_wf w).
  - by apply (lights_kept_wf w).
  - apply Hlights, lights_kept_refl.
  - by apply setup_light_loop.
  - apply (lights_kept_wf w); [apply setupObjects_destinations_lights | done].
  - apply (lights_kept_wf w); [apply setupObjects_cars_lights | done].
  - apply (lights_kept_wf w); [apply updateCars_lights | done].
  - by apply updateTrafficLightSpheres_wf.
  - apply (lights_kept_wf w); [apply interpolateCars_lights | done].
  - apply Hupdate, lights_kept_refl.
  - unfold drawScene. simpl.
    set (w1 := interpolateCars _ w).
    assert (lights_kept w w1) as Hk1 by apply interpolateCars_lights.
    destruct (Rge_dec _ duration); simpl.
    + apply updateTrafficLightSpheres_wf.
      eapply lights_kept_wf; [apply updateCars_lights |].
      by apply Hupdate.
    + by apply (lights_kept_wf w).
Qed.

End FrameSignals.

Lemma signals_outlive_the_frame_witness :
  signals_wf
    (snd (@drawScene exact_arithmetic (λ _, 0) cube_only 500
            (answered [car_at 0 0 None] (Ok [light_at "l1" false]))
            (initial_clock, signal_world))).
Proof.
  destruct signal_world_facts as (Hwf & Hne & _).
  destruct (@signals_outlive_the_frame exact_arithmetic (λ _, 0) cube_only
              None 500 0
              (answered [car_at 0 0 None] (Ok [light_at "l1" false]))
              initial_clock signal_world NotOk Hwf)
    as (_ & _ & _ & _ & _ & _ & _ & _ & _ & _ & _ & _ & H).
  - intros lights _ Hempty. by destruct (Hne Hempty).
  - exact H.
Defined.
